(** * Child-process supervision of [src/lib/process.ts]

    The string functions of [src/lib/string.ts] and the request
    building of [src/lib/fetch.ts] follow the process module, each as
    pure functions.

    A shallow embedding of the process module: the global registry of
    spawned children, [spawn_process], [despawn], [despawn_all], the
    fatal-error handlers and the restartable process, together with the
    part of the platform they run on (promises, the microtask queue, the
    once-listeners of a child's [close] event).

    Objects with identity (children, promises, restartable processes) are
    numbered in order of creation and kept in tables indexed by that
    number.  Every function of the source is a state transformer; an
    [async] function is cut at each [await] into the part that runs
    synchronously and one continuation per [await]. *)

From Stdlib Require Import ZArith Lia.
From stdpp Require Import base option list strings relations gmap.

Set Warnings "-notation-for-abbreviation,-register-all".
Set Warnings "-clear-no-such-hyp,-implicit-create-rewrite-hint-db".


(** ** Data *)

Notation ChildProcess := nat (only parsing).
Notation promise := nat (only parsing).

(** [Spawn_Result = Result<Spawned, Spawned>]: the flag [ok] next to the
    fields of [Spawned]. *)
Record Spawn_Result := mk_result {
  ok : bool;
  child : ChildProcess;
  code : option Z;
  signal : option string;
}.

(** [code ? ... : ...]: a number is truthy unless it is zero, [null] is
    falsy. *)
Definition truthy (cd : option Z) : bool :=
  match cd with
  | Some n => negb (n =? 0)%Z
  | None => false
  end.

(** The object both [close] listeners build:
    [code ? {ok: false, child, code, signal} : {ok: true, child, code, signal}]. *)
Definition spawn_result (c : ChildProcess) (cd : option Z) (sg : option string)
  : Spawn_Result :=
  if truthy cd then mk_result false c cd sg else mk_result true c cd sg.

(** What a promise of this module can be fulfilled with. *)
Inductive value :=
| V_undefined
| V_result (r : Spawn_Result)
| V_array (vs : list value).

(** A thrown or rejected value: an [Error] with its message, or anything
    else, kept as the text [new Error(err)] makes its message from. *)
Inductive js_value :=
| js_error (message : string)
| js_other (printed : string).

Definition instanceof_Error (e : js_value) : bool :=
  match e with js_error _ => true | js_other _ => false end.

Definition new_Error (e : js_value) : js_value :=
  match e with js_error m => js_error m | js_other m => js_error m end.

Notation To_Error_Label := (js_value → option string) (only parsing).

(** The logger: one entry per call of [log.error] or [log.debug]. *)
Inductive log_level := level_error | level_debug.

Inductive log_item :=
| text (t : string)
| printed_child (c : ChildProcess)
| printed_error (e : js_value).

Record log_entry := mk_log {
  level : log_level;
  label : string;
  items : list log_item;
}.

Record SpawnOptions := mk_options { stdio : option string }.

(** [{stdio: 'inherit', ...options}] *)
Definition inherit_stdio (o : SpawnOptions) : SpawnOptions :=
  mk_options (Some (default "inherit"%string (stdio o))).

Record Spawned_Process := mk_spawned {
  sp_child : ChildProcess;
  closed : promise;
}.

(** What the program does from outside the module: the exported
    functions that spawn, despawn and supervise, [queueMicrotask] and
    [.then] on a returned promise.  The registry is exported as well;
    what a program does to it directly ([register_global_spawn], the
    function that returns, the methods of the [Set]) is [registry_call]
    below, and the runs with such calls are [open_run]. *)
Inductive call :=
| call_spawn_process (command : string) (args : list string) (options : SpawnOptions)
| call_spawn (command : string) (args : list string) (options : SpawnOptions)
| call_despawn (c : ChildProcess)
| call_despawn_all
| call_attach_process_error_handlers (to_error_label : option To_Error_Label)
| call_spawn_restartable_process (command : string) (args : list string)
    (options : SpawnOptions)
| call_restart (rp : nat)
| call_kill (rp : nat)
| call_queue_microtask (k : list call)
| call_then (c : call) (k : list call).

(** The rest of an [async] function after an [await], and the other
    functions handed to [then]. *)
Inductive cont :=
| close_resume (rp : nat) (self : promise)
| restart_resume (rp : nat) (self : promise)
| kill_resume_restarting (rp : nat) (self : promise)
| kill_resume_close (self : promise)
| fatal_resume (self : promise)
| all_resolve_element (agg : promise) (index : nat)
| resolve_function (target : promise)
| user_reaction (k : list call).

Inductive job :=
| reaction_job (k : cont) (v : value)
| resolve_thenable_job (target thenable : promise)
| user_job (k : list call).

(** A promise: pending ([settled = None]) with the reactions registered
    on it, or fulfilled.  [values] is the array [Promise.all] fills for
    the promise it returns (empty for any other promise). *)
Record promise_state := mk_promise {
  settled : option value;
  reactions : list cont;
  values : list (option value);
}.

(** The [once('close', ...)] listeners of the module. *)
Inductive listener :=
| on_close_spawn (p : promise)
| on_close_despawn (p : promise).

(** A child process as the platform keeps it: [exited] holds the code and
    signal of its [close] event once that has been emitted. *)
Record child_state := mk_child {
  spawnargs : list string;
  child_stdio : option string;
  exited : option (option Z * option string);
  listeners : list listener;
  kills : nat;
}.

(** The two variables a restartable process closes over, and the
    arguments it was made with. *)
Record restartable := mk_restartable {
  rp_command : string;
  rp_args : list string;
  rp_options : SpawnOptions;
  spawned : option Spawned_Process;
  restarting : option promise;
}.

Record state := mk_state {
  global_spawn : list ChildProcess;
  log : list log_entry;
  children : list child_state;
  promises : list promise_state;
  microtasks : list job;
  restartables : list restartable;
  handlers : list (option To_Error_Label);
}.

Definition initial : state := mk_state [] [] [] [] [] [] [].

(** ** Field updates *)

Definition set_global_spawn (g : list ChildProcess) (s : state) : state :=
  mk_state g (log s) (children s) (promises s) (microtasks s) (restartables s)
    (handlers s).

Definition set_log (l : list log_entry) (s : state) : state :=
  mk_state (global_spawn s) l (children s) (promises s) (microtasks s)
    (restartables s) (handlers s).

Definition set_children (cs : list child_state) (s : state) : state :=
  mk_state (global_spawn s) (log s) cs (promises s) (microtasks s)
    (restartables s) (handlers s).

Definition set_promises (ps : list promise_state) (s : state) : state :=
  mk_state (global_spawn s) (log s) (children s) ps (microtasks s)
    (restartables s) (handlers s).

Definition set_microtasks (q : list job) (s : state) : state :=
  mk_state (global_spawn s) (log s) (children s) (promises s) q
    (restartables s) (handlers s).

Definition set_restartables (rs : list restartable) (s : state) : state :=
  mk_state (global_spawn s) (log s) (children s) (promises s) (microtasks s)
    rs (handlers s).

Definition set_handlers (hs : list (option To_Error_Label)) (s : state) : state :=
  mk_state (global_spawn s) (log s) (children s) (promises s) (microtasks s)
    (restartables s) hs.

(** ** The platform *)

(** A JavaScript [Set] iterates in insertion order and holds no value
    twice. *)
Definition set_has (c : ChildProcess) (g : list ChildProcess) : bool :=
  bool_decide (c ∈ g).

Definition set_add (c : ChildProcess) (g : list ChildProcess) : list ChildProcess :=
  if set_has c g then g else g ++ [c].

Definition set_delete (c : ChildProcess) (g : list ChildProcess) : list ChildProcess :=
  filter (λ x, x ≠ c) g.

Definition log_entry_to (lv : log_level) (lb : string) (its : list log_item)
    (s : state) : state :=
  set_log (log s ++ [mk_log lv lb its]) s.

Definition enqueue (j : job) (s : state) : state :=
  set_microtasks (microtasks s ++ [j]) s.

Definition enqueue_all (js : list job) (s : state) : state :=
  set_microtasks (microtasks s ++ js) s.

(** [new Promise(...)], and the promise of a started [async] function:
    the next free number. *)
Definition fresh_promise (s : state) : promise := length (promises s).

Definition new_promise_with (vs : list (option value)) (s : state) : state :=
  set_promises (promises s ++ [mk_promise None [] vs]) s.

Definition new_promise : state → state := new_promise_with [].

(** The resolve function of [p], called with a value that is no thenable:
    fulfils [p] and queues its reactions; nothing on a settled promise. *)
Definition resolve (p : promise) (v : value) (s : state) : state :=
  match promises s !! p with
  | Some (mk_promise None ks vs) =>
      enqueue_all ((λ k, reaction_job k v) <$> ks)
        (set_promises (<[p := mk_promise (Some v) [] vs]> (promises s)) s)
  | _ => s
  end.

(** [p.then(k)] and [await p] then [k]: registered while [p] is pending,
    queued at once when it is fulfilled. *)
Definition perform_then (p : promise) (k : cont) (s : state) : state :=
  match promises s !! p with
  | Some (mk_promise None ks vs) =>
      set_promises (<[p := mk_promise None (ks ++ [k]) vs]> (promises s)) s
  | Some (mk_promise (Some v) _ _) => enqueue (reaction_job k v) s
  | None => s
  end.

(** [Promise.all]: the promise is fulfilled with the array of values once
    no element is missing. *)
Definition all_settle (agg : promise) (s : state) : state :=
  match promises s !! agg with
  | Some ps =>
      match mapM id (values ps) with
      | Some vs => resolve agg (V_array vs) s
      | None => s
      end
  | None => s
  end.

Definition set_element (agg : promise) (i : nat) (v : value) (s : state) : state :=
  match promises s !! agg with
  | Some (mk_promise st ks vs) =>
      set_promises (<[agg := mk_promise st ks (<[i := Some v]> vs)]> (promises s)) s
  | None => s
  end.

Fixpoint all_then (agg : promise) (i : nat) (ps : list promise) (s : state) : state :=
  match ps with
  | [] => s
  | p :: ps => all_then agg (S i) ps (perform_then p (all_resolve_element agg i) s)
  end.

Definition promise_all (ps : list promise) (s : state) : state * promise :=
  let agg := fresh_promise s in
  let s := new_promise_with (replicate (length ps) None) s in
  let s := all_then agg 0 ps s in
  (all_settle agg s, agg).

(** [spawn_child_process]: a new child, running, without listeners. *)
Definition fresh_child (s : state) : ChildProcess := length (children s).

Definition spawn_child_process (command : string) (args : list string)
    (o : SpawnOptions) (s : state) : state :=
  set_children (children s ++ [mk_child (command :: args) (stdio o) None [] 0]) s.

Definition once_close (c : ChildProcess) (l : listener) (s : state) : state :=
  match children s !! c with
  | Some (mk_child sa io ex ls n) =>
      set_children (<[c := mk_child sa io ex (ls ++ [l]) n]> (children s)) s
  | None => s
  end.

(** [child.kill()] asks the process to end; the [close] event comes
    later, if the process ends. *)
Definition child_kill (c : ChildProcess) (s : state) : state :=
  match children s !! c with
  | Some (mk_child sa io ex ls n) =>
      set_children (<[c := mk_child sa io ex ls (S n)]> (children s)) s
  | None => s
  end.

(** ** Reading the tables *)

Definition settled_at (s : state) (p : promise) : option value :=
  promises s !! p ≫= settled.

Definition reactions_at (s : state) (p : promise) : list cont :=
  from_option reactions [] (promises s !! p).

Definition values_at (s : state) (p : promise) : list (option value) :=
  from_option values [] (promises s !! p).

Definition listeners_at (s : state) (c : ChildProcess) : list listener :=
  from_option listeners [] (children s !! c).

Definition exited_at (s : state) (c : ChildProcess)
  : option (option Z * option string) :=
  children s !! c ≫= exited.

(** ** The module *)

Definition log_error : list log_item → state → state :=
  log_entry_to level_error "process".

Definition log_debug : list log_item → state → state :=
  log_entry_to level_debug "process".

(** The function [register_global_spawn] returns. *)
Definition unregister (c : ChildProcess) (s : state) : state :=
  let s :=
    if negb (set_has c (global_spawn s))
    then log_error [text "spawn not registered:"; printed_child c] s
    else s in
  set_global_spawn (set_delete c (global_spawn s)) s.

Definition register_global_spawn (c : ChildProcess) (s : state) : state :=
  let s :=
    if set_has c (global_spawn s)
    then log_error [text "already registered global spawn:"; printed_child c] s
    else s in
  set_global_spawn (set_add c (global_spawn s)) s.

Definition spawn_process (command : string) (args : list string)
    (options : SpawnOptions) (s : state) : state * Spawned_Process :=
  let closed := fresh_promise s in
  let s := new_promise s in
  let child := fresh_child s in
  let s := spawn_child_process command args (inherit_stdio options) s in
  let s := register_global_spawn child s in
  let s := once_close child (on_close_spawn closed) s in
  (s, mk_spawned child closed).

Definition spawn (command : string) (args : list string)
    (options : SpawnOptions) (s : state) : state * promise :=
  let '(s, sp) := spawn_process command args options s in (s, closed sp).

Definition despawn (c : ChildProcess) (s : state) : state * promise :=
  let closed := fresh_promise s in
  let s := new_promise s in
  let s := log_debug [text "despawning"; printed_child c] s in
  let s := once_close c (on_close_despawn closed) s in
  let s := child_kill c s in
  (s, closed).

(** [Array.from(global_spawn, (child) => despawn(child))] *)
Fixpoint despawn_each (cs : list ChildProcess) (s : state) : state * list promise :=
  match cs with
  | [] => (s, [])
  | c :: cs =>
      let '(s, p) := despawn c s in
      let '(s, ps) := despawn_each cs s in
      (s, p :: ps)
  end.

Definition despawn_all (s : state) : state * promise :=
  let '(s, ps) := despawn_each (global_spawn s) s in
  promise_all ps s.

Definition attach_process_error_handlers (to_error_label : option To_Error_Label)
    (s : state) : state :=
  set_handlers (handlers s ++ [to_error_label]) s.

Definition handle_fatal_error (err : js_value) (lb : option string) (s : state)
  : state * promise :=
  let self := fresh_promise s in
  let s := new_promise s in
  let s := log_entry_to level_error (default "handle_fatal_error"%string lb)
             [printed_error err] s in
  let '(s, all) := despawn_all s in
  (perform_then all (fatal_resume self) s, self).

Definition handle_unhandled_rejection (to_error_label : option To_Error_Label)
    (err : js_value) (s : state) : state * promise :=
  let lb := default "unhandledRejection"%string (to_error_label ≫= λ f, f err) in
  if instanceof_Error err
  then handle_fatal_error err (Some lb) s
  else handle_fatal_error (new_Error err) (Some lb) s.

(** *** [spawn_out] and [print_spawn_result]

    Of [spawn_out] the model has what its [data] listeners do;
    [print_key_value] is a function of [print.ts]. *)

(** A string is truthy unless it is empty. *)
Definition truthy_string (v : string) : bool :=
  match v with String.EmptyString => false | _ => true end.

(** [print_spawn_result], over the [print_key_value] of [print.ts]. *)
Definition print_spawn_result (print_key_value : string → Z + string → string)
    (result : Spawn_Result) : string :=
  if ok result then "ok"
  else
    let text := match code result with
                | None => ""
                | Some n => print_key_value "code" (inl n)
                end in
    match signal result with
    | Some sg =>
        text +:+ ((if truthy_string text then " " else "")
                  +:+ print_key_value "signal" (inr sg))
    | None => text
    end.

(** The [data] listener of [spawn_out]:
    [stdout = (stdout ?? '') + data.toString()], for a chunk given as
    the string it converts to. *)
Definition on_data (buffer : option string) (data : string) : option string :=
  Some (default ""%string buffer +:+ data).

(** *** The restartable process *)

Definition set_spawned (rp : nat) (v : option Spawned_Process) (s : state) : state :=
  match restartables s !! rp with
  | Some (mk_restartable cm ar op _ rs) =>
      set_restartables (<[rp := mk_restartable cm ar op v rs]> (restartables s)) s
  | None => s
  end.

Definition set_restarting (rp : nat) (v : option promise) (s : state) : state :=
  match restartables s !! rp with
  | Some (mk_restartable cm ar op sp _) =>
      set_restartables (<[rp := mk_restartable cm ar op sp v]> (restartables s)) s
  | None => s
  end.

Definition get_spawned (rp : nat) (s : state) : option Spawned_Process :=
  restartables s !! rp ≫= spawned.

Definition get_restarting (rp : nat) (s : state) : option promise :=
  restartables s !! rp ≫= restarting.

(** [close], up to its [await]. *)
Definition close (rp : nat) (s : state) : state * promise :=
  let self := fresh_promise s in
  let s := new_promise s in
  match get_spawned rp s with
  | None => (resolve self V_undefined s, self)
  | Some sp =>
      let s := set_restarting rp (Some (closed sp)) s in
      let s := child_kill (sp_child sp) s in
      let s := set_spawned rp None s in
      (perform_then (closed sp) (close_resume rp self) s, self)
  end.

(** [spawned = spawn_process(command, args, {stdio: 'inherit', ...options})] *)
Definition respawn (rp : nat) (s : state) : state :=
  match restartables s !! rp with
  | Some r =>
      let '(s, sp) :=
        spawn_process (rp_command r) (rp_args r) (inherit_stdio (rp_options r)) s in
      set_spawned rp (Some sp) s
  | None => s
  end.

(** [restart], up to its [await]. *)
Definition restart (rp : nat) (s : state) : state * promise :=
  let self := fresh_promise s in
  let s := new_promise s in
  match get_restarting rp s with
  | Some r => (enqueue (resolve_thenable_job self r) s, self)
  | None =>
      match get_spawned rp s with
      | Some _ =>
          let '(s, pc) := close rp s in
          (perform_then pc (restart_resume rp self) s, self)
      | None => (resolve self V_undefined (respawn rp s), self)
      end
  end.

(** [kill], up to its first [await]. *)
Definition kill (rp : nat) (s : state) : state * promise :=
  let self := fresh_promise s in
  let s := new_promise s in
  match get_restarting rp s with
  | Some r => (perform_then r (kill_resume_restarting rp self) s, self)
  | None =>
      let '(s, pc) := close rp s in
      (perform_then pc (kill_resume_close self) s, self)
  end.

Definition spawn_restartable_process (command : string) (args : list string)
    (options : SpawnOptions) (s : state) : state * nat :=
  let rp := length (restartables s) in
  let s := set_restartables
             (restartables s ++ [mk_restartable command args options None None]) s in
  ((restart rp s).1, rp).

(** ** The event loop *)

(** One call from outside, with the promise it returns, if any. *)
Fixpoint exec_call (c : call) (s : state) : state * option promise :=
  match c with
  | call_spawn_process cm ar op =>
      let '(s, sp) := spawn_process cm ar op s in (s, Some (closed sp))
  | call_spawn cm ar op =>
      let '(s, p) := spawn cm ar op s in (s, Some p)
  | call_despawn c => let '(s, p) := despawn c s in (s, Some p)
  | call_despawn_all => let '(s, p) := despawn_all s in (s, Some p)
  | call_attach_process_error_handlers f =>
      (attach_process_error_handlers f s, None)
  | call_spawn_restartable_process cm ar op =>
      ((spawn_restartable_process cm ar op s).1, None)
  | call_restart rp => let '(s, p) := restart rp s in (s, Some p)
  | call_kill rp => let '(s, p) := kill rp s in (s, Some p)
  | call_queue_microtask k => (enqueue (user_job k) s, None)
  | call_then c k =>
      let '(s, r) := exec_call c s in
      (match r with Some p => perform_then p (user_reaction k) s | None => s end,
       None)
  end.

Definition exec_calls (k : list call) (s : state) : state :=
  foldl (λ s c, (exec_call c s).1) s k.

(** A continuation, run with the value of the promise it waited for. *)
Definition run_cont (k : cont) (v : value) (s : state) : state :=
  match k with
  | close_resume rp self => resolve self V_undefined (set_restarting rp None s)
  | restart_resume rp self => resolve self V_undefined (respawn rp s)
  | kill_resume_restarting rp self =>
      let '(s, pc) := close rp s in perform_then pc (kill_resume_close self) s
  | kill_resume_close self => resolve self V_undefined s
  | fatal_resume self => resolve self V_undefined s
  | all_resolve_element agg i => all_settle agg (set_element agg i v s)
  | resolve_function target => resolve target v s
  | user_reaction k => exec_calls k s
  end.

Definition run_job (j : job) (s : state) : state :=
  match j with
  | reaction_job k v => run_cont k v s
  | resolve_thenable_job target thenable =>
      perform_then thenable (resolve_function target) s
  | user_job k => exec_calls k s
  end.

Definition run_listener (c : ChildProcess) (cd : option Z) (sg : option string)
    (l : listener) (s : state) : state :=
  match l with
  | on_close_spawn p => resolve p (V_result (spawn_result c cd sg)) (unregister c s)
  | on_close_despawn p => resolve p (V_result (spawn_result c cd sg)) s
  end.

(** The platform emits [close] for a child: the child has ended with
    this code and signal, and its once-listeners are taken off and called
    in the order they were added. *)
Definition close_child (c : ChildProcess) (cd : option Z) (sg : option string)
    (s : state) : state :=
  match children s !! c with
  | Some (mk_child sa io _ _ n) =>
      set_children (<[c := mk_child sa io (Some (cd, sg)) [] n]> (children s)) s
  | None => s
  end.

Definition emit_close (c : ChildProcess) (cd : option Z) (sg : option string)
    (s : state) : state :=
  foldl (λ s l, run_listener c cd sg l s) (close_child c cd sg s) (listeners_at s c).

Definition is_running (c : ChildProcess) (s : state) : Prop :=
  ∃ ch, children s !! c = Some ch ∧ exited ch = None.

(** [process.on('uncaughtException', handle_fatal_error)]: the platform
    passes the origin as second argument. *)
Definition emit_uncaught_exception (err : js_value) (origin : option string)
    (s : state) : state :=
  foldl (λ s _, (handle_fatal_error err origin s).1) s (handlers s).

Definition emit_unhandled_rejection (err : js_value) (s : state) : state :=
  foldl (λ s f, (handle_unhandled_rejection f err s).1) s (handlers s).

(** One turn of the loop.  Microtasks run one at a time, oldest first,
    and the platform emits [close] between two tasks, when no microtask
    is left.  Calls from outside come in blocks; a block is not tied to
    a place in the loop, so that it stands for code of a task, of a
    microtask or of a listener alike. *)
Inductive step : state → state → Prop :=
| step_block k s :
    step s (exec_calls k s)
| step_microtask j q s :
    microtasks s = j :: q → step s (run_job j (set_microtasks q s))
| step_close c cd sg s :
    microtasks s = [] → is_running c s → step s (emit_close c cd sg s)
| step_uncaught_exception err origin s :
    step s (emit_uncaught_exception err origin s)
| step_unhandled_rejection err s :
    step s (emit_unhandled_rejection err s).

Definition reachable (s : state) : Prop := rtc step initial s.

(** *** Programs that write the registry themselves

    [global_spawn] and [register_global_spawn] are exported, so the
    program can call [register_global_spawn(child)] for a child it
    holds, call the function that returned, and call [add], [delete]
    and [clear] on the set.  [step] and [reachable] above are the runs
    of a program that leaves the registry to the module; the runs of
    any program are [open_run]. *)
Inductive registry_call :=
| call_register_global_spawn (c : ChildProcess)
| call_unregister (c : ChildProcess)
| call_set_add (c : ChildProcess)
| call_set_delete (c : ChildProcess)
| call_set_clear.

Definition exec_registry_call (r : registry_call) (s : state) : state :=
  match r with
  | call_register_global_spawn c => register_global_spawn c s
  | call_unregister c => unregister c s
  | call_set_add c => set_global_spawn (set_add c (global_spawn s)) s
  | call_set_delete c => set_global_spawn (set_delete c (global_spawn s)) s
  | call_set_clear => set_global_spawn [] s
  end.

(** The children the program holds an unregister function for, after
    the call. *)
Definition held_after (r : registry_call) (held : list ChildProcess)
  : list ChildProcess :=
  match r with
  | call_register_global_spawn c => c :: held
  | _ => held
  end.

(** A call the program can make: on a child of the table, and, for an
    unregister function, one that [register_global_spawn] has returned
    to the program. *)
Definition can_call (r : registry_call) (held : list ChildProcess) (s : state)
  : Prop :=
  match r with
  | call_register_global_spawn c | call_set_add c | call_set_delete c =>
      c < length (children s)
  | call_unregister c => c ∈ held
  | call_set_clear => True
  end.

(** [open_run held s]: [s] is reached by the steps of the loop and by
    calls on the registry, and the program holds the unregister
    functions of [held]. *)
Inductive open_run : list ChildProcess → state → Prop :=
| open_initial : open_run [] initial
| open_step held s s' : open_run held s → step s s' → open_run held s'
| open_registry held r s :
    open_run held s → can_call r held s →
    open_run (held_after r held) (exec_registry_call r s).

Definition open_reachable (s : state) : Prop := ∃ held, open_run held s.

(** ** What a step may touch

    Every continuation, job and listener holds the resolve function of at
    most one promise, its target. *)

Definition cont_target (k : cont) : option promise :=
  match k with
  | close_resume _ p | restart_resume _ p | kill_resume_restarting _ p
  | kill_resume_close p | fatal_resume p | all_resolve_element p _
  | resolve_function p => Some p
  | user_reaction _ => None
  end.

Definition job_target (j : job) : option promise :=
  match j with
  | reaction_job k _ => cont_target k
  | resolve_thenable_job t _ => Some t
  | user_job _ => None
  end.

Definition listener_target (l : listener) : promise :=
  match l with on_close_spawn p | on_close_despawn p => p end.

Definition allowed_cont (A : promise → Prop) (k : cont) : Prop :=
  ∀ p, cont_target k = Some p → A p.

Definition allowed_job (A : promise → Prop) (j : job) : Prop :=
  ∀ p, job_target j = Some p → A p.

Definition derived (s s' : state) (j : job) : Prop :=
  ∃ q k v, j = reaction_job k v ∧ k ∈ reactions_at s q ∧
    settled_at s q = None ∧ settled_at s' q = Some v.

Record frame0 (A : promise → Prop) (s s' : state) : Prop := mk_frame0 {
  fr_len : length (promises s) ≤ length (promises s');
  fr_mono : ∀ q v, settled_at s q = Some v → settled_at s' q = Some v;
  fr_self : ∀ p, ¬ A p →
    settled_at s' p = settled_at s p ∧ values_at s' p = values_at s p;
  fr_queue : ∃ new, microtasks s' = microtasks s ++ new ∧
    ∀ j, j ∈ new → allowed_job A j ∨ derived s s' j;
  fr_reactions : ∀ q k,
    k ∈ reactions_at s' q → k ∈ reactions_at s q ∨ allowed_cont A k;
  fr_reactions_fwd : ∀ q k, k ∈ reactions_at s q →
    (k ∈ reactions_at s' q ∧ settled_at s' q = settled_at s q) ∨
    (∃ v, settled_at s q = None ∧ settled_at s' q = Some v ∧
          reaction_job k v ∈ microtasks s');
  fr_listeners : ∀ c l,
    l ∈ listeners_at s' c → l ∈ listeners_at s c ∨ A (listener_target l);
  fr_listeners_fwd : ∀ c l, l ∈ listeners_at s c → l ∈ listeners_at s' c;
  fr_exited : ∀ c, exited_at s' c = exited_at s c;
  fr_children : length (children s) ≤ length (children s');
}.

(** ** Invariants

    [frame0 A s s'] above says what a transition from [s] to [s'] leaves
    alone when it may only resolve the promises in [A].  The predicates
    below are the invariants of the reachable states and of the promises
    the module hands out. *)

Definition registry_ok (s : state) : Prop :=
  (∀ c, c ∈ global_spawn s ↔ is_running c s) ∧
  (∀ c ch, children s !! c = Some ch → exited ch = None →
     ∃ p ls, listeners ch = on_close_spawn p :: ls).

Definition frame (A : promise → Prop) (s s' : state) : Prop :=
  frame0 A s s' ∧ (registry_ok s → registry_ok s').

Definition fresh_ok (A : promise → Prop) (s s' : state) : Prop :=
  ∀ t, length (promises s) ≤ t → t < length (promises s') → A t.

(** A resolve function is only held for a promise that exists. *)
Definition bounded (s : state) : Prop :=
  (∀ j p, j ∈ microtasks s → job_target j = Some p → p < length (promises s)) ∧
  (∀ q k p, k ∈ reactions_at s q → cont_target k = Some p →
     p < length (promises s)) ∧
  (∀ c l, l ∈ listeners_at s c → listener_target l < length (promises s)).

Definition wf (s : state) : Prop := bounded s ∧ registry_ok s.

(** No job and no reaction holds the resolve function of [p]. *)
Definition untargeted (p : promise) (s : state) : Prop :=
  (∀ j, j ∈ microtasks s → job_target j ≠ Some p) ∧
  (∀ q k, k ∈ reactions_at s q → cont_target k ≠ Some p).

(** What no step undoes. *)
Definition grows (s s' : state) : Prop :=
  length (promises s) ≤ length (promises s') ∧
  (∀ q v, settled_at s q = Some v → settled_at s' q = Some v) ∧
  (∀ c x, exited_at s c = Some x → exited_at s' c = Some x) ∧
  length (children s) ≤ length (children s').

(** A promise nothing can resolve: [p] is pending, no job or reaction
    targets it, and every listener that targets it sits on a child whose
    [close] event is past. *)
Definition stranded (p : promise) (s : state) : Prop :=
  settled_at s p = None ∧ p < length (promises s) ∧ untargeted p s ∧
  (∀ c l, l ∈ listeners_at s c → listener_target l = p → exited_at s c ≠ None).

(** [p] is the [closed] promise of the child [c]: pending with the
    listener of [spawn_process] as its only resolver while [c] runs,
    fulfilled with the result of [c] afterwards. *)
Definition closing (c : ChildProcess) (p : promise) (s : state) : Prop :=
  c < length (children s) ∧ p < length (promises s) ∧
  match exited_at s c with
  | None =>
      settled_at s p = None ∧ untargeted p s ∧
      on_close_spawn p ∈ listeners_at s c ∧
      (∀ c' l, l ∈ listeners_at s c' → listener_target l = p → c' = c)
  | Some (cd, sg) => settled_at s p = Some (V_result (spawn_result c cd sg))
  end.

(** [self] is the promise of a running [handle_fatal_error] that awaits
    [all]: while [self] is pending its only resolver is the rest of the
    handler, registered on [all] or queued once [all] is fulfilled. *)
Definition awaiting_all (self all : promise) (s : state) : Prop :=
  self < length (promises s) ∧
  ((is_Some (settled_at s self) ∧ is_Some (settled_at s all)) ∨
   (settled_at s self = None ∧
    ((settled_at s all = None ∧ fatal_resume self ∈ reactions_at s all) ∨
     (∃ v, reaction_job (fatal_resume self) v ∈ microtasks s)) ∧
    (∀ j, j ∈ microtasks s → job_target j = Some self →
       is_Some (settled_at s all) ∧ ∃ v, j = reaction_job (fatal_resume self) v) ∧
    (∀ q k, k ∈ reactions_at s q → cont_target k = Some self →
       q = all ∧ k = fatal_resume self) ∧
    (∀ c l, l ∈ listeners_at s c → listener_target l ≠ self))).

(** The members of [cs], each with the promise [despawn] returned for
    it and its place in the array of [Promise.all]. *)
Definition element (agg : promise) (i : nat) (c : ChildProcess) (p : promise)
    (s : state) : Prop :=
  (exited_at s c = None ∧ settled_at s p = None ∧ p ≠ agg ∧
   on_close_despawn p ∈ listeners_at s c ∧
   all_resolve_element agg i ∈ reactions_at s p ∧
   values_at s agg !! i = Some None ∧
   untargeted p s ∧
   (∀ c' l, l ∈ listeners_at s c' → listener_target l = p → c' = c)) ∨
  (∃ cd sg, exited_at s c = Some (cd, sg) ∧
     settled_at s p = Some (V_result (spawn_result c cd sg)) ∧
     ((reaction_job (all_resolve_element agg i) (V_result (spawn_result c cd sg))
         ∈ microtasks s ∧ values_at s agg !! i = Some None) ∨
      values_at s agg !! i = Some (Some (V_result (spawn_result c cd sg))))).

Definition gathered (cs : list ChildProcess) (agg : promise) (s : state) : Prop :=
  ∃ vs, settled_at s agg = Some (V_array vs) ∧
    Forall2 (λ c v, ∃ cd sg, exited_at s c = Some (cd, sg) ∧
                             v = V_result (spawn_result c cd sg)) cs vs.

Definition collecting (cs : list ChildProcess) (ps : list promise) (agg : promise)
    (s : state) : Prop :=
  settled_at s agg = None ∧
  length (values_at s agg) = length cs ∧
  mapM id (values_at s agg) = None ∧
  (∀ j, j ∈ microtasks s → job_target j = Some agg →
     ∃ i c cd sg, cs !! i = Some c ∧ exited_at s c = Some (cd, sg) ∧
       j = reaction_job (all_resolve_element agg i)
             (V_result (spawn_result c cd sg))) ∧
  (∀ q k, k ∈ reactions_at s q → cont_target k = Some agg →
     ∃ i, ps !! i = Some q ∧ k = all_resolve_element agg i) ∧
  (∀ c l, l ∈ listeners_at s c → listener_target l ≠ agg).

Definition gathering (cs : list ChildProcess) (ps : list promise) (agg : promise)
    (s : state) : Prop :=
  collecting cs ps agg s ∧
  ∀ i c p, cs !! i = Some c → ps !! i = Some p → element agg i c p s.

Definition all_state (cs : list ChildProcess) (ps : list promise) (agg : promise)
    (s : state) : Prop :=
  agg < length (promises s) ∧ length ps = length cs ∧
  (∀ p, p ∈ ps → p < length (promises s)) ∧
  (gathered cs agg s ∨ gathering cs ps agg s).

(** *** Promises that wait for another, and the handles of a
    restartable process *)

(** The promise of the once-listener [l], added to the child [c]:
    pending with [l] as its only resolver while [c] runs, fulfilled with
    the result of [c] afterwards. *)
Definition listening (l : listener) (c : ChildProcess) (s : state) : Prop :=
  c < length (children s) ∧ listener_target l < length (promises s) ∧
  match exited_at s c with
  | None =>
      settled_at s (listener_target l) = None ∧ untargeted (listener_target l) s ∧
      l ∈ listeners_at s c ∧
      (∀ c' l', l' ∈ listeners_at s c' → listener_target l' = listener_target l → c' = c)
  | Some (cd, sg) =>
      settled_at s (listener_target l) = Some (V_result (spawn_result c cd sg))
  end.

(** The continuations that fulfil the promise of their function when
    they run, and the value they fulfil it with. *)
Definition resumes (k : cont) (self : promise) : Prop :=
  match k with
  | close_resume _ p | restart_resume _ p | kill_resume_close p | fatal_resume p
  | resolve_function p => p = self
  | _ => False
  end.

Definition resume_value (k : cont) (v : value) : value :=
  match k with resolve_function _ => v | _ => V_undefined end.

(** [self] is the promise of a function that waits for [on] and goes on
    with [k]: while [self] is pending its only resolver is [k],
    registered on [on] or queued once [on] is fulfilled (or the job that
    will register it, for a promise resolved with a promise). *)
Definition awaits (k : cont) (self on : promise) (s : state) : Prop :=
  resumes k self ∧ self < length (promises s) ∧ on < length (promises s) ∧
  match settled_at s self with
  | Some u => ∃ v, settled_at s on = Some v ∧ u = resume_value k v
  | None =>
      ((settled_at s on = None ∧ k ∈ reactions_at s on) ∨
       (∃ j, j ∈ microtasks s ∧ job_target j = Some self)) ∧
      (∀ j, j ∈ microtasks s → job_target j = Some self →
         (j = resolve_thenable_job self on ∧ k = resolve_function self) ∨
         (∃ v, settled_at s on = Some v ∧ j = reaction_job k v)) ∧
      (∀ q k', k' ∈ reactions_at s q → cont_target k' = Some self →
         q = on ∧ k' = k) ∧
      (∀ c l, l ∈ listeners_at s c → listener_target l ≠ self)
  end.

(** Nothing can resolve [self] yet: as for a promise just made. *)
Definition fresh_at (self : promise) (s : state) : Prop :=
  settled_at s self = None ∧ untargeted self s ∧
  (∀ c l, l ∈ listeners_at s c → listener_target l ≠ self).

(** The number of [child.kill()] calls a child has had. *)
Definition kills_at (s : state) (c : ChildProcess) : nat :=
  from_option kills 0 (children s !! c).

(** In every reachable state the handle a restartable process holds is
    a handle of [spawn_process], and the promise it waits for while it
    closes is the [closed] promise of a child. *)
Definition rp_ok (s : state) : Prop :=
  ∀ rp r, restartables s !! rp = Some r →
    (∀ sp, spawned r = Some sp → closing (sp_child sp) (closed sp) s) ∧
    (∀ p, restarting r = Some p → ∃ c, closing c p s).

(** How a transition changes the handles: each one held afterwards was
    held before, or is new and right. *)
Definition rp_frame (s s' : state) : Prop :=
  ∀ rp r', restartables s' !! rp = Some r' →
    (∀ sp, spawned r' = Some sp →
       (∃ rp0 r, restartables s !! rp0 = Some r ∧ spawned r = Some sp) ∨
       closing (sp_child sp) (closed sp) s') ∧
    (∀ p, restarting r' = Some p →
       (∃ rp0 r, restartables s !! rp0 = Some r ∧
          (restarting r = Some p ∨ ∃ sp, spawned r = Some sp ∧ closed sp = p)) ∨
       ∃ c, closing c p s').

(** A transition that stores no new handle. *)
Definition rp_old (s s' : state) : Prop :=
  ∀ rp r', restartables s' !! rp = Some r' →
    (∀ sp, spawned r' = Some sp →
       ∃ rp0 r, restartables s !! rp0 = Some r ∧ spawned r = Some sp) ∧
    (∀ p, restarting r' = Some p →
       ∃ rp0 r, restartables s !! rp0 = Some r ∧
         (restarting r = Some p ∨ ∃ sp, spawned r = Some sp ∧ closed sp = p)).

(** ** Log entries and runs *)

Definition despawning (c : ChildProcess) : log_entry :=
  mk_log level_debug "process" [text "despawning"; printed_child c].

(** The next microtask, if there is one. *)
Definition turn (s : state) : state :=
  match microtasks s with
  | [] => s
  | j :: q => run_job j (set_microtasks q s)
  end.

(** ** States used as examples *)

Definition one_spawned : state :=
  (spawn_process "sleep" ["9"%string] (mk_options None) initial).1.

Definition one_closed : state := emit_close 0 (Some 0%Z) None one_spawned.

Definition two_spawned : state :=
  exec_calls [call_spawn_process "a" [] (mk_options None);
              call_spawn_process "b" [] (mk_options None)] initial.

Definition guarded : state :=
  exec_calls [call_attach_process_error_handlers None] two_spawned.

Definition started : state :=
  exec_calls [call_spawn_restartable_process "server" [] (mk_options None)] initial.

(** ** Strings of [src/lib/string.ts]

    A JavaScript string is a sequence of UTF-16 code units; [length],
    [substring], [startsWith], [endsWith], [indexOf], [split] and [trim]
    all work on code units. *)

Notation js_string := (list N) (only parsing).

(** The part of the platform the module uses. *)

(** An index argument after [ToIntegerOrInfinity] and clamping to
    [0 .. length]. *)
Definition clamp_index (len : nat) (i : Z) : nat :=
  Z.to_nat (Z.min (Z.max i 0) (Z.of_nat len)).

(** [s.substring(a, b)]: both ends clamped, swapped when [a > b]. *)
Definition js_substring (s : js_string) (a b : Z) : js_string :=
  let a' := clamp_index (length s) a in
  let b' := clamp_index (length s) b in
  take (a' `max` b' - a' `min` b') (drop (a' `min` b') s).

(** [s.substring(a)] *)
Definition js_substring_from (s : js_string) (a : Z) : js_string :=
  js_substring s a (Z.of_nat (length s)).

Definition js_startsWith (s x : js_string) : bool :=
  bool_decide (take (length x) s = x).

Definition js_endsWith (s x : js_string) : bool :=
  bool_decide (length x ≤ length s ∧ drop (length s - length x) s = x).

(** [s.indexOf(x)]: the first place [x] occurs at, or [-1]. *)
Fixpoint first_index (x s : js_string) : option nat :=
  if js_startsWith s x then Some 0
  else match s with
       | [] => None
       | _ :: s' => S <$> first_index x s'
       end.

Definition js_indexOf (s x : js_string) : Z :=
  match first_index x s with
  | Some i => Z.of_nat i
  | None => (-1)%Z
  end.

(** [s.split(c)] for a separator of one code unit. *)
Fixpoint js_split (c : N) (s : js_string) : list js_string :=
  match s with
  | [] => [[]]
  | u :: s' =>
      if decide (u = c) then [] :: js_split c s'
      else match js_split c s' with
           | l :: ls => (u :: l) :: ls
           | [] => [[u]]
           end
  end.

(** [ls.join(c)] *)
Fixpoint js_join (c : N) (ls : list js_string) : js_string :=
  match ls with
  | [] => []
  | [l] => l
  | l :: ls => l ++ c :: js_join c ls
  end.

(** The code units [trim] removes: WhiteSpace and LineTerminator. *)
Definition is_white_space (u : N) : bool :=
  bool_decide (u ∈ [9; 10; 11; 12; 13; 32; 160; 5760; 8232; 8233; 8239; 8287;
                    12288; 65279]%N)
  || ((8192 <=? u) && (u <=? 8202))%N.

Fixpoint js_trimStart (s : js_string) : js_string :=
  match s with
  | [] => []
  | u :: s' => if is_white_space u then js_trimStart s' else s
  end.

Definition js_trim (s : js_string) : js_string :=
  reverse (js_trimStart (reverse (js_trimStart s))).

(** The functions of the module. *)

(** ['...'] *)
Definition dots : js_string := [46; 46; 46]%N.

(** [maxLength] is taken to be an integer. *)
Definition truncate (str : js_string) (maxLength : Z) (suffix : option js_string)
  : js_string :=
  let suffix := default dots suffix in
  if (maxLength <? Z.of_nat (length suffix))%Z then []
  else if (Z.of_nat (length str) >? maxLength)%Z
       then js_substring str 0 (maxLength - Z.of_nat (length suffix)) ++ suffix
       else str.

(** [!stripped]: the empty string is falsy. *)
Definition is_empty (x : js_string) : bool :=
  match x with [] => true | _ => false end.

Definition stripStart (source stripped : js_string) : js_string :=
  if is_empty stripped || negb (js_startsWith source stripped) then source
  else js_substring_from source (Z.of_nat (length stripped)).

Definition stripEnd (source stripped : js_string) : js_string :=
  if is_empty stripped || negb (js_endsWith source stripped) then source
  else js_substring source 0 (Z.of_nat (length source) - Z.of_nat (length stripped)).

Definition stripAfter (source stripped : js_string) : js_string :=
  if is_empty stripped then source
  else let idx := js_indexOf source stripped in
       if (idx =? -1)%Z then source
       else js_substring source 0 idx.

Definition stripBefore (source stripped : js_string) : js_string :=
  if is_empty stripped then source
  else let idx := js_indexOf source stripped in
       if (idx =? -1)%Z then source
       else js_substring_from source (idx + Z.of_nat (length stripped)).

Definition ensureStart (source ensured : js_string) : js_string :=
  if js_startsWith source ensured then source else ensured ++ source.

Definition ensureEnd (source ensured : js_string) : js_string :=
  if js_endsWith source ensured then source else source ++ ensured.

(** [str.split('\n').filter(Boolean).map((s) => s.trim()).join('\n')] *)
Definition deindent (str : js_string) : js_string :=
  js_join 10 (js_trim <$> filter (λ l, l ≠ []) (js_split 10 str)).

(** The lines of the result of [deindent]. *)
Definition deindent_lines (str : js_string) : list js_string :=
  js_trim <$> filter (λ l, l ≠ []) (js_split 10 str).

(** ** Requests of [src/lib/fetch.ts]

    A [Headers] object is a map from header names, in lower case, to
    values; names and values are byte strings. *)

Notation Headers := (gmap string string) (only parsing).

(** The bytes [Headers.set] strips from both ends of a value: HTTP tab,
    line feed, carriage return and space. *)
Definition http_whitespace (a : Ascii.ascii) : bool :=
  bool_decide (Ascii.nat_of_ascii a ∈ [9; 10; 13; 32]).

Fixpoint strip_start (l : list Ascii.ascii) : list Ascii.ascii :=
  match l with
  | [] => []
  | a :: l' => if http_whitespace a then strip_start l' else l
  end.

Definition normalize_value (v : string) : string :=
  String.string_of_list_ascii
    (reverse (strip_start (reverse (strip_start (String.list_ascii_of_string v))))).

(** A header value holds no NUL, line feed or carriage return. *)
Definition valid_value (v : string) : bool :=
  bool_decide (Forall (λ a, Ascii.nat_of_ascii a ∉ [0; 10; 13])
                 (String.list_ascii_of_string v)).

(** [headers.set(name, value)] for a valid name: the value is
    normalized; a [TypeError] ([None]) when it is then no header value. *)
Definition headers_set (name value : string) (h : Headers) : option Headers :=
  let v := normalize_value value in
  if valid_value v then Some (<[name := v]> h) else None.

Definition headers_has (name : string) (h : Headers) : bool :=
  bool_decide (is_Some (h !! name)).

Definition DEFAULT_GITHUB_API_ACCEPT_HEADER : string := "application/vnd.github+json".
Definition DEFAULT_GITHUB_API_VERSION_HEADER : string := "2022-11-28".

Definition add_accept_header (hostname : string) (h : Headers) : option Headers :=
  h ← (if negb (headers_has "accept" h)
       then let accept := if String.eqb hostname "api.github.com"
                          then DEFAULT_GITHUB_API_ACCEPT_HEADER
                          else "application/json" in
            if truthy_string accept then headers_set "accept" accept h else Some h
       else Some h);
  if bool_decide (h !! "accept" = Some DEFAULT_GITHUB_API_ACCEPT_HEADER)
     && negb (headers_has "x-github-api-version" h)
  then headers_set "x-github-api-version" DEFAULT_GITHUB_API_VERSION_HEADER h
  else Some h.

(** The fields of a cached item the request is built from. *)
Record Fetch_Cache_Item := mk_item {
  etag : option string;
  last_modified : option string;
}.

(** The headers [fetch_value] sends: those of [request.headers], then
    what the other options add. *)
Definition request_headers (init : Headers) (hostname : string)
    (token : option string) (cached : option Fetch_Cache_Item) : option Headers :=
  h ← add_accept_header hostname init;
  h ← (match token with
       | Some t =>
           if truthy_string t && negb (headers_has "authorization" h)
           then headers_set "authorization" ("Bearer " +:+ t) h else Some h
       | None => Some h
       end);
  match cached ≫= etag with
  | Some e =>
      if truthy_string e && negb (headers_has "if-none-match" h)
      then headers_set "if-none-match" e h
      else match cached ≫= last_modified with
           | Some m =>
               if truthy_string m && negb (headers_has "if-modified-since" h)
               then headers_set "if-modified-since" m h else Some h
           | None => Some h
           end
  | None =>
      match cached ≫= last_modified with
      | Some m =>
          if truthy_string m && negb (headers_has "if-modified-since" h)
          then headers_set "if-modified-since" m h else Some h
      | None => Some h
      end
  end.

(** [print_headers]: a copy of the headers as an object, with the value
    of [authorization] replaced when it is truthy. *)
Definition print_headers (h : Headers) : gmap string string :=
  match h !! "authorization" with
  | Some v => if truthy_string v then <["authorization" := "[REDACTED]"]> h else h
  | None => h
  end.

(** What [fetch_value] does with the response, up to reading its body.
    [res.ok] is true for the statuses 200 to 299. *)
Record Response := mk_response { status : Z; statusText : string }.

Definition response_ok (res : Response) : bool :=
  (200 <=? status res)%Z && (status res <=? 299)%Z.

Inductive fetched :=
| throw_ratelimited
| return_failure (status : Z) (message : string)
| throw_unexpected_304
| return_cached_data
| read_body.

Definition after_response (res : Response) (cached : option Fetch_Cache_Item)
  : fetched :=
  if (status res =? 429)%Z then throw_ratelimited
  else if negb (response_ok res) then return_failure (status res) (statusText res)
  else if (status res =? 304)%Z
       then match cached with
            | None => throw_unexpected_304
            | Some _ => return_cached_data
            end
       else read_body.

(** * Properties *)

(** ** Frames of the platform operations *)

Lemma frame0_same A s s' :
  promises s' = promises s → microtasks s' = microtasks s →
  children s' = children s → frame0 A s s'.
Proof.
  intros Hp Hq Hc.
  split; unfold settled_at, reactions_at, values_at, listeners_at, exited_at;
    rewrite ?Hp, ?Hq, ?Hc; eauto.
  exists []. rewrite app_nil_r. split; [done|]. intros j Hj. by apply elem_of_nil in Hj.
Qed.

Lemma frame0_refl A s : frame0 A s s.
Proof. by apply frame0_same. Qed.

Lemma frame0_trans A s1 s2 s3 : frame0 A s1 s2 → frame0 A s2 s3 → frame0 A s1 s3.
Proof.
  intros H1 H2. split.
  - pose proof (fr_len _ _ _ H1). pose proof (fr_len _ _ _ H2). lia.
  - intros q v Hq. eapply fr_mono; [exact H2|]. eapply fr_mono; eauto.
  - intros p Hp. destruct (fr_self _ _ _ H1 p Hp) as [E1 E2].
    destruct (fr_self _ _ _ H2 p Hp) as [E3 E4]. split; congruence.
  - destruct (fr_queue _ _ _ H1) as (n1 & E1 & F1).
    destruct (fr_queue _ _ _ H2) as (n2 & E2 & F2).
    exists (n1 ++ n2). split; [rewrite E2, E1; by rewrite app_assoc|].
    intros j [Hj|Hj]%elem_of_app.
    + destruct (F1 j Hj) as [?|(q & k & v & -> & Hk & Hn & Hs)]; [by left|].
      right. exists q, k, v. repeat split; try done. eapply fr_mono; eauto.
    + destruct (F2 j Hj) as [?|(q & k & v & -> & Hk & Hn & Hs)]; [by left|].
      destruct (fr_reactions _ _ _ H1 q k Hk) as [Hk1|Hal]; [|by left].
      right. exists q, k, v. repeat split; try done.
      destruct (settled_at s1 q) eqn:E; [|done].
      apply (fr_mono _ _ _ H1) in E. congruence.
  - intros q k Hk. destruct (fr_reactions _ _ _ H2 q k Hk) as [Hk2|?]; [|by right].
    eapply fr_reactions; eauto.
  - intros q k Hk.
    destruct (fr_reactions_fwd _ _ _ H1 q k Hk) as [[Hk2 E]|(v & Hn & Hs & Hj)].
    + destruct (fr_reactions_fwd _ _ _ H2 q k Hk2) as [[Hk3 E3]|(v & Hn & Hs & Hj)].
      * left. split; [done|congruence].
      * right. exists v. repeat split; try done. congruence.
    + right. exists v. repeat split; try done.
      * eapply fr_mono; eauto.
      * destruct (fr_queue _ _ _ H2) as (n2 & E2 & _). rewrite E2.
        apply elem_of_app. by left.
  - intros c l Hl. destruct (fr_listeners _ _ _ H2 c l Hl) as [Hl2|?]; [|by right].
    eapply fr_listeners; eauto.
  - intros c l Hl. eapply fr_listeners_fwd; [exact H2|]. eapply fr_listeners_fwd; eauto.
  - intros c. rewrite (fr_exited _ _ _ H2). apply (fr_exited _ _ _ H1).
  - pose proof (fr_children _ _ _ H1). pose proof (fr_children _ _ _ H2). lia.
Qed.

Lemma frame_refl A s : frame A s s.
Proof. split; [apply frame0_refl|done]. Qed.

Lemma frame_trans A s1 s2 s3 : frame A s1 s2 → frame A s2 s3 → frame A s1 s3.
Proof. intros [H1 R1] [H2 R2]. split; [by eapply frame0_trans|auto]. Qed.

Lemma frame_same A s s' :
  promises s' = promises s → microtasks s' = microtasks s →
  children s' = children s → global_spawn s' = global_spawn s → frame A s s'.
Proof.
  intros Hp Hq Hc Hg. split; [by apply frame0_same|].
  unfold registry_ok, is_running. by rewrite Hg, Hc.
Qed.

(** The tables after one entry of [promises] is replaced. *)
Lemma settled_at_insert s p x q :
  p < length (promises s) →
  settled_at (set_promises (<[p:=x]> (promises s)) s) q =
  if decide (q = p) then settled x else settled_at s q.
Proof.
  intros Hp. unfold settled_at. simpl. destruct (decide (q = p)) as [->|Hn].
  - by rewrite list_lookup_insert_eq.
  - by rewrite list_lookup_insert_ne.
Qed.

Lemma reactions_at_insert s p x q :
  p < length (promises s) →
  reactions_at (set_promises (<[p:=x]> (promises s)) s) q =
  if decide (q = p) then reactions x else reactions_at s q.
Proof.
  intros Hp. unfold reactions_at. simpl. destruct (decide (q = p)) as [->|Hn].
  - by rewrite list_lookup_insert_eq.
  - by rewrite list_lookup_insert_ne.
Qed.

Lemma values_at_insert s p x q :
  p < length (promises s) →
  values_at (set_promises (<[p:=x]> (promises s)) s) q =
  if decide (q = p) then values x else values_at s q.
Proof.
  intros Hp. unfold values_at. simpl. destruct (decide (q = p)) as [->|Hn].
  - by rewrite list_lookup_insert_eq.
  - by rewrite list_lookup_insert_ne.
Qed.

Lemma frame_enqueue_all A js s :
  Forall (allowed_job A) js → frame A s (enqueue_all js s).
Proof.
  intros Hjs. split; [|done]. split; simpl; eauto.
  - exists js. split; [done|]. intros j Hj. left.
    by eapply Forall_forall in Hjs.
Qed.

Lemma frame_enqueue A j s : allowed_job A j → frame A s (enqueue j s).
Proof. intros Hj. apply (frame_enqueue_all A [j]). by constructor. Qed.

Lemma frame_new_promise_with A vs s :
  A (length (promises s)) → frame A s (new_promise_with vs s).
Proof.
  intros HA. split; [|done].
  assert (Hlk : ∀ q, q ≠ length (promises s) →
    (promises s ++ [mk_promise None [] vs]) !! q = promises s !! q).
  { intros q Hq. destruct (decide (q < length (promises s))).
    - by rewrite lookup_app_l.
    - rewrite !lookup_ge_None_2; [done|lia|rewrite length_app; simpl; lia]. }
  assert (Hnew : (promises s ++ [mk_promise None [] vs]) !! length (promises s)
                 = Some (mk_promise None [] vs)).
  { by rewrite list_lookup_middle. }
  assert (Hold : promises s !! length (promises s) = None).
  { by apply lookup_ge_None_2. }
  split; unfold settled_at, reactions_at, values_at; simpl.
  - rewrite length_app. lia.
  - intros q v Hq. destruct (decide (q = length (promises s))) as [->|Hn].
    + by rewrite Hold in Hq.
    + by rewrite Hlk.
  - intros p Hp. rewrite Hlk; [done|]. by intros ->.
  - exists []. rewrite app_nil_r. split; [done|]. by intros j Hj%elem_of_nil.
  - intros q k. destruct (decide (q = length (promises s))) as [->|Hn].
    + rewrite Hnew. simpl. by intros Hk%elem_of_nil.
    + rewrite Hlk by done. by left.
  - intros q k. destruct (decide (q = length (promises s))) as [->|Hn].
    + rewrite Hold. simpl. by intros Hk%elem_of_nil.
    + rewrite Hlk by done. by left.
  - by left.
  - done.
  - done.
  - done.
Qed.

Lemma settled_at_enqueue_all js s q :
  settled_at (enqueue_all js s) q = settled_at s q.
Proof. done. Qed.

Lemma reactions_at_enqueue_all js s q :
  reactions_at (enqueue_all js s) q = reactions_at s q.
Proof. done. Qed.

Lemma values_at_enqueue_all js s q :
  values_at (enqueue_all js s) q = values_at s q.
Proof. done. Qed.

Lemma frame_resolve A p v s : A p → frame A s (resolve p v s).
Proof.
  intros HA. unfold resolve.
  destruct (promises s !! p) as [[[u|] ks vs]|] eqn:E; try apply frame_refl.
  assert (Hp : p < length (promises s)) by (by eapply lookup_lt_Some).
  assert (Es : settled_at s p = None) by (unfold settled_at; by rewrite E).
  assert (Er : reactions_at s p = ks) by (unfold reactions_at; by rewrite E).
  split; [|done]. split;
    rewrite ?settled_at_enqueue_all, ?reactions_at_enqueue_all,
      ?values_at_enqueue_all.
  - simpl. by rewrite length_insert.
  - intros q w. rewrite settled_at_enqueue_all, settled_at_insert by done.
    destruct (decide (q = p)) as [->|]; [congruence|done].
  - intros q Hq.
    rewrite settled_at_enqueue_all, values_at_enqueue_all,
      settled_at_insert, values_at_insert by done.
    destruct (decide (q = p)) as [->|]; done.
  - eexists. split; [done|]. intros j (k & -> & Hk)%list_elem_of_fmap. right.
    exists p, k, v. rewrite settled_at_enqueue_all, settled_at_insert by done.
    rewrite decide_True by done. by rewrite Er.
  - intros q k. rewrite reactions_at_enqueue_all, reactions_at_insert by done.
    destruct (decide (q = p)) as [->|]; [by intros Hk%elem_of_nil|by left].
  - intros q k Hk.
    rewrite reactions_at_enqueue_all, settled_at_enqueue_all,
      reactions_at_insert, settled_at_insert by done.
    destruct (decide (q = p)) as [->|]; [|by left].
    right. exists v. repeat split; try done. simpl.
    apply elem_of_app. right. apply list_elem_of_fmap. exists k.
    split; [done|congruence].
  - by left.
  - done.
  - done.
  - done.
Qed.

Lemma frame_perform_then A q k s : allowed_cont A k → frame A s (perform_then q k s).
Proof.
  intros HA. unfold perform_then.
  destruct (promises s !! q) as [[[u|] ks vs]|] eqn:E; try apply frame_refl.
  { apply frame_enqueue. exact HA. }
  assert (Hp : q < length (promises s)) by (by eapply lookup_lt_Some).
  assert (Es : settled_at s q = None) by (unfold settled_at; by rewrite E).
  assert (Er : reactions_at s q = ks) by (unfold reactions_at; by rewrite E).
  assert (Ev : values_at s q = vs) by (unfold values_at; by rewrite E).
  split; [|done]. split; simpl.
  - by rewrite length_insert.
  - intros p w. rewrite settled_at_insert by done.
    destruct (decide (p = q)) as [->|]; [congruence|done].
  - intros p Hn. rewrite settled_at_insert, values_at_insert by done.
    destruct (decide (p = q)) as [->|]; simpl; by rewrite ?Es, ?Ev.
  - exists []. rewrite app_nil_r. split; [done|]. by intros j Hj%elem_of_nil.
  - intros p k'. rewrite reactions_at_insert by done.
    destruct (decide (p = q)) as [->|]; [|by left]. simpl.
    intros [Hk|Hk%list_elem_of_singleton]%elem_of_app;
      [left; by rewrite Er|right; by subst].
  - intros p k' Hk. left. rewrite reactions_at_insert, settled_at_insert by done.
    destruct (decide (p = q)) as [->|]; [|done]. simpl. split; [|by rewrite Es].
    apply elem_of_app. left. by rewrite <- Er.
  - by left.
  - done.
  - done.
  - done.
Qed.

Lemma frame_set_element A agg i v s : A agg → frame A s (set_element agg i v s).
Proof.
  intros HA. unfold set_element.
  destruct (promises s !! agg) as [[u ks vs]|] eqn:E; [|apply frame_refl].
  assert (Hp : agg < length (promises s)) by (by eapply lookup_lt_Some).
  assert (Es : settled_at s agg = u) by (unfold settled_at; by rewrite E).
  assert (Er : reactions_at s agg = ks) by (unfold reactions_at; by rewrite E).
  split; [|done]. split.
  - simpl. by rewrite length_insert.
  - intros q w. rewrite settled_at_insert by done.
    destruct (decide (q = agg)) as [->|]; simpl; congruence.
  - intros q Hq. rewrite settled_at_insert, values_at_insert by done.
    destruct (decide (q = agg)) as [->|]; done.
  - exists []. simpl. rewrite app_nil_r. split; [done|]. by intros j Hj%elem_of_nil.
  - intros q k. rewrite reactions_at_insert by done.
    destruct (decide (q = agg)) as [->|]; simpl; left; congruence.
  - intros q k Hk. left. rewrite reactions_at_insert, settled_at_insert by done.
    destruct (decide (q = agg)) as [->|]; simpl; split; congruence.
  - by left.
  - done.
  - done.
  - done.
Qed.

Lemma frame_all_settle A agg s : A agg → frame A s (all_settle agg s).
Proof.
  intros HA. unfold all_settle.
  destruct (promises s !! agg) as [ps|]; [|apply frame_refl].
  destruct (mapM id (values ps)); [by apply frame_resolve|apply frame_refl].
Qed.

(** The tables after one entry of [children] is replaced. *)
Lemma listeners_at_insert s c x c' :
  c < length (children s) →
  listeners_at (set_children (<[c:=x]> (children s)) s) c' =
  if decide (c' = c) then listeners x else listeners_at s c'.
Proof.
  intros Hp. unfold listeners_at. simpl. destruct (decide (c' = c)) as [->|Hn].
  - by rewrite list_lookup_insert_eq.
  - by rewrite list_lookup_insert_ne.
Qed.

Lemma exited_at_insert s c x c' :
  c < length (children s) →
  exited_at (set_children (<[c:=x]> (children s)) s) c' =
  if decide (c' = c) then exited x else exited_at s c'.
Proof.
  intros Hp. unfold exited_at. simpl. destruct (decide (c' = c)) as [->|Hn].
  - by rewrite list_lookup_insert_eq.
  - by rewrite list_lookup_insert_ne.
Qed.

Lemma is_running_insert s c x c' :
  c < length (children s) →
  is_running c' (set_children (<[c:=x]> (children s)) s) ↔
  if decide (c' = c) then exited x = None else is_running c' s.
Proof.
  intros Hp. unfold is_running. simpl. destruct (decide (c' = c)) as [->|Hn].
  - rewrite list_lookup_insert_eq by done. naive_solver.
  - by rewrite list_lookup_insert_ne.
Qed.

Lemma frame0_once_close A c l s :
  A (listener_target l) → frame0 A s (once_close c l s).
Proof.
  intros HA. unfold once_close.
  destruct (children s !! c) as [[sa io ex ls n]|] eqn:E; [|apply frame0_refl].
  assert (Hc : c < length (children s)) by (by eapply lookup_lt_Some).
  assert (El : listeners_at s c = ls) by (unfold listeners_at; by rewrite E).
  assert (Ee : exited_at s c = ex) by (unfold exited_at; by rewrite E).
  split; try done.
  - exists []. simpl. rewrite app_nil_r. split; [done|]. by intros j Hj%elem_of_nil.
  - by left.
  - by left.
  - intros c' l'. rewrite listeners_at_insert by done.
    destruct (decide (c' = c)) as [->|]; [|by left]. simpl.
    intros [Hl|Hl%list_elem_of_singleton]%elem_of_app;
      [left; by rewrite El|right; by subst].
  - intros c' l'. rewrite listeners_at_insert by done.
    destruct (decide (c' = c)) as [->|]; [|done]. simpl. rewrite El.
    intros Hl. apply elem_of_app. by left.
  - intros c'. rewrite exited_at_insert by done.
    destruct (decide (c' = c)) as [->|]; done.
  - simpl. by rewrite length_insert.
Qed.

Lemma registry_ok_once_close c l s :
  registry_ok s → registry_ok (once_close c l s).
Proof.
  intros [Hr Hl]. unfold once_close.
  destruct (children s !! c) as [[sa io ex ls n]|] eqn:E; [|done].
  assert (Hc : c < length (children s)) by (by eapply lookup_lt_Some).
  split.
  - intros c'. rewrite is_running_insert by done. simpl. rewrite Hr.
    destruct (decide (c' = c)) as [->|]; [|done].
    unfold is_running. rewrite E. naive_solver.
  - intros c' ch. simpl. destruct (decide (c' = c)) as [->|Hn].
    + rewrite list_lookup_insert_eq by done. intros [= <-]. simpl. intros ->.
      destruct (Hl c _ E eq_refl) as (p & ls' & Hls). simpl in Hls. subst ls.
      by exists p, (ls' ++ [l]).
    + rewrite list_lookup_insert_ne by done. apply Hl.
Qed.

Lemma frame_once_close A c l s :
  A (listener_target l) → frame A s (once_close c l s).
Proof. split; [by apply frame0_once_close|apply registry_ok_once_close]. Qed.

Lemma frame_child_kill A c s : frame A s (child_kill c s).
Proof.
  unfold child_kill.
  destruct (children s !! c) as [[sa io ex ls n]|] eqn:E; [|apply frame_refl].
  assert (Hc : c < length (children s)) by (by eapply lookup_lt_Some).
  assert (El : listeners_at s c = ls) by (unfold listeners_at; by rewrite E).
  assert (Ee : exited_at s c = ex) by (unfold exited_at; by rewrite E).
  split.
  - split; try done.
    + exists []. simpl. rewrite app_nil_r. split; [done|]. by intros j Hj%elem_of_nil.
    + by left.
    + by left.
    + intros c' l'. rewrite listeners_at_insert by done.
      destruct (decide (c' = c)) as [->|]; simpl; rewrite ?El; by left.
    + intros c' l'. rewrite listeners_at_insert by done.
      destruct (decide (c' = c)) as [->|]; simpl; by rewrite ?El.
    + intros c'. rewrite exited_at_insert by done.
      destruct (decide (c' = c)) as [->|]; done.
    + simpl. by rewrite length_insert.
  - intros [Hr Hl]. split.
    + intros c'. rewrite is_running_insert by done. simpl. rewrite Hr.
      destruct (decide (c' = c)) as [->|]; [|done].
      unfold is_running. rewrite E. naive_solver.
    + intros c' ch. simpl. destruct (decide (c' = c)) as [->|Hn].
      * rewrite list_lookup_insert_eq by done. intros [= <-]. simpl. intros ->.
        apply (Hl c _ E eq_refl).
      * rewrite list_lookup_insert_ne by done. apply Hl.
Qed.

Lemma frame0_spawn_child_process A cm ar o s :
  frame0 A s (spawn_child_process cm ar o s).
Proof.
  set (ch := mk_child (cm :: ar) (stdio o) None [] 0).
  assert (Hlk : ∀ c, c ≠ length (children s) →
    (children s ++ [ch]) !! c = children s !! c).
  { intros c Hc. destruct (decide (c < length (children s))).
    - by rewrite lookup_app_l.
    - rewrite !lookup_ge_None_2; [done|lia|rewrite length_app; simpl; lia]. }
  assert (Hnew : (children s ++ [ch]) !! length (children s) = Some ch).
  { by rewrite list_lookup_middle. }
  assert (Hold : children s !! length (children s) = None).
  { by apply lookup_ge_None_2. }
  split; try done; unfold listeners_at, exited_at, spawn_child_process; simpl;
    fold ch.
  - exists []. rewrite app_nil_r. split; [done|]. by intros j Hj%elem_of_nil.
  - by left.
  - by left.
  - intros c l. destruct (decide (c = length (children s))) as [->|Hn].
    + rewrite Hnew. simpl. by intros Hk%elem_of_nil.
    + rewrite Hlk by done. by left.
  - intros c l. destruct (decide (c = length (children s))) as [->|Hn].
    + rewrite Hold. simpl. by intros Hk%elem_of_nil.
    + by rewrite Hlk by done.
  - intros c. destruct (decide (c = length (children s))) as [->|Hn].
    + by rewrite Hnew, Hold.
    + by rewrite Hlk by done.
  - rewrite length_app. lia.
Qed.

Lemma frame0_register_global_spawn A c s : frame0 A s (register_global_spawn c s).
Proof. unfold register_global_spawn. by destruct (set_has _ _); apply frame0_same. Qed.

Lemma frame0_unregister A c s : frame0 A s (unregister c s).
Proof. unfold unregister. by destruct (negb _); apply frame0_same. Qed.

Lemma elem_of_set_add c c' g : c' ∈ set_add c g ↔ c' = c ∨ c' ∈ g.
Proof.
  unfold set_add, set_has. case_bool_decide.
  - naive_solver.
  - rewrite elem_of_app, list_elem_of_singleton. naive_solver.
Qed.

Lemma elem_of_set_delete c c' g : c' ∈ set_delete c g ↔ c' ≠ c ∧ c' ∈ g.
Proof. unfold set_delete. by rewrite list_elem_of_filter. Qed.

Lemma children_register_global_spawn c s :
  children (register_global_spawn c s) = children s.
Proof. unfold register_global_spawn. by destruct (set_has _ _). Qed.

Lemma global_spawn_register_global_spawn c s :
  global_spawn (register_global_spawn c s) = set_add c (global_spawn s).
Proof. unfold register_global_spawn. by destruct (set_has _ _). Qed.

Lemma global_spawn_once_close c l s :
  global_spawn (once_close c l s) = global_spawn s.
Proof. unfold once_close. by destruct (children s !! c) as [[]|]. Qed.

Lemma children_spawn_process cm ar o s :
  children (spawn_process cm ar o s).1 =
  children s ++ [mk_child (cm :: ar) (stdio (inherit_stdio o)) None
                   [on_close_spawn (length (promises s))] 0].
Proof.
  unfold spawn_process, fresh_child, fresh_promise. cbn [fst].
  unfold once_close.
  rewrite !children_register_global_spawn.
  change (children (spawn_child_process cm ar (inherit_stdio o) (new_promise s)))
    with (children s ++ [mk_child (cm :: ar) (stdio (inherit_stdio o)) None [] 0]).
  change (length (children (new_promise s))) with (length (children s)).
  rewrite list_lookup_middle by done. simpl.
  by rewrite insert_app_r_alt, Nat.sub_diag by done.
Qed.

Lemma global_spawn_spawn_process cm ar o s :
  global_spawn (spawn_process cm ar o s).1 =
  set_add (length (children s)) (global_spawn s).
Proof.
  unfold spawn_process. cbn [fst].
  by rewrite global_spawn_once_close, global_spawn_register_global_spawn.
Qed.

Lemma frame_spawn_process A cm ar o s :
  A (length (promises s)) → frame A s (spawn_process cm ar o s).1.
Proof.
  intros HA. split.
  - unfold spawn_process, fresh_promise, fresh_child, new_promise. simpl.
    eapply frame0_trans; [|apply frame0_once_close; exact HA].
    eapply frame0_trans; [|apply frame0_register_global_spawn].
    eapply frame0_trans; [|apply frame0_spawn_child_process].
    by apply frame_new_promise_with.
  - intros [Hr Hl]. split.
    + intros c. rewrite global_spawn_spawn_process, elem_of_set_add, Hr.
      unfold is_running. rewrite children_spawn_process. split.
      * intros [->|(chx & Hc & Hx)].
        -- eexists. by rewrite list_lookup_middle.
        -- exists chx. split; [|done]. by apply lookup_app_l_Some.
      * intros (chx & Hc & Hx). apply lookup_app_Some in Hc as [Hc|[Hlen Hc]].
        -- right. by exists chx.
        -- left. apply list_lookup_singleton_Some in Hc as [Hc _]. lia.
    + intros c chx. rewrite children_spawn_process. intros Hc Hx.
      apply lookup_app_Some in Hc as [Hc|[Hlen Hc]]; [by eapply Hl|].
      apply list_lookup_singleton_Some in Hc as [_ <-]. by eexists _, _.
Qed.

(** How many promises each function makes. *)
Lemma len_new_promise_with vs s :
  length (promises (new_promise_with vs s)) = S (length (promises s)).
Proof. simpl. rewrite length_app. simpl. lia. Qed.

Lemma len_new_promise s : length (promises (new_promise s)) = S (length (promises s)).
Proof. apply len_new_promise_with. Qed.

Lemma len_enqueue_all js s : length (promises (enqueue_all js s)) = length (promises s).
Proof. done. Qed.

Lemma len_enqueue j s : length (promises (enqueue j s)) = length (promises s).
Proof. done. Qed.

Lemma len_resolve p v s : length (promises (resolve p v s)) = length (promises s).
Proof.
  unfold resolve. destruct (promises s !! p) as [[[u|] ks vs]|]; try done.
  simpl. by rewrite length_insert.
Qed.

Lemma len_perform_then p k s :
  length (promises (perform_then p k s)) = length (promises s).
Proof.
  unfold perform_then. destruct (promises s !! p) as [[[u|] ks vs]|]; try done.
  simpl. by rewrite length_insert.
Qed.

Lemma len_set_element agg i v s :
  length (promises (set_element agg i v s)) = length (promises s).
Proof.
  unfold set_element. destruct (promises s !! agg) as [[u ks vs]|]; try done.
  simpl. by rewrite length_insert.
Qed.

Lemma len_all_settle agg s : length (promises (all_settle agg s)) = length (promises s).
Proof.
  unfold all_settle. destruct (promises s !! agg) as [ps|]; [|done].
  destruct (mapM id (values ps)); [apply len_resolve|done].
Qed.

Lemma len_once_close c l s : length (promises (once_close c l s)) = length (promises s).
Proof. unfold once_close. by destruct (children s !! c) as [[]|]. Qed.

Lemma len_child_kill c s : length (promises (child_kill c s)) = length (promises s).
Proof. unfold child_kill. by destruct (children s !! c) as [[]|]. Qed.

Lemma len_log_entry_to lv lb its s :
  length (promises (log_entry_to lv lb its s)) = length (promises s).
Proof. done. Qed.

Lemma len_set_spawned rp v s : length (promises (set_spawned rp v s)) = length (promises s).
Proof. unfold set_spawned. by destruct (restartables s !! rp) as [[]|]. Qed.

Lemma len_set_restarting rp v s :
  length (promises (set_restarting rp v s)) = length (promises s).
Proof. unfold set_restarting. by destruct (restartables s !! rp) as [[]|]. Qed.

Lemma len_spawn_process cm ar o s :
  length (promises (spawn_process cm ar o s).1) = S (length (promises s)).
Proof.
  unfold spawn_process. cbn [fst]. rewrite len_once_close.
  unfold register_global_spawn. destruct (set_has _ _); apply len_new_promise.
Qed.

Lemma len_despawn c s : length (promises (despawn c s).1) = S (length (promises s)).
Proof.
  unfold despawn. cbn [fst]. rewrite len_child_kill, len_once_close.
  apply len_new_promise.
Qed.

Lemma despawn_each_cons c cs s :
  despawn_each (c :: cs) s =
  ((despawn_each cs (despawn c s).1).1,
   (despawn c s).2 :: (despawn_each cs (despawn c s).1).2).
Proof. cbn [despawn_each]. destruct (despawn c s). by destruct (despawn_each _ _). Qed.

Lemma len_despawn_each cs s :
  length (promises (despawn_each cs s).1) = length (promises s) + length cs.
Proof.
  revert s. induction cs as [|c cs IH]; intros s; [simpl; lia|].
  rewrite despawn_each_cons. cbn [fst length]. rewrite IH, len_despawn. lia.
Qed.

Lemma len_all_then agg i ps s :
  length (promises (all_then agg i ps s)) = length (promises s).
Proof.
  revert i s. induction ps as [|p ps IH]; intros i s; simpl; [done|].
  by rewrite IH, len_perform_then.
Qed.

Lemma len_promise_all ps s :
  length (promises (promise_all ps s).1) = S (length (promises s)).
Proof.
  unfold promise_all. cbn [fst].
  by rewrite len_all_settle, len_all_then, len_new_promise_with.
Qed.

Lemma despawn_all_eq s :
  despawn_all s =
  promise_all (despawn_each (global_spawn s) s).2 (despawn_each (global_spawn s) s).1.
Proof. unfold despawn_all. by destruct (despawn_each _ _). Qed.

Lemma length_despawn_each cs s : length (despawn_each cs s).2 = length cs.
Proof.
  revert s. induction cs as [|c cs IH]; intros s; [done|].
  rewrite despawn_each_cons. cbn [snd length]. by rewrite IH.
Qed.

Lemma len_despawn_all s :
  length (promises (despawn_all s).1) =
  S (length (promises s) + length (global_spawn s)).
Proof. by rewrite despawn_all_eq, len_promise_all, len_despawn_each. Qed.

Lemma len_close rp s : length (promises (close rp s).1) = S (length (promises s)).
Proof.
  unfold close. destruct (get_spawned _ _); cbn [fst].
  - by rewrite len_perform_then, len_set_spawned, len_child_kill,
      len_set_restarting, len_new_promise.
  - by rewrite len_resolve, len_new_promise.
Qed.

#[local] Hint Rewrite len_new_promise_with len_new_promise len_enqueue_all len_enqueue
  len_resolve len_perform_then len_set_element len_all_settle len_once_close
  len_child_kill len_log_entry_to len_set_spawned len_set_restarting
  len_spawn_process len_despawn len_despawn_each len_all_then len_promise_all
  len_despawn_all len_close : len.

(** What a function returns when it returns a promise it has just made. *)
Lemma snd_despawn c s : (despawn c s).2 = length (promises s).
Proof. done. Qed.

Lemma snd_promise_all ps s : (promise_all ps s).2 = length (promises s).
Proof. done. Qed.

Lemma snd_spawn_process cm ar o s :
  (spawn_process cm ar o s).2 = mk_spawned (length (children s)) (length (promises s)).
Proof. done. Qed.

Ltac fresh_side H :=
  try (intros ? [= <-]); apply H; autorewrite with len; simpl; lia.

Lemma frame_log_entry_to A lv lb its s : frame A s (log_entry_to lv lb its s).
Proof. by apply frame_same. Qed.

Lemma frame_set_spawned A rp v s : frame A s (set_spawned rp v s).
Proof. unfold set_spawned. destruct (restartables s !! rp) as [[]|]; by apply frame_same. Qed.

Lemma frame_set_restarting A rp v s : frame A s (set_restarting rp v s).
Proof.
  unfold set_restarting. destruct (restartables s !! rp) as [[]|]; by apply frame_same.
Qed.

Lemma frame_new_promise A s : A (length (promises s)) → frame A s (new_promise s).
Proof. apply frame_new_promise_with. Qed.

Ltac frame_step :=
  lazymatch goal with
  | |- frame _ ?s ?s => apply frame_refl
  | |- frame _ _ (resolve _ _ _) => eapply frame_trans; [|apply frame_resolve]
  | |- frame _ _ (perform_then _ _ _) => eapply frame_trans; [|apply frame_perform_then]
  | |- frame _ _ (enqueue _ _) => eapply frame_trans; [|apply frame_enqueue]
  | |- frame _ _ (set_element _ _ _ _) => eapply frame_trans; [|apply frame_set_element]
  | |- frame _ _ (all_settle _ _) => eapply frame_trans; [|apply frame_all_settle]
  | |- frame _ _ (once_close _ _ _) => eapply frame_trans; [|apply frame_once_close]
  | |- frame _ _ (child_kill _ _) => eapply frame_trans; [|apply frame_child_kill]
  | |- frame _ _ (log_entry_to _ _ _ _) => eapply frame_trans; [|apply frame_log_entry_to]
  | |- frame _ _ (log_debug _ _) => eapply frame_trans; [|apply frame_log_entry_to]
  | |- frame _ _ (log_error _ _) => eapply frame_trans; [|apply frame_log_entry_to]
  | |- frame _ _ (set_spawned _ _ _) => eapply frame_trans; [|apply frame_set_spawned]
  | |- frame _ _ (set_restarting _ _ _) =>
      eapply frame_trans; [|apply frame_set_restarting]
  | |- frame _ _ (new_promise _) => eapply frame_trans; [|apply frame_new_promise]
  | |- frame _ _ (new_promise_with _ _) =>
      eapply frame_trans; [|apply frame_new_promise_with]
  | |- frame _ _ (spawn_process _ _ _ _).1 =>
      eapply frame_trans; [|apply frame_spawn_process]
  end.

Lemma frame_despawn A c s :
  fresh_ok A s (despawn c s).1 → frame A s (despawn c s).1.
Proof.
  intros H. unfold despawn, fresh_promise. cbn [fst].
  repeat frame_step; fresh_side H.
Qed.

Ltac fresh_sub H :=
  let t := fresh "t" in
  intros t ? ?; apply H; autorewrite with len in *; simpl in *; lia.

Lemma frame_despawn_each A cs s :
  fresh_ok A s (despawn_each cs s).1 → frame A s (despawn_each cs s).1.
Proof.
  revert s. induction cs as [|c cs IH]; intros s H; [apply frame_refl|].
  rewrite despawn_each_cons in *. cbn [fst] in *.
  eapply frame_trans; [apply frame_despawn|apply IH]; fresh_sub H.
Qed.

Lemma frame_all_then A agg i ps s :
  A agg → frame A s (all_then agg i ps s).
Proof.
  intros HA. revert i s. induction ps as [|p ps IH]; intros i s; [apply frame_refl|].
  simpl. eapply frame_trans; [|apply IH]. apply frame_perform_then.
  by intros ? [= <-].
Qed.

Lemma frame_promise_all A ps s :
  fresh_ok A s (promise_all ps s).1 → frame A s (promise_all ps s).1.
Proof.
  intros H. unfold promise_all, fresh_promise. cbn [fst].
  assert (A (length (promises s))) by fresh_side H.
  frame_step; [|done].
  eapply frame_trans; [|by apply frame_all_then].
  by apply frame_new_promise_with.
Qed.

Lemma frame_despawn_all A s :
  fresh_ok A s (despawn_all s).1 → frame A s (despawn_all s).1.
Proof.
  intros H. rewrite despawn_all_eq in *.
  eapply frame_trans; [apply frame_despawn_each|apply frame_promise_all];
    fresh_sub H.
Qed.

Lemma handle_fatal_error_eq err lb s :
  handle_fatal_error err lb s =
  let s1 := log_entry_to level_error (default "handle_fatal_error"%string lb)
              [printed_error err] (new_promise s) in
  (perform_then (despawn_all s1).2 (fatal_resume (length (promises s)))
     (despawn_all s1).1, length (promises s)).
Proof. unfold handle_fatal_error. by destruct (despawn_all _). Qed.

Lemma frame_handle_fatal_error A err lb s :
  fresh_ok A s (handle_fatal_error err lb s).1 →
  frame A s (handle_fatal_error err lb s).1.
Proof.
  intros H. rewrite handle_fatal_error_eq in *. cbn [fst] in *.
  frame_step; [|fresh_side H].
  eapply frame_trans; [|apply frame_despawn_all; fresh_sub H].
  repeat frame_step. fresh_side H.
Qed.

Lemma frame_handle_unhandled_rejection A f err s :
  fresh_ok A s (handle_unhandled_rejection f err s).1 →
  frame A s (handle_unhandled_rejection f err s).1.
Proof.
  unfold handle_unhandled_rejection.
  destruct (instanceof_Error err); apply frame_handle_fatal_error.
Qed.

Lemma frame_close A rp s :
  fresh_ok A s (close rp s).1 → frame A s (close rp s).1.
Proof.
  intros H. unfold close, fresh_promise in *.
  destruct (get_spawned rp (new_promise s)) as [sp|]; cbn [fst] in *;
    repeat frame_step; fresh_side H.
Qed.

Lemma len_respawn rp s :
  length (promises (respawn rp s)) =
  length (promises s) + match restartables s !! rp with Some _ => 1 | None => 0 end.
Proof.
  unfold respawn. destruct (restartables s !! rp) as [r|]; [|simpl; lia].
  destruct (spawn_process _ _ _ s) as [s1 sp] eqn:E.
  rewrite len_set_spawned.
  replace s1 with (spawn_process (rp_command r) (rp_args r)
                     (inherit_stdio (rp_options r)) s).1 by (by rewrite E).
  rewrite len_spawn_process. lia.
Qed.

Lemma frame_respawn A rp s :
  fresh_ok A s (respawn rp s) → frame A s (respawn rp s).
Proof.
  intros H. pose proof (len_respawn rp s) as Hl. unfold respawn in *.
  destruct (restartables s !! rp) as [r|]; [|apply frame_refl].
  destruct (spawn_process _ _ _ s) as [s1 sp] eqn:E.
  replace s1 with (spawn_process (rp_command r) (rp_args r)
                     (inherit_stdio (rp_options r)) s).1 by (by rewrite E).
  repeat frame_step. apply H; lia.
Qed.

Lemma frame_restart A rp s :
  fresh_ok A s (restart rp s).1 → frame A s (restart rp s).1.
Proof.
  intros H. unfold restart, fresh_promise in *.
  destruct (get_restarting rp (new_promise s)) as [r|]; cbn [fst] in *.
  { repeat frame_step; fresh_side H. }
  destruct (get_spawned rp (new_promise s)) as [sp|] eqn:Esp.
  - destruct (close rp (new_promise s)) as [s1 pc] eqn:E. cbn [fst] in *.
    replace s1 with (close rp (new_promise s)).1 in * by (by rewrite E).
    frame_step; [|fresh_side H].
    eapply frame_trans; [|apply frame_close; fresh_sub H].
    repeat frame_step. fresh_side H.
  - cbn [fst] in *. pose proof (len_respawn rp (new_promise s)) as Hl.
    unfold fresh_ok in H. rewrite len_resolve, Hl, len_new_promise in H.
    frame_step; [|apply H; lia].
    eapply frame_trans; [|apply frame_respawn].
    + repeat frame_step. apply H; lia.
    + intros t ? ?. apply H; autorewrite with len in *; lia.
Qed.

Lemma frame_kill A rp s :
  fresh_ok A s (kill rp s).1 → frame A s (kill rp s).1.
Proof.
  intros H. unfold kill, fresh_promise in *.
  destruct (get_restarting rp (new_promise s)) as [r|]; cbn [fst] in *.
  { repeat frame_step; fresh_side H. }
  destruct (close rp (new_promise s)) as [s1 pc] eqn:E. cbn [fst] in *.
  replace s1 with (close rp (new_promise s)).1 in * by (by rewrite E).
  frame_step; [|fresh_side H].
  eapply frame_trans; [|apply frame_close; fresh_sub H].
  repeat frame_step. fresh_side H.
Qed.

Lemma frame_len A s s' : frame A s s' → length (promises s) ≤ length (promises s').
Proof. intros [H _]. apply (fr_len _ _ _ H). Qed.

Lemma frame_foldl {X} (f : state → X → state) :
  (∀ A s x, fresh_ok A s (f s x) → frame A s (f s x)) →
  ∀ xs A s, fresh_ok A s (foldl f s xs) → frame A s (foldl f s xs).
Proof.
  intros Hf xs. induction xs as [|x xs IH]; intros A s H; [apply frame_refl|].
  simpl in *.
  assert (length (promises s) ≤ length (promises (f s x))).
  { apply (frame_len (λ _, True)), Hf. by intros t _ _. }
  assert (length (promises (f s x)) ≤ length (promises (foldl f (f s x) xs))).
  { apply (frame_len (λ _, True)), IH. by intros t _ _. }
  eapply frame_trans; [apply Hf|apply IH]; intros t ? ?; apply H; lia.
Qed.

Lemma frame_spawn_restartable_process A cm ar o s :
  fresh_ok A s (spawn_restartable_process cm ar o s).1 →
  frame A s (spawn_restartable_process cm ar o s).1.
Proof.
  intros H. unfold spawn_restartable_process in *. cbn [fst] in *.
  eapply frame_trans; [|apply frame_restart; exact H]. by apply frame_same.
Qed.

Lemma frame_exec_call A c s :
  fresh_ok A s (exec_call c s).1 → frame A s (exec_call c s).1.
Proof.
  revert A s. induction c as [cm ar o|cm ar o|c| |f|cm ar o|rp|rp|k|c IH k];
    intros A s H; cbn [exec_call] in *.
  - destruct (spawn_process cm ar o s) as [s1 sp] eqn:E. cbn [fst] in *.
    replace s1 with (spawn_process cm ar o s).1 in * by (by rewrite E).
    apply frame_spawn_process. fresh_side H.
  - unfold spawn in *.
    destruct (spawn_process cm ar o s) as [s1 sp] eqn:E. cbn [fst] in *.
    replace s1 with (spawn_process cm ar o s).1 in * by (by rewrite E).
    apply frame_spawn_process. fresh_side H.
  - destruct (despawn c s) as [s1 p] eqn:E. cbn [fst] in *.
    replace s1 with (despawn c s).1 in * by (by rewrite E).
    by apply frame_despawn.
  - destruct (despawn_all s) as [s1 p] eqn:E. cbn [fst] in *.
    replace s1 with (despawn_all s).1 in * by (by rewrite E).
    by apply frame_despawn_all.
  - by apply frame_same.
  - by apply frame_spawn_restartable_process.
  - destruct (restart rp s) as [s1 p] eqn:E. cbn [fst] in *.
    replace s1 with (restart rp s).1 in * by (by rewrite E).
    by apply frame_restart.
  - destruct (kill rp s) as [s1 p] eqn:E. cbn [fst] in *.
    replace s1 with (kill rp s).1 in * by (by rewrite E).
    by apply frame_kill.
  - by apply frame_enqueue.
  - destruct (exec_call c s) as [s1 [p|]] eqn:E; cbn [fst] in *;
      replace s1 with (exec_call c s).1 in * by (by rewrite E).
    + frame_step; [|done]. apply IH. intros t ? ?. apply H; autorewrite with len; lia.
    + by apply IH.
Qed.

Lemma frame_exec_calls A k s :
  fresh_ok A s (exec_calls k s) → frame A s (exec_calls k s).
Proof.
  unfold exec_calls. apply (frame_foldl (λ s c, (exec_call c s).1)).
  intros ???. apply frame_exec_call.
Qed.

Lemma frame_run_cont A k v s :
  allowed_cont A k → fresh_ok A s (run_cont k v s) → frame A s (run_cont k v s).
Proof.
  intros Hk H. destruct k as [rp p|rp p|rp p|p|p|p i|p|k]; simpl in *;
    try (assert (A p) by (by apply Hk)).
  - by repeat frame_step.
  - frame_step; [|done]. apply frame_respawn.
    intros t ? ?. apply H; autorewrite with len; lia.
  - destruct (close rp s) as [s1 pc] eqn:E.
    replace s1 with (close rp s).1 in * by (by rewrite E).
    frame_step; [|by intros ? [= <-]]. apply frame_close. fresh_sub H.
  - by repeat frame_step.
  - by repeat frame_step.
  - by repeat frame_step.
  - by repeat frame_step.
  - by apply frame_exec_calls.
Qed.

Lemma frame_run_job A j s :
  allowed_job A j → fresh_ok A s (run_job j s) → frame A s (run_job j s).
Proof.
  intros Hj H. destruct j as [k v|t th|k]; simpl in *.
  - by apply frame_run_cont.
  - repeat frame_step. intros ? [= <-]. by apply Hj.
  - by apply frame_exec_calls.
Qed.

Lemma frame_emit_uncaught_exception A err origin s :
  fresh_ok A s (emit_uncaught_exception err origin s) →
  frame A s (emit_uncaught_exception err origin s).
Proof.
  unfold emit_uncaught_exception.
  apply (frame_foldl (λ s _, (handle_fatal_error err origin s).1)).
  intros ?? _. apply frame_handle_fatal_error.
Qed.

Lemma frame_emit_unhandled_rejection A err s :
  fresh_ok A s (emit_unhandled_rejection err s) →
  frame A s (emit_unhandled_rejection err s).
Proof.
  unfold emit_unhandled_rejection.
  apply (frame_foldl (λ s f, (handle_unhandled_rejection f err s).1)).
  intros ???. apply frame_handle_unhandled_rejection.
Qed.


(** ** The [close] event *)

Lemma frame0_run_listener A c cd sg l s :
  A (listener_target l) → frame0 A s (run_listener c cd sg l s).
Proof.
  intros HA. destruct l as [p|p]; simpl in *.
  - eapply frame0_trans; [apply frame0_unregister|]. by apply frame_resolve.
  - by apply frame_resolve.
Qed.

Lemma frame0_listeners A c cd sg ls s :
  (∀ l, l ∈ ls → A (listener_target l)) →
  frame0 A s (foldl (λ s l, run_listener c cd sg l s) s ls).
Proof.
  revert s. induction ls as [|l ls IH]; intros s H; [apply frame0_refl|].
  simpl. eapply frame0_trans; [apply frame0_run_listener|apply IH].
  - apply H. by left.
  - intros l' Hl'. apply H. by right.
Qed.

Lemma promises_close_child c cd sg s : promises (close_child c cd sg s) = promises s.
Proof. unfold close_child. by destruct (children s !! c) as [[]|]. Qed.

Lemma microtasks_close_child c cd sg s :
  microtasks (close_child c cd sg s) = microtasks s.
Proof. unfold close_child. by destruct (children s !! c) as [[]|]. Qed.

Lemma global_spawn_close_child c cd sg s :
  global_spawn (close_child c cd sg s) = global_spawn s.
Proof. unfold close_child. by destruct (children s !! c) as [[]|]. Qed.

Lemma length_children_close_child c cd sg s :
  length (children (close_child c cd sg s)) = length (children s).
Proof.
  unfold close_child. destruct (children s !! c) as [[]|]; [|done].
  simpl. by rewrite length_insert.
Qed.

Lemma exited_at_close_child c cd sg s c' :
  is_running c s →
  exited_at (close_child c cd sg s) c' =
  if decide (c' = c) then Some (cd, sg) else exited_at s c'.
Proof.
  intros (ch & Hc & Hx). unfold close_child. rewrite Hc. destruct ch.
  rewrite exited_at_insert by (by eapply lookup_lt_Some). by destruct (decide _).
Qed.

Lemma listeners_at_close_child c cd sg s c' :
  listeners_at (close_child c cd sg s) c' =
  if decide (c' = c) then [] else listeners_at s c'.
Proof.
  unfold close_child. destruct (children s !! c) as [[]|] eqn:E.
  - rewrite listeners_at_insert by (by eapply lookup_lt_Some). by destruct (decide _).
  - destruct (decide _) as [->|]; [|done]. unfold listeners_at. by rewrite E.
Qed.

Lemma is_running_close_child c cd sg s c' :
  is_running c' (close_child c cd sg s) ↔ c' ≠ c ∧ is_running c' s.
Proof.
  unfold close_child. destruct (children s !! c) as [[]|] eqn:E.
  - rewrite is_running_insert by (by eapply lookup_lt_Some).
    destruct (decide _); simpl; naive_solver.
  - unfold is_running. naive_solver.
Qed.

Lemma children_run_listener c cd sg l s :
  children (run_listener c cd sg l s) = children s.
Proof.
  assert (Hres : ∀ p v s, children (resolve p v s) = children s).
  { intros p v s0. unfold resolve.
    by destruct (promises s0 !! p) as [[[u|] ks vs]|]. }
  destruct l; simpl; rewrite Hres; [|done].
  unfold unregister. by destruct (negb _).
Qed.

Lemma children_listeners c cd sg ls s :
  children (foldl (λ s l, run_listener c cd sg l s) s ls) = children s.
Proof.
  revert s. induction ls as [|l ls IH]; intros s; [done|].
  simpl. by rewrite IH, children_run_listener.
Qed.

Lemma global_spawn_resolve p v s : global_spawn (resolve p v s) = global_spawn s.
Proof. unfold resolve. by destruct (promises s !! p) as [[[u|] ks vs]|]. Qed.

Lemma global_spawn_unregister c s :
  global_spawn (unregister c s) = set_delete c (global_spawn s).
Proof. unfold unregister. by destruct (negb _). Qed.

Lemma global_spawn_listeners c cd sg ls s c' :
  c' ∈ global_spawn (foldl (λ s l, run_listener c cd sg l s) s ls) ↔
  c' ∈ global_spawn s ∧ (c' = c → ∀ p, on_close_spawn p ∉ ls).
Proof.
  revert s. induction ls as [|l ls IH]; intros s; simpl.
  - split; [|by intros []]. intros H. split; [done|]. intros _ p Hp.
    by apply elem_of_nil in Hp.
  - rewrite IH. destruct l as [p|p]; simpl.
    + rewrite global_spawn_resolve, global_spawn_unregister, elem_of_set_delete.
      split.
      * intros [[Hn Hg] _]. split; [done|]. by intros ->.
      * intros [Hg Hc]. destruct (decide (c' = c)) as [->|Hn].
        -- exfalso. eapply Hc; [done|]. by left.
        -- split; [done|]. by intros ->.
    + rewrite global_spawn_resolve. split.
      * intros [Hg Hc]. split; [done|]. intros -> p' [Heq|Hp']%elem_of_cons;
          [done|]. by eapply Hc.
      * intros [Hg Hc]. split; [done|]. intros -> p' Hp'. eapply Hc; [done|].
        by right.
Qed.

Lemma registry_ok_emit_close c cd sg s :
  registry_ok s → is_running c s → registry_ok (emit_close c cd sg s).
Proof.
  intros [Hr Hl] Hc. unfold emit_close.
  destruct Hc as (ch & Ech & Hx).
  destruct (Hl c ch Ech Hx) as (p & ls & Els).
  assert (El : listeners_at s c = on_close_spawn p :: ls).
  { unfold listeners_at. by rewrite Ech. }
  split.
  - intros c'. rewrite global_spawn_listeners, global_spawn_close_child.
    unfold is_running at 1. rewrite children_listeners.
    fold (is_running c' (close_child c cd sg s)).
    rewrite is_running_close_child, Hr. split.
    + intros [Hrun Hn]. split; [|done]. intros ->. eapply Hn; [done|].
      rewrite El. by left.
    + intros [Hn Hrun]. split; [done|]. by intros ->.
  - intros c' ch'. rewrite children_listeners. intros Hc' Hx'.
    assert (Hrun : is_running c' (close_child c cd sg s)) by (by exists ch').
    apply is_running_close_child in Hrun as [Hn _].
    unfold close_child in Hc'. rewrite Ech in Hc'. destruct ch.
    simpl in Hc'. rewrite list_lookup_insert_ne in Hc' by done. by eapply Hl.
Qed.

(** ** Invariants of every reachable state *)

Lemma bounded_frame0 s s' :
  bounded s → frame0 (λ t, t < length (promises s')) s s' → bounded s'.
Proof.
  intros (Bq & Br & Bl) F. pose proof (fr_len _ _ _ F) as Hlen.
  split; [|split].
  - intros j p Hj Hp. destruct (fr_queue _ _ _ F) as (new & E & Hnew).
    rewrite E in Hj. apply elem_of_app in Hj as [Hj|Hj].
    + specialize (Bq j p Hj Hp). lia.
    + destruct (Hnew j Hj) as [Ha|(q & k & v & -> & Hk & _)]; [by apply Ha|].
      specialize (Br q k p Hk Hp). lia.
  - intros q k p Hk Hp. destruct (fr_reactions _ _ _ F q k Hk) as [Hk'|Ha].
    + specialize (Br q k p Hk' Hp). lia.
    + by apply Ha.
  - intros c l Hl. destruct (fr_listeners _ _ _ F c l Hl) as [Hl'|Ha]; [|done].
    specialize (Bl c l Hl'). lia.
Qed.

Lemma wf_frame s s' :
  wf s → frame (λ t, t < length (promises s')) s s' → wf s'.
Proof. intros [B R] [F FR]. split; [by eapply bounded_frame0|auto]. Qed.

Lemma bounded_pop j q s :
  microtasks s = j :: q → bounded s → bounded (set_microtasks q s).
Proof.
  intros E (Bq & Br & Bl). split; [|done]. intros j' p Hj. apply Bq.
  rewrite E. by right.
Qed.

Lemma bounded_close_child c cd sg s : bounded s → bounded (close_child c cd sg s).
Proof.
  intros (Bq & Br & Bl). unfold bounded.
  rewrite microtasks_close_child, promises_close_child.
  split; [done|]. split.
  - intros q k p. unfold reactions_at. rewrite promises_close_child. apply Br.
  - intros c' l. rewrite listeners_at_close_child.
    destruct (decide _); [by intros ?%elem_of_nil|apply Bl].
Qed.

Lemma wf_step s s' : step s s' → wf s → wf s'.
Proof.
  intros Hstep [B R]. destruct Hstep as [k s|j q s E|c cd sg s E Hc|err o s|err s].
  - apply (wf_frame s); [done|]. apply frame_exec_calls. by intros t _ ?.
  - assert (Hlen : length (promises s) ≤
                   length (promises (run_job j (set_microtasks q s)))).
    { by apply (frame_len (λ _, True) (set_microtasks q s)), frame_run_job. }
    apply (wf_frame (set_microtasks q s)); [split; [by eapply bounded_pop|done]|].
    apply frame_run_job; [|by intros t _ ?].
    intros p Hp. destruct B as (Bq & _). specialize (Bq j p). rewrite E in Bq.
    specialize (Bq ltac:(by left) Hp). simpl in Hlen. lia.
  - split; [|by apply registry_ok_emit_close].
    assert (F : ∀ A, (∀ l, l ∈ listeners_at s c → A (listener_target l)) →
                frame0 A (close_child c cd sg s) (emit_close c cd sg s)).
    { intros A HA. by apply frame0_listeners. }
    apply (bounded_frame0 (close_child c cd sg s)); [by apply bounded_close_child|].
    apply F. intros l Hl. destruct B as (_ & _ & Bl). specialize (Bl c l Hl).
    pose proof (fr_len _ _ _ (F (λ _, True) ltac:(done))) as Hlen.
    rewrite promises_close_child in Hlen. lia.
  - apply (wf_frame s); [done|]. apply frame_emit_uncaught_exception.
    by intros t _ ?.
  - apply (wf_frame s); [done|]. apply frame_emit_unhandled_rejection.
    by intros t _ ?.
Qed.

Lemma wf_initial : wf initial.
Proof.
  split; [split; [|split]|split].
  - by intros j p ?%elem_of_nil.
  - by intros q k p ?%elem_of_nil.
  - by intros c l ?%elem_of_nil.
  - intros c. split; [by intros ?%elem_of_nil|]. by intros (ch & ? & _).
  - by intros c ch ?.
Qed.

Lemma wf_steps s s' : rtc step s s' → wf s → wf s'.
Proof. induction 1; eauto using wf_step. Qed.

Lemma reachable_wf s : reachable s → wf s.
Proof. intros H. by eapply wf_steps, wf_initial. Qed.

(** [bounded] is kept by every step, whatever the registry holds. *)
Lemma bounded_step s s' : step s s' → bounded s → bounded s'.
Proof.
  intros Hstep B. destruct Hstep as [k s|j q s E|c cd sg s E Hc|err o s|err s].
  - apply (bounded_frame0 s); [done|]. apply frame_exec_calls. by intros t _ ?.
  - assert (Hlen : length (promises s) ≤
                   length (promises (run_job j (set_microtasks q s)))).
    { by apply (frame_len (λ _, True) (set_microtasks q s)), frame_run_job. }
    apply (bounded_frame0 (set_microtasks q s)); [by eapply bounded_pop|].
    apply frame_run_job; [|by intros t _ ?].
    intros p Hp. destruct B as (Bq & _). specialize (Bq j p). rewrite E in Bq.
    specialize (Bq ltac:(by left) Hp). simpl in Hlen. lia.
  - assert (F : ∀ A, (∀ l, l ∈ listeners_at s c → A (listener_target l)) →
                frame0 A (close_child c cd sg s) (emit_close c cd sg s)).
    { intros A HA. by apply frame0_listeners. }
    apply (bounded_frame0 (close_child c cd sg s)); [by apply bounded_close_child|].
    apply F. intros l Hl. destruct B as (_ & _ & Bl). specialize (Bl c l Hl).
    pose proof (fr_len _ _ _ (F (λ _, True) ltac:(done))) as Hlen.
    rewrite promises_close_child in Hlen. lia.
  - apply (bounded_frame0 s); [done|]. apply frame_emit_uncaught_exception.
    by intros t _ ?.
  - apply (bounded_frame0 s); [done|]. apply frame_emit_unhandled_rejection.
    by intros t _ ?.
Qed.


(** ** Following one promise *)

Lemma untargeted_frame0 p s s' :
  untargeted p s → frame0 (λ t, t ≠ p) s s' → untargeted p s'.
Proof.
  intros [Uq Ur] F. split.
  - intros j Hj Hp. destruct (fr_queue _ _ _ F) as (new & E & Hnew).
    rewrite E in Hj. apply elem_of_app in Hj as [Hj|Hj]; [by eapply Uq|].
    destruct (Hnew j Hj) as [Ha|(q & k & v & -> & Hk & _)]; [by eapply Ha|].
    by eapply Ur.
  - intros q k Hk Hp. destruct (fr_reactions _ _ _ F q k Hk) as [Hk'|Ha];
      [by eapply Ur|by eapply Ha].
Qed.

Lemma untargeted_pop p j q s :
  microtasks s = j :: q → untargeted p s → untargeted p (set_microtasks q s).
Proof.
  intros E [Uq Ur]. split; [|done]. intros j' Hj. apply Uq. rewrite E. by right.
Qed.

Lemma untargeted_close_child p c cd sg s :
  untargeted p s → untargeted p (close_child c cd sg s).
Proof.
  intros [Uq Ur]. unfold untargeted, reactions_at.
  by rewrite microtasks_close_child, promises_close_child.
Qed.

Lemma untargeted_head p j q s :
  microtasks s = j :: q → untargeted p s → allowed_job (λ t, t ≠ p) j.
Proof. intros E [Uq _] t Ht ->. eapply Uq; [|done]. rewrite E. by left. Qed.

Lemma settled_at_close_child c cd sg s p :
  settled_at (close_child c cd sg s) p = settled_at s p.
Proof. unfold settled_at. by rewrite promises_close_child. Qed.

(** The frame of each kind of step, for a promise the step has no
    resolve function of. *)
Lemma frame0_step_block A k s :
  fresh_ok A s (exec_calls k s) → frame0 A s (exec_calls k s).
Proof. intros H. by apply frame_exec_calls. Qed.

Lemma frame0_step_microtask A j q s :
  allowed_job A j → fresh_ok A s (run_job j (set_microtasks q s)) →
  frame0 A (set_microtasks q s) (run_job j (set_microtasks q s)).
Proof. intros Hj H. by apply frame_run_job. Qed.

Lemma frame0_step_close A c cd sg s :
  (∀ l, l ∈ listeners_at s c → A (listener_target l)) →
  frame0 A (close_child c cd sg s) (emit_close c cd sg s).
Proof. intros H. by apply frame0_listeners. Qed.

Lemma grows_frame0 s s0 s' :
  length (promises s0) = length (promises s) →
  (∀ q, settled_at s0 q = settled_at s q) →
  (∀ c x, exited_at s c = Some x → exited_at s0 c = Some x) →
  length (children s0) = length (children s) →
  frame0 (λ _, True) s0 s' → grows s s'.
Proof.
  intros E1 E2 E3 E4 F. split; [|split; [|split]].
  - rewrite <- E1. apply (fr_len _ _ _ F).
  - intros q v Hq. apply (fr_mono _ _ _ F). by rewrite E2.
  - intros c x Hx. rewrite (fr_exited _ _ _ F). by apply E3.
  - rewrite <- E4. apply (fr_children _ _ _ F).
Qed.

Lemma grows_step s s' : step s s' → grows s s'.
Proof.
  intros Hstep.
  destruct Hstep as [k s|j q s E|c cd sg s E Hc|err o s|err s].
  - by apply (grows_frame0 s s), frame0_step_block.
  - by apply (grows_frame0 s (set_microtasks q s)), frame0_step_microtask.
  - apply (grows_frame0 s (close_child c cd sg s)).
    + by rewrite promises_close_child.
    + intros q. apply settled_at_close_child.
    + intros c' x Hx. rewrite exited_at_close_child by done.
      destruct (decide _) as [->|]; [|done]. destruct Hc as (ch & Hch & Hex).
      unfold exited_at in Hx. rewrite Hch in Hx. simpl in Hx. congruence.
    + apply length_children_close_child.
    + by apply frame0_step_close.
  - by apply (grows_frame0 s s), frame_emit_uncaught_exception.
  - by apply (grows_frame0 s s), frame_emit_unhandled_rejection.
Qed.

Lemma grows_steps s s' : rtc step s s' → grows s s'.
Proof.
  induction 1 as [s|s1 s2 s3 H12 _ IH]; [done|].
  destruct (grows_step _ _ H12) as (L1 & M1 & X1 & C1).
  destruct IH as (L2 & M2 & X2 & C2). repeat split; [lia|auto|auto|lia].
Qed.

Lemma fresh_ok_old p s s' :
  p < length (promises s) → fresh_ok (λ t, t ≠ p) s s'.
Proof. intros Hp t Ht _. lia. Qed.

(** *** A promise nothing can resolve *)

Lemma stranded_frame0 p s s' :
  stranded p s → frame0 (λ t, t ≠ p) s s' → stranded p s'.
Proof.
  intros (Hs & Hp & Hu & Hl) F. split; [|split; [|split]].
  - destruct (fr_self _ _ _ F p) as [E _]; [by intros ?|]. by rewrite E.
  - pose proof (fr_len _ _ _ F). lia.
  - by eapply untargeted_frame0.
  - intros c l Hc Ht. rewrite (fr_exited _ _ _ F).
    destruct (fr_listeners _ _ _ F c l Hc) as [Hc'|Hn]; [by eapply Hl|done].
Qed.

Lemma stranded_step p s s' : step s s' → stranded p s → stranded p s'.
Proof.
  intros Hstep Hst. pose proof Hst as (Hs & Hp & Hu & Hl).
  destruct Hstep as [k s|j q s E|c cd sg s E Hc|err o s|err s].
  - apply (stranded_frame0 p s); [done|].
    by apply frame0_step_block, fresh_ok_old.
  - apply (stranded_frame0 p (set_microtasks q s)).
    + split; [done|]. split; [done|]. split; [by eapply untargeted_pop|done].
    + apply frame0_step_microtask; [by eapply untargeted_head|by apply fresh_ok_old].
  - assert (Hn : ∀ l, l ∈ listeners_at s c → listener_target l ≠ p).
    { intros l Hlc Ht. apply (Hl c l Hlc Ht).
      destruct Hc as (ch & Hch & Hex). unfold exited_at. by rewrite Hch. }
    apply (stranded_frame0 p (close_child c cd sg s)).
    + split; [by rewrite settled_at_close_child|].
      split; [by rewrite promises_close_child|].
      split; [by apply untargeted_close_child|].
      intros c' l. rewrite listeners_at_close_child, exited_at_close_child by done.
      destruct (decide _) as [->|]; [by intros ?%elem_of_nil|apply Hl].
    + by apply frame0_step_close.
  - apply (stranded_frame0 p s); [done|].
    by apply frame_emit_uncaught_exception, fresh_ok_old.
  - apply (stranded_frame0 p s); [done|].
    by apply frame_emit_unhandled_rejection, fresh_ok_old.
Qed.

Lemma stranded_steps p s s' : rtc step s s' → stranded p s → stranded p s'.
Proof. induction 1; eauto using stranded_step. Qed.

(** What [despawn] changes. *)
Lemma promises_once_close c l s : promises (once_close c l s) = promises s.
Proof. unfold once_close. by destruct (children s !! c) as [[]|]. Qed.

Lemma promises_child_kill c s : promises (child_kill c s) = promises s.
Proof. unfold child_kill. by destruct (children s !! c) as [[]|]. Qed.

Lemma microtasks_once_close c l s : microtasks (once_close c l s) = microtasks s.
Proof. unfold once_close. by destruct (children s !! c) as [[]|]. Qed.

Lemma microtasks_child_kill c s : microtasks (child_kill c s) = microtasks s.
Proof. unfold child_kill. by destruct (children s !! c) as [[]|]. Qed.

Lemma global_spawn_child_kill c s : global_spawn (child_kill c s) = global_spawn s.
Proof. unfold child_kill. by destruct (children s !! c) as [[]|]. Qed.

Lemma promises_despawn c s :
  promises (despawn c s).1 = promises s ++ [mk_promise None [] []].
Proof. unfold despawn. cbn [fst]. by rewrite promises_child_kill, promises_once_close. Qed.

Lemma microtasks_despawn c s : microtasks (despawn c s).1 = microtasks s.
Proof.
  unfold despawn. cbn [fst]. by rewrite microtasks_child_kill, microtasks_once_close.
Qed.

Lemma global_spawn_despawn c s : global_spawn (despawn c s).1 = global_spawn s.
Proof.
  unfold despawn. cbn [fst].
  by rewrite global_spawn_child_kill, global_spawn_once_close.
Qed.

Lemma listeners_at_child_kill c s c' :
  listeners_at (child_kill c s) c' = listeners_at s c'.
Proof.
  unfold child_kill. destruct (children s !! c) as [[]|] eqn:E; [|done].
  rewrite listeners_at_insert by (by eapply lookup_lt_Some).
  destruct (decide _) as [->|]; [|done]. unfold listeners_at. by rewrite E.
Qed.

Lemma listeners_at_once_close c l s c' :
  listeners_at (once_close c l s) c' =
  if decide (c' = c ∧ c < length (children s))
  then listeners_at s c ++ [l] else listeners_at s c'.
Proof.
  unfold once_close. destruct (children s !! c) as [[]|] eqn:E.
  - assert (c < length (children s)) by (by eapply lookup_lt_Some).
    rewrite listeners_at_insert by done.
    destruct (decide (c' = c)) as [->|].
    + rewrite decide_True by done. unfold listeners_at. by rewrite E.
    + rewrite decide_False by (by intros []). done.
  - apply lookup_ge_None_1 in E. rewrite decide_False by (intros []; lia). done.
Qed.

Lemma listeners_at_despawn c s c' :
  listeners_at (despawn c s).1 c' =
  if decide (c' = c ∧ c < length (children s))
  then listeners_at s c ++ [on_close_despawn (length (promises s))]
  else listeners_at s c'.
Proof.
  unfold despawn. cbn [fst].
  by rewrite listeners_at_child_kill, listeners_at_once_close.
Qed.

Lemma exited_at_despawn c s c' : exited_at (despawn c s).1 c' = exited_at s c'.
Proof.
  apply (fr_exited (λ _, True)), frame_despawn. by intros t _ _.
Qed.

Lemma lookup_promises_snoc s x q :
  (promises s ++ [x]) !! q =
  if decide (q = length (promises s)) then Some x else promises s !! q.
Proof.
  destruct (decide _) as [->|Hn]; [by rewrite list_lookup_middle|].
  destruct (decide (q < length (promises s))); [by rewrite lookup_app_l|].
  rewrite !lookup_ge_None_2; [done|lia|rewrite length_app; simpl; lia].
Qed.

Lemma stranded_despawn c s :
  bounded s → exited_at s c ≠ None → stranded (despawn c s).2 (despawn c s).1.
Proof.
  intros (Bq & Br & Bl) Hx. rewrite snd_despawn.
  split; [|split; [|split]].
  - unfold settled_at. rewrite promises_despawn, lookup_promises_snoc.
    by rewrite decide_True.
  - rewrite len_despawn. lia.
  - split.
    + intros j Hj Ht. rewrite microtasks_despawn in Hj.
      specialize (Bq j _ Hj Ht). lia.
    + intros q k. unfold reactions_at.
      rewrite promises_despawn, lookup_promises_snoc.
      destruct (decide _); [by intros ?%elem_of_nil|].
      intros Hk Ht. specialize (Br q k _ Hk Ht). lia.
  - intros c' l. rewrite listeners_at_despawn, exited_at_despawn.
    destruct (decide _) as [[-> _]|_].
    + by intros _ _.
    + intros Hl Ht. specialize (Bl c' l Hl). lia.
Qed.

(** *** The promise of a handle *)

Lemma settled_at_resolve p v s q :
  settled_at (resolve p v s) q =
  if decide (q = p ∧ p < length (promises s))
  then Some (default v (settled_at s p)) else settled_at s q.
Proof.
  unfold resolve. destruct (promises s !! p) as [[[u|] ks vs]|] eqn:E.
  - destruct (decide _) as [[-> _]|]; [|done]. unfold settled_at. by rewrite E.
  - assert (p < length (promises s)) by (by eapply lookup_lt_Some).
    rewrite settled_at_enqueue_all, settled_at_insert by done.
    destruct (decide (q = p)) as [->|].
    + rewrite decide_True by done. unfold settled_at. by rewrite E.
    + rewrite decide_False by (by intros []). done.
  - apply lookup_ge_None_1 in E. rewrite decide_False by (intros []; lia). done.
Qed.

Lemma promises_unregister c s : promises (unregister c s) = promises s.
Proof. unfold unregister. by destruct (negb _). Qed.

Lemma settled_at_run_listener c cd sg l s q :
  settled_at (run_listener c cd sg l s) q =
  if decide (q = listener_target l ∧ q < length (promises s))
  then Some (default (V_result (spawn_result c cd sg)) (settled_at s q))
  else settled_at s q.
Proof.
  assert (Hu : ∀ q, settled_at (unregister c s) q = settled_at s q).
  { intros q'. unfold settled_at. by rewrite promises_unregister. }
  destruct l as [p|p]; simpl; rewrite settled_at_resolve,
    ?promises_unregister, ?Hu;
    (destruct (decide (q = p)) as [->|];
     [destruct (decide (p < length (promises s)));
      [by rewrite !decide_True|by rewrite !decide_False by (by intros [])]
     |by rewrite !decide_False by (by intros [])]).
Qed.

Lemma len_run_listener c cd sg l s :
  length (promises (run_listener c cd sg l s)) = length (promises s).
Proof.
  destruct l; simpl; rewrite len_resolve; [|done].
  unfold unregister. by destruct (negb _).
Qed.

(** Every listener of the closing child fulfils its promise with the
    same result, so the promise of any of them ends with that result. *)
Lemma settled_at_listeners c cd sg ls s p :
  p < length (promises s) →
  (∃ l, l ∈ ls ∧ listener_target l = p) →
  settled_at s p = None ∨ settled_at s p = Some (V_result (spawn_result c cd sg)) →
  settled_at (foldl (λ s l, run_listener c cd sg l s) s ls) p =
  Some (V_result (spawn_result c cd sg)).
Proof.
  set (v := V_result (spawn_result c cd sg)).
  assert (Hkeep : ∀ ls s, p < length (promises s) → settled_at s p = Some v →
    settled_at (foldl (λ s l, run_listener c cd sg l s) s ls) p = Some v).
  { intros ls0. induction ls0 as [|l ls0 IH]; intros s0 Hp Hs; [done|].
    simpl. apply IH; [by rewrite len_run_listener|].
    rewrite settled_at_run_listener. destruct (decide _); [|done]. by rewrite Hs. }
  revert s. induction ls as [|l ls IH]; intros s Hp (l0 & Hl0 & Ht) Hs.
  { by apply elem_of_nil in Hl0. }
  simpl. destruct (decide (listener_target l = p)) as [El|Hn].
  - apply Hkeep; [by rewrite len_run_listener|].
    rewrite settled_at_run_listener, decide_True by done.
    by destruct Hs as [->| ->].
  - apply IH; [by rewrite len_run_listener| |].
    + exists l0. split; [|done]. apply elem_of_cons in Hl0 as [->|]; done.
    + rewrite settled_at_run_listener, decide_False; [done|]. by intros [-> _].
Qed.

Lemma settled_at_emit_close c cd sg s l :
  l ∈ listeners_at s c → listener_target l < length (promises s) →
  settled_at s (listener_target l) = None →
  settled_at (emit_close c cd sg s) (listener_target l) =
  Some (V_result (spawn_result c cd sg)).
Proof.
  intros Hl Hp Hs. unfold emit_close. apply settled_at_listeners.
  - by rewrite promises_close_child.
  - by exists l.
  - left. by rewrite settled_at_close_child.
Qed.

Lemma exited_at_emit_close c cd sg s c' :
  is_running c s →
  exited_at (emit_close c cd sg s) c' =
  if decide (c' = c) then Some (cd, sg) else exited_at s c'.
Proof.
  intros Hc. unfold emit_close, exited_at at 1. rewrite children_listeners.
  by apply exited_at_close_child.
Qed.

Lemma closing_frame0 c p s s' :
  exited_at s c = None → closing c p s → frame0 (λ t, t ≠ p) s s' → closing c p s'.
Proof.
  intros Hx (Hc & Hp & H) F. rewrite Hx in H. destruct H as (Hs & Hu & Hl & Ho).
  split; [pose proof (fr_children _ _ _ F); lia|].
  split; [pose proof (fr_len _ _ _ F); lia|].
  rewrite (fr_exited _ _ _ F), Hx. split; [|split; [|split]].
  - destruct (fr_self _ _ _ F p) as [E _]; [by intros ?|]. by rewrite E.
  - by eapply untargeted_frame0.
  - by eapply fr_listeners_fwd.
  - intros c' l Hl' Ht.
    destruct (fr_listeners _ _ _ F c' l Hl') as [Hl''|Hn]; [by eapply Ho|done].
Qed.

Lemma closing_step c p s s' : step s s' → closing c p s → closing c p s'.
Proof.
  intros Hstep Hcl. pose proof Hcl as (Hc & Hp & H).
  destruct (exited_at s c) as [[cd0 sg0]|] eqn:Hx.
  { destruct (grows_step _ _ Hstep) as (L & M & X & C).
    split; [lia|]. split; [lia|]. rewrite (X _ _ Hx). by apply M. }
  destruct H as (Hs & Hu & Hl & Ho).
  destruct Hstep as [k s|j q s E|c' cd sg s E Hc'|err o s|err s].
  - apply (closing_frame0 c p s); [done..|].
    by apply frame0_step_block, fresh_ok_old.
  - apply (closing_frame0 c p (set_microtasks q s)); [done| |].
    + split; [done|]. split; [done|]. change (exited_at (set_microtasks q s) c)
        with (exited_at s c). rewrite Hx.
      split; [done|]. split; [by eapply untargeted_pop|done].
    + apply frame0_step_microtask; [by eapply untargeted_head|by apply fresh_ok_old].
  - destruct (decide (c' = c)) as [->|Hn].
    + split; [|split].
      * unfold emit_close. by rewrite children_listeners, length_children_close_child.
      * pose proof (fr_len _ _ _ (frame0_step_close (λ _, True) c cd sg s
                                   ltac:(done))) as L.
        rewrite promises_close_child in L. lia.
      * rewrite exited_at_emit_close, decide_True by done.
        by apply (settled_at_emit_close c cd sg s (on_close_spawn p)).
    + apply (closing_frame0 c p (close_child c' cd sg s)).
      * by rewrite exited_at_close_child, decide_False.
      * split; [by rewrite length_children_close_child|].
        split; [by rewrite promises_close_child|].
        rewrite exited_at_close_child, decide_False, Hx by done.
        split; [by rewrite settled_at_close_child|].
        split; [by apply untargeted_close_child|].
        rewrite listeners_at_close_child, decide_False by done.
        split; [done|]. intros c'' l. rewrite listeners_at_close_child.
        destruct (decide _); [by intros ?%elem_of_nil|apply Ho].
      * apply frame0_step_close. intros l Hl' Ht. by apply Hn, (Ho c' l).
  - apply (closing_frame0 c p s); [done..|].
    by apply frame_emit_uncaught_exception, fresh_ok_old.
  - apply (closing_frame0 c p s); [done..|].
    by apply frame_emit_unhandled_rejection, fresh_ok_old.
Qed.

Lemma closing_steps c p s s' : rtc step s s' → closing c p s → closing c p s'.
Proof. induction 1; eauto using closing_step. Qed.

Lemma promises_register_global_spawn c s :
  promises (register_global_spawn c s) = promises s.
Proof. unfold register_global_spawn. by destruct (set_has _ _). Qed.

Lemma microtasks_register_global_spawn c s :
  microtasks (register_global_spawn c s) = microtasks s.
Proof. unfold register_global_spawn. by destruct (set_has _ _). Qed.

Lemma promises_spawn_process cm ar o s :
  promises (spawn_process cm ar o s).1 = promises s ++ [mk_promise None [] []].
Proof.
  unfold spawn_process. cbn [fst].
  by rewrite promises_once_close, promises_register_global_spawn.
Qed.

Lemma microtasks_spawn_process cm ar o s :
  microtasks (spawn_process cm ar o s).1 = microtasks s.
Proof.
  unfold spawn_process. cbn [fst].
  by rewrite microtasks_once_close, microtasks_register_global_spawn.
Qed.

Lemma lookup_children_snoc s x c :
  (children s ++ [x]) !! c =
  if decide (c = length (children s)) then Some x else children s !! c.
Proof.
  destruct (decide _) as [->|Hn]; [by rewrite list_lookup_middle|].
  destruct (decide (c < length (children s))); [by rewrite lookup_app_l|].
  rewrite !lookup_ge_None_2; [done|lia|rewrite length_app; simpl; lia].
Qed.

Lemma listeners_at_spawn_process cm ar o s c :
  listeners_at (spawn_process cm ar o s).1 c =
  if decide (c = length (children s))
  then [on_close_spawn (length (promises s))] else listeners_at s c.
Proof.
  unfold listeners_at. rewrite children_spawn_process, lookup_children_snoc.
  by destruct (decide _).
Qed.

Lemma exited_at_spawn_process cm ar o s c :
  exited_at (spawn_process cm ar o s).1 c = exited_at s c.
Proof.
  unfold exited_at. rewrite children_spawn_process, lookup_children_snoc.
  destruct (decide _) as [->|]; [|done].
  by rewrite lookup_ge_None_2.
Qed.

Lemma is_running_exited_at c s :
  is_running c s ↔ c < length (children s) ∧ exited_at s c = None.
Proof.
  unfold is_running, exited_at. split.
  - intros (ch & E & Hx). split; [by eapply lookup_lt_Some|]. by rewrite E.
  - intros [Hc Hx]. destruct (lookup_lt_is_Some_2 _ _ Hc) as [ch E].
    exists ch. split; [done|]. by rewrite E in Hx.
Qed.

Lemma closing_spawn_process cm ar o s :
  bounded s →
  closing (length (children s)) (length (promises s)) (spawn_process cm ar o s).1.
Proof.
  intros (Bq & Br & Bl). split; [|split].
  - rewrite children_spawn_process, length_app. simpl. lia.
  - rewrite len_spawn_process. lia.
  - assert (Hx : exited_at s (length (children s)) = None).
    { unfold exited_at. by rewrite lookup_ge_None_2. }
    rewrite exited_at_spawn_process, Hx. split; [|split; [|split]].
    + unfold settled_at. rewrite promises_spawn_process, lookup_promises_snoc.
      by rewrite decide_True.
    + split.
      * intros j Hj Ht. rewrite microtasks_spawn_process in Hj.
        specialize (Bq j _ Hj Ht). lia.
      * intros q k. unfold reactions_at.
        rewrite promises_spawn_process, lookup_promises_snoc.
        destruct (decide _); [by intros ?%elem_of_nil|].
        intros Hk Ht. specialize (Br q k _ Hk Ht). lia.
    + rewrite listeners_at_spawn_process, decide_True by done. by left.
    + intros c l. rewrite listeners_at_spawn_process.
      destruct (decide _); [done|]. intros Hl Ht. specialize (Bl c l Hl). lia.
Qed.

Lemma wf_spawn_process cm ar o s : wf s → wf (spawn_process cm ar o s).1.
Proof.
  intros H. apply (wf_frame s); [done|]. apply frame_spawn_process.
  rewrite len_spawn_process. lia.
Qed.

Lemma wf_despawn c s : wf s → wf (despawn c s).1.
Proof.
  intros H. apply (wf_frame s); [done|]. apply frame_despawn. by intros t _ ?.
Qed.

(** *** The promise of [handle_fatal_error] *)

Lemma awaiting_all_frame0 self all s s' :
  settled_at s self = None →
  awaiting_all self all s → frame0 (λ t, t ≠ self) s s' → awaiting_all self all s'.
Proof.
  intros Hs (Hlen & [[[v Hv] _]|(_ & Hw & Hq & Hr & Hl)]) F; [congruence|].
  split; [pose proof (fr_len _ _ _ F); lia|]. right.
  destruct (fr_queue _ _ _ F) as (new & E & Hnew).
  split; [|split; [|split; [|split]]].
  - destruct (fr_self _ _ _ F self) as [E' _]; [by intros ?|]. by rewrite E'.
  - destruct Hw as [[Ha Hk]|[v Hj]].
    + destruct (fr_reactions_fwd _ _ _ F all _ Hk) as [[Hk' Ee]|(v & _ & _ & Hj)].
      * left. split; [congruence|done].
      * right. by exists v.
    + right. exists v. rewrite E. apply elem_of_app. by left.
  - intros j Hj Ht. rewrite E in Hj. apply elem_of_app in Hj as [Hj|Hj].
    + destruct (Hq j Hj Ht) as [[w Hw'] Hsh]. split; [|done].
      exists w. by apply (fr_mono _ _ _ F).
    + destruct (Hnew j Hj) as [Ha|(q & k & v & -> & Hk & Hn & Hv)];
        [by destruct (Ha _ Ht)|].
      destruct (Hr q k Hk Ht) as [-> ->]. split; [by exists v|by exists v].
  - intros q k Hk Ht. destruct (fr_reactions _ _ _ F q k Hk) as [Hk'|Ha];
      [by apply Hr|by destruct (Ha _ Ht)].
  - intros c l Hc. destruct (fr_listeners _ _ _ F c l Hc) as [Hc'|Ha];
      [by eapply Hl|done].
Qed.

Lemma settled_at_fatal_resume self v s :
  self < length (promises s) →
  is_Some (settled_at (run_job (reaction_job (fatal_resume self) v) s) self).
Proof. intros H. simpl. rewrite settled_at_resolve, decide_True by done. by eexists. Qed.

Lemma awaiting_all_step self all s s' :
  step s s' → awaiting_all self all s → awaiting_all self all s'.
Proof.
  intros Hstep Haw. pose proof Haw as (Hlen & H).
  destruct (grows_step _ _ Hstep) as (L & M & _ & _).
  destruct H as [[[v Hv] [w Hw]]|(Hs & Hw & Hq & Hr & Hl)].
  { split; [lia|]. left. split; [exists v|exists w]; auto. }
  destruct Hstep as [k s|j q s E|c cd sg s E Hc|err o s|err s].
  - apply (awaiting_all_frame0 self all s); [done..|].
    by apply frame0_step_block, fresh_ok_old.
  - destruct (decide (job_target j = Some self)) as [Ht|Hn].
    + destruct (Hq j) as [[w Hw'] [v ->]]; [rewrite E; by left|done|].
      split; [lia|]. left. split; [by apply settled_at_fatal_resume|].
      exists w. by apply M.
    + apply (awaiting_all_frame0 self all (set_microtasks q s)); [done| |].
      * split; [done|]. right. split; [done|]. split; [|split; [|done]].
        -- destruct Hw as [?|[v Hj]]; [by left|]. right. exists v.
           rewrite E in Hj. apply elem_of_cons in Hj as [<-|Hj]; [|done].
           by destruct Hn.
        -- intros j' Hj'. apply Hq. rewrite E. by right.
      * apply frame0_step_microtask; [|by apply fresh_ok_old].
        intros t Ht ->. by destruct Hn.
  - apply (awaiting_all_frame0 self all (close_child c cd sg s)).
    + by rewrite settled_at_close_child.
    + split; [by rewrite promises_close_child|]. right.
      unfold reactions_at. rewrite !settled_at_close_child,
        microtasks_close_child, promises_close_child.
      split; [done|]. split; [done|]. split; [done|]. split; [done|].
      intros c' l. rewrite listeners_at_close_child.
      destruct (decide _); [by intros ?%elem_of_nil|apply Hl].
    + apply frame0_step_close. intros l Hc'. by eapply Hl.
  - apply (awaiting_all_frame0 self all s); [done..|].
    by apply frame_emit_uncaught_exception, fresh_ok_old.
  - apply (awaiting_all_frame0 self all s); [done..|].
    by apply frame_emit_unhandled_rejection, fresh_ok_old.
Qed.

Lemma awaiting_all_steps self all s s' :
  rtc step s s' → awaiting_all self all s → awaiting_all self all s'.
Proof. induction 1; eauto using awaiting_all_step. Qed.

Lemma perform_then_spec q k s :
  q < length (promises s) →
  (∀ p, settled_at (perform_then q k s) p = settled_at s p) ∧
  (∀ p, values_at (perform_then q k s) p = values_at s p) ∧
  children (perform_then q k s) = children s ∧
  length (promises (perform_then q k s)) = length (promises s) ∧
  match settled_at s q with
  | None =>
      microtasks (perform_then q k s) = microtasks s ∧
      ∀ q', reactions_at (perform_then q k s) q' =
            if decide (q' = q) then reactions_at s q ++ [k] else reactions_at s q'
  | Some v =>
      microtasks (perform_then q k s) = microtasks s ++ [reaction_job k v] ∧
      ∀ q', reactions_at (perform_then q k s) q' = reactions_at s q'
  end.
Proof.
  intros Hq. destruct (lookup_lt_is_Some_2 _ _ Hq) as [[u ks vs] E].
  assert (Es : settled_at s q = u) by (unfold settled_at; by rewrite E).
  assert (Er : reactions_at s q = ks) by (unfold reactions_at; by rewrite E).
  assert (Ev : values_at s q = vs) by (unfold values_at; by rewrite E).
  rewrite Es. unfold perform_then. rewrite E. destruct u as [v|].
  - done.
  - split; [|split; [|split; [done|split; [simpl; by rewrite length_insert|
                                           split; [done|]]]]].
    + intros p. rewrite settled_at_insert by done.
      destruct (decide _) as [->|]; [|done]. by rewrite Es.
    + intros p. rewrite values_at_insert by done.
      destruct (decide _) as [->|]; [|done]. by rewrite Ev.
    + intros q'. rewrite reactions_at_insert by done.
      destruct (decide _); [|done]. by rewrite Er.
Qed.

Lemma snd_despawn_all s :
  (despawn_all s).2 = length (promises s) + length (global_spawn s).
Proof. by rewrite despawn_all_eq, snd_promise_all, len_despawn_each. Qed.

Lemma awaiting_all_handle_fatal_error err lb s :
  bounded s →
  awaiting_all (handle_fatal_error err lb s).2
    (despawn_all (log_entry_to level_error (default "handle_fatal_error"%string lb)
                    [printed_error err] (new_promise s))).2
    (handle_fatal_error err lb s).1 ∧
  settled_at (handle_fatal_error err lb s).1 (handle_fatal_error err lb s).2 = None.
Proof.
  intros (Bq & Br & Bl). rewrite handle_fatal_error_eq. cbn [fst snd].
  set (s0 := log_entry_to _ _ _ _).
  set (self := length (promises s)).
  set (all := (despawn_all s0).2).
  assert (F : frame0 (λ t, t ≠ self) (new_promise s) (despawn_all s0).1).
  { eapply frame0_trans; [unfold s0; apply frame_log_entry_to|].
    apply frame_despawn_all. intros t Ht _. unfold s0 in Ht.
    rewrite len_log_entry_to, len_new_promise in Ht. unfold self. lia. }
  assert (Hs0 : settled_at (new_promise s) self = None).
  { unfold settled_at, new_promise. simpl. rewrite lookup_promises_snoc.
    by rewrite decide_True. }
  assert (Hu0 : untargeted self (new_promise s)).
  { split.
    - intros j Hj Ht. specialize (Bq j _ Hj Ht). unfold self in *. lia.
    - intros q k. unfold reactions_at, new_promise. simpl.
      rewrite lookup_promises_snoc.
      destruct (decide _); [by intros ?%elem_of_nil|].
      intros Hk Ht. specialize (Br q k _ Hk Ht). unfold self in *. lia. }
  assert (Hs1 : settled_at (despawn_all s0).1 self = None).
  { destruct (fr_self _ _ _ F self) as [E _]; [by intros ?|]. by rewrite E. }
  destruct (untargeted_frame0 _ _ _ Hu0 F) as [Uq Ur].
  assert (Hall : all < length (promises (despawn_all s0).1)).
  { unfold all. rewrite snd_despawn_all, len_despawn_all. lia. }
  assert (Hself : self < length (promises (despawn_all s0).1)).
  { pose proof (fr_len _ _ _ F) as L. rewrite len_new_promise in L.
    unfold self. lia. }
  destruct (perform_then_spec all (fatal_resume self) _ Hall)
    as (Pset & _ & Pch & Plen & Pcase).
  split; [|by rewrite Pset].
  split; [by rewrite Plen|]. right. rewrite !Pset.
  split; [done|].
  assert (Hlis : ∀ c l, l ∈ listeners_at (perform_then all (fatal_resume self)
                                            (despawn_all s0).1) c →
                        listener_target l ≠ self).
  { intros c l. unfold listeners_at. rewrite Pch. intros Hl.
    destruct (fr_listeners _ _ _ F c l Hl) as [Hl'|Hn]; [|done].
    specialize (Bl c l Hl'). unfold self. lia. }
  destruct (settled_at (despawn_all s0).1 all) as [v|] eqn:Ea;
    destruct Pcase as [Pq Pr].
  - split; [right; exists v; rewrite Pq; apply elem_of_app; right; by left|].
    split; [|split; [|done]].
    + intros j. rewrite Pq. intros [Hj|Hj%list_elem_of_singleton]%elem_of_app Ht.
      * by destruct (Uq j Hj).
      * subst j. split; [done|by exists v].
    + intros q k. rewrite Pr. intros Hk Ht. by destruct (Ur q k Hk).
  - split; [left; split; [done|]; rewrite Pr, decide_True by done;
            apply elem_of_app; right; by left|].
    split; [|split; [|done]].
    + intros j. rewrite Pq. intros Hj Ht. by destruct (Uq j Hj).
    + intros q k. rewrite Pr. destruct (decide _) as [->|].
      * intros [Hk|Hk%list_elem_of_singleton]%elem_of_app Ht;
          [by destruct (Ur _ k Hk)|done].
      * intros Hk Ht. by destruct (Ur q k Hk).
Qed.

(** *** The promise of [despawn_all] *)

Lemma set_element_spec agg i v s :
  (∀ q, settled_at (set_element agg i v s) q = settled_at s q) ∧
  (∀ q, reactions_at (set_element agg i v s) q = reactions_at s q) ∧
  (∀ q, values_at (set_element agg i v s) q =
        if decide (q = agg) then <[i:=Some v]> (values_at s agg) else values_at s q) ∧
  microtasks (set_element agg i v s) = microtasks s ∧
  children (set_element agg i v s) = children s ∧
  length (promises (set_element agg i v s)) = length (promises s).
Proof.
  unfold set_element. destruct (promises s !! agg) as [[u ks vs]|] eqn:E.
  - assert (Ha : agg < length (promises s)) by (by eapply lookup_lt_Some).
    split; [|split; [|split; [|split; [done|split; [done|]]]]].
    + intros q. rewrite settled_at_insert by done.
      destruct (decide _) as [->|]; [|done]. unfold settled_at. by rewrite E.
    + intros q. rewrite reactions_at_insert by done.
      destruct (decide _) as [->|]; [|done]. unfold reactions_at. by rewrite E.
    + intros q. rewrite values_at_insert by done.
      destruct (decide _) as [->|]; [|done]. unfold values_at. by rewrite E.
    + simpl. by rewrite length_insert.
  - split; [done|]. split; [done|]. split; [|done].
    intros q. destruct (decide _) as [->|]; [|done].
    unfold values_at. by rewrite E.
Qed.

Lemma children_resolve p v s : children (resolve p v s) = children s.
Proof. unfold resolve. by destruct (promises s !! p) as [[[u|] ks vs]|]. Qed.

Lemma all_settle_unfilled agg s :
  mapM id (values_at s agg) = None → agg < length (promises s) →
  all_settle agg s = s.
Proof.
  intros Hm Ha. unfold all_settle, values_at in *.
  destruct (promises s !! agg) as [ps|]; [|done]. simpl in Hm. by rewrite Hm.
Qed.

Lemma all_settle_filled agg s vs :
  mapM id (values_at s agg) = Some vs → agg < length (promises s) →
  all_settle agg s = resolve agg (V_array vs) s.
Proof.
  intros Hm Ha. unfold all_settle, values_at in *.
  destruct (lookup_lt_is_Some_2 _ _ Ha) as [ps E]. rewrite E in *. simpl in Hm.
  by rewrite Hm.
Qed.

Lemma gathered_grows cs agg s s' : grows s s' → gathered cs agg s → gathered cs agg s'.
Proof.
  intros (_ & M & X & _) (vs & Hs & Hf). exists vs. split; [by apply M|].
  eapply Forall2_impl; [exact Hf|]. intros c v (cd & sg & Hx & ->).
  exists cd, sg. split; [by apply X|done].
Qed.

Lemma element_frame0 A agg i c p s s' :
  ¬ A agg → (settled_at s p = None → ¬ A p) →
  element agg i c p s → frame0 A s s' → element agg i c p s'.
Proof.
  intros Hagg Hp [(Hx & Hs & Hne & Hl & Hr & Hv & [Uq Ur] & Ho)|
                    (cd & sg & Hx & Hs & Hlate)] F.
  - specialize (Hp Hs). left.
    destruct (fr_self _ _ _ F p Hp) as [Es _].
    destruct (fr_self _ _ _ F agg Hagg) as [_ Ev].
    rewrite (fr_exited _ _ _ F), Es, Ev.
    split; [done|]. split; [done|]. split; [done|].
    split; [by eapply fr_listeners_fwd|].
    split; [|split; [done|split; [split|]]].
    + destruct (fr_reactions_fwd _ _ _ F p _ Hr) as [[Hk _]|(v & _ & Hv' & _)];
        [done|congruence].
    + intros j Hj Ht. destruct (fr_queue _ _ _ F) as (new & E & Hnew).
      rewrite E in Hj. apply elem_of_app in Hj as [Hj|Hj]; [by eapply Uq|].
      destruct (Hnew j Hj) as [Ha|(q & k & v & -> & Hk & _)];
        [by apply Hp, Ha|by eapply Ur].
    + intros q k Hk Ht. destruct (fr_reactions _ _ _ F q k Hk) as [Hk'|Ha];
        [by eapply Ur|by apply Hp, Ha].
    + intros c' l Hl' Ht.
      destruct (fr_listeners _ _ _ F c' l Hl') as [Hl''|Ha]; [by eapply Ho|].
      rewrite Ht in Ha. by destruct Hp.
  - right. exists cd, sg. rewrite (fr_exited _ _ _ F).
    destruct (fr_self _ _ _ F agg Hagg) as [_ Ev]. rewrite Ev.
    split; [done|]. split; [by apply (fr_mono _ _ _ F)|].
    destruct Hlate as [[Hj Hv]|Hv]; [|by right]. left. split; [|done].
    destruct (fr_queue _ _ _ F) as (new & E & _). rewrite E.
    apply elem_of_app. by left.
Qed.

Lemma gathering_frame0 A cs ps agg s s' :
  length ps = length cs → ¬ A agg →
  collecting cs ps agg s → frame0 A s s' →
  (∀ i c p, cs !! i = Some c → ps !! i = Some p → element agg i c p s') →
  gathering cs ps agg s'.
Proof.
  intros Hlen Hagg (Hs & Hvl & Hm & Hq & Hr & Hl) F He.
  destruct (fr_self _ _ _ F agg Hagg) as [Es Ev]. split; [|done].
  unfold collecting. rewrite Es, Ev.
  split; [done|]. split; [done|]. split; [done|].
  split; [|split].
  - intros j Hj Ht. destruct (fr_queue _ _ _ F) as (new & E & Hnew).
    rewrite E in Hj. apply elem_of_app in Hj as [Hj|Hj].
    + destruct (Hq j Hj Ht) as (i & c & cd & sg & Hc & Hx & ->).
      exists i, c, cd, sg. by rewrite (fr_exited _ _ _ F).
    + destruct (Hnew j Hj) as [Ha|(q & k & v & -> & Hk & Hn & Hv)];
        [by destruct Hagg; apply Ha|].
      destruct (Hr q k Hk Ht) as (i & Hp & ->).
      destruct (lookup_lt_is_Some_2 cs i) as [c Hc].
      { rewrite <- Hlen. by eapply lookup_lt_Some. }
      destruct (He i c q Hc Hp) as [(_ & Hs' & _)|(cd & sg & Hx & Hs' & _)];
        [congruence|].
      exists i, c, cd, sg. split; [done|]. split; [done|]. congruence.
  - intros q k Hk Ht. destruct (fr_reactions _ _ _ F q k Hk) as [Hk'|Ha];
      [by apply Hr|by destruct Hagg; apply Ha].
  - intros c l Hc. destruct (fr_listeners _ _ _ F c l Hc) as [Hc'|Ha];
      [by eapply Hl|]. by intros <-.
Qed.

Lemma element_pop agg i c p j q s :
  microtasks s = j :: q → job_target j ≠ Some agg →
  element agg i c p s → element agg i c p (set_microtasks q s).
Proof.
  intros E Hn [(Hx & Hs & Hne & Hl & Hr & Hv & Hu & Ho)|(cd & sg & Hx & Hs & Hlate)].
  - left. repeat (split; [done|]). split; [by eapply untargeted_pop|done].
  - right. exists cd, sg. split; [done|]. split; [done|].
    destruct Hlate as [[Hj Hv]|Hv]; [|by right]. left. split; [|done].
    rewrite E in Hj. apply elem_of_cons in Hj as [<-|Hj]; [by destruct Hn|done].
Qed.

Lemma collecting_pop cs ps agg j q s :
  microtasks s = j :: q →
  collecting cs ps agg s → collecting cs ps agg (set_microtasks q s).
Proof.
  intros E (Hs & Hvl & Hm & Hq & Hr & Hl).
  split; [done|]. split; [done|]. split; [done|].
  split; [|done]. intros j' Hj'. apply Hq. rewrite E. by right.
Qed.

Lemma element_close_child agg i c p c' cd sg s :
  is_running c' s → c ≠ c' ∨ is_Some (exited_at s c) →
  element agg i c p s → element agg i c p (close_child c' cd sg s).
Proof.
  intros Hrun Hc He.
  assert (Hne : c ≠ c').
  { destruct Hc as [?|[x Hx]]; [done|]. intros ->.
    apply is_running_exited_at in Hrun as [_ ?]. congruence. }
  unfold element, values_at, reactions_at.
  rewrite exited_at_close_child, decide_False, settled_at_close_child,
    promises_close_child, microtasks_close_child, listeners_at_close_child,
    decide_False by done.
  destruct He as [(Hx & Hs & Hnp & Hl & Hr & Hv & Hu & Ho)|He]; [left|by right].
  repeat (split; [done|]). split; [by apply untargeted_close_child|].
  intros c'' l. rewrite listeners_at_close_child.
  destruct (decide _); [by intros ?%elem_of_nil|apply Ho].
Qed.

Lemma collecting_close_child cs ps agg c' cd sg s :
  is_running c' s →
  collecting cs ps agg s → collecting cs ps agg (close_child c' cd sg s).
Proof.
  intros Hrun (Hs & Hvl & Hm & Hq & Hr & Hl).
  unfold collecting, values_at, reactions_at.
  rewrite settled_at_close_child, promises_close_child, microtasks_close_child.
  split; [done|]. split; [done|]. split; [done|].
  split; [|split; [done|]].
  - intros j Hj Ht. destruct (Hq j Hj Ht) as (i & c & cd0 & sg0 & Hc & Hx & ->).
    exists i, c, cd0, sg0. split; [done|]. split; [|done].
    rewrite exited_at_close_child by done.
    destruct (decide _) as [->|]; [|done].
    apply is_running_exited_at in Hrun as [_ ?]. congruence.
  - intros c l. rewrite listeners_at_close_child.
    destruct (decide _); [by intros ?%elem_of_nil|apply Hl].
Qed.

Lemma element_emit_close agg i c p cd sg s :
  is_running c s → p < length (promises s) →
  (∀ l, l ∈ listeners_at s c → listener_target l ≠ agg) →
  element agg i c p s → element agg i c p (emit_close c cd sg s).
Proof.
  intros Hrun Hp Hagg He. pose proof Hrun as [_ Hx0]%is_running_exited_at.
  destruct He as [(Hx & Hs & Hne & Hl & Hr & Hv & Hu & Ho)|(cd0 & sg0 & Hx & _)];
    [|congruence].
  pose proof (frame0_step_close
    (λ t, ∃ l, l ∈ listeners_at s c ∧ listener_target l = t) c cd sg s) as F.
  specialize (F ltac:(by eexists)).
  right. exists cd, sg. rewrite exited_at_emit_close, decide_True by done.
  split; [done|].
  assert (Hs' : settled_at (emit_close c cd sg s) p =
                Some (V_result (spawn_result c cd sg))).
  { by apply (settled_at_emit_close c cd sg s (on_close_despawn p)). }
  split; [done|]. left. split.
  - destruct (fr_reactions_fwd _ _ _ F p (all_resolve_element agg i))
      as [[_ E]|(v & _ & Hv' & Hj)].
    + unfold reactions_at. by rewrite promises_close_child.
    + rewrite settled_at_close_child in E. congruence.
    + congruence.
  - destruct (fr_self _ _ _ F agg) as [_ Ev].
    { intros (l & Hl' & Ht). by eapply Hagg. }
    rewrite Ev. unfold values_at. by rewrite promises_close_child.
Qed.

Lemma gathering_resolve_element cs ps agg j q s :
  agg < length (promises s) → length ps = length cs →
  microtasks s = j :: q → job_target j = Some agg →
  gathering cs ps agg s →
  gathered cs agg (run_job j (set_microtasks q s)) ∨
  gathering cs ps agg (run_job j (set_microtasks q s)).
Proof.
  intros Hagg Hlen E Ht ((Hs & Hvl & Hm & Hq & Hr & Hl) & He).
  destruct (Hq j) as (i & c & cd & sg & Hc & Hx & ->); [rewrite E; by left|done|].
  set (v := V_result (spawn_result c cd sg)).
  simpl.
  destruct (set_element_spec agg i v (set_microtasks q s))
    as (Ss & Sr & Sv & Sq & Sc & Sl).
  set (s2 := set_element agg i v (set_microtasks q s)) in *.
  change (∀ q', settled_at s2 q' = settled_at s q') in Ss.
  change (∀ q', reactions_at s2 q' = reactions_at s q') in Sr.
  change (∀ q', values_at s2 q' = if decide (q' = agg)
            then <[i:=Some v]> (values_at s agg) else values_at s q') in Sv.
  change (microtasks s2 = q) in Sq.
  change (children s2 = children s) in Sc.
  change (length (promises s2) = length (promises s)) in Sl.
  assert (Hv2 : values_at s2 agg = <[i:=Some v]> (values_at s agg)).
  { by rewrite Sv, decide_True. }
  assert (Hag2 : agg < length (promises s2)) by (by rewrite Sl).
  assert (Hslot : ∀ i' c' p', cs !! i' = Some c' → ps !! i' = Some p' →
            values_at s2 agg !! i' = Some None ∨
            ∃ cd' sg', exited_at s c' = Some (cd', sg') ∧
              values_at s2 agg !! i' = Some (Some (V_result (spawn_result c' cd' sg')))).
  { intros i' c' p' Hc' Hp'. rewrite Hv2. destruct (decide (i' = i)) as [->|Hn].
    - right. exists cd, sg. assert (c' = c) as -> by congruence. split; [done|].
      apply list_lookup_insert_eq. rewrite Hvl. by eapply lookup_lt_Some.
    - rewrite list_lookup_insert_ne by done.
      destruct (He i' c' p' Hc' Hp')
        as [(_ & _ & _ & _ & _ & Hv' & _)|(cd' & sg' & Hx' & _ & [[_ Hv']|Hv'])];
        [by left|by left|]. right. by exists cd', sg'. }
  destruct (mapM id (values_at s2 agg)) as [vs|] eqn:Hm2.
  - left. rewrite (all_settle_filled _ _ vs) by done. exists vs. split.
    + rewrite settled_at_resolve, decide_True by done. by rewrite Ss, Hs.
    + apply Forall2_same_length_lookup. split.
      * apply length_mapM in Hm2. rewrite <- Hm2, Hv2, length_insert. congruence.
      * intros i' c' v' Hc' Hv'.
        apply mapM_Some in Hm2.
        destruct (Forall2_lookup_r _ _ _ _ _ Hm2 Hv') as (x & Hx' & Hid).
        simpl in Hid. subst x.
        destruct (lookup_lt_is_Some_2 ps i') as [p' Hp'].
        { rewrite Hlen. by eapply lookup_lt_Some. }
        destruct (Hslot i' c' p' Hc' Hp') as [Hnone|(cd' & sg' & Hx'' & Hsome)];
          [congruence|].
        exists cd', sg'. split; [|congruence].
        unfold exited_at. by rewrite children_resolve, Sc.
  - right. rewrite all_settle_unfilled by done. split.
    { split; [by rewrite Ss|]. split; [by rewrite Hv2, length_insert|].
      split; [done|]. split; [|split].
      + rewrite Sq. intros j' Hj' Ht'.
        destruct (Hq j') as (i' & c' & cd' & sg' & Hc' & Hx' & ->);
          [rewrite E; by right|done|].
        exists i', c', cd', sg'. unfold exited_at. by rewrite Sc.
      + intros q' k. rewrite Sr. apply Hr.
      + intros c' l. unfold listeners_at. rewrite Sc. apply Hl. }
    { intros i' c' p' Hc' Hp'.
      destruct (He i' c' p' Hc' Hp')
        as [(Hx' & Hs' & Hne & Hl' & Hr' & Hv' & [Uq Ur] & Ho)|
            (cd' & sg' & Hx' & Hs' & Hlate)].
      * left. assert (i' ≠ i) by (intros ->; congruence).
        unfold exited_at, listeners_at. rewrite Sc, Ss, Sr, Hv2.
        rewrite list_lookup_insert_ne by done.
        repeat (split; [done|]). split; [|done]. split.
        -- rewrite Sq. intros j' Hj'. apply Uq. rewrite E. by right.
        -- intros q' k. rewrite Sr. apply Ur.
      * right. exists cd', sg'. unfold exited_at. rewrite Sc, Ss.
        split; [done|]. split; [done|].
        destruct (Hslot i' c' p' Hc' Hp') as [Hnone|(cd'' & sg'' & Hx'' & Hsome)].
        -- left. split; [|done]. destruct Hlate as [[Hj _]|Hv'].
           ++ rewrite Sq. rewrite E in Hj.
              apply elem_of_cons in Hj as [Hj|Hj]; [|done].
              injection Hj as -> _. rewrite Hv2 in Hnone.
              rewrite list_lookup_insert_eq in Hnone; [done|].
              rewrite Hvl. by eapply lookup_lt_Some.
           ++ rewrite Hv2 in Hnone. destruct (decide (i' = i)) as [->|Hn].
              ** rewrite list_lookup_insert_eq in Hnone; [done|].
                 rewrite Hvl. by eapply lookup_lt_Some.
              ** rewrite list_lookup_insert_ne in Hnone by done. congruence.
        -- right. assert (cd'' = cd' ∧ sg'' = sg') as [-> ->]
             by (split; congruence). done. }
Qed.

Lemma element_untargeted agg i c p s :
  element agg i c p s → settled_at s p = None →
  untargeted p s ∧ ∀ c' l, l ∈ listeners_at s c' → listener_target l = p → c' = c.
Proof.
  intros [(_ & _ & _ & _ & _ & _ & Hu & Ho)|(cd & sg & _ & Hs & _)] Hn;
    [done|congruence].
Qed.

Lemma all_state_step cs ps agg s s' :
  step s s' → all_state cs ps agg s → all_state cs ps agg s'.
Proof.
  intros Hstep (Hagg & Hlen & Hps & H).
  pose proof (grows_step _ _ Hstep) as G. pose proof G as (L & _).
  split; [lia|]. split; [done|]. split; [intros p Hp; specialize (Hps p Hp); lia|].
  destruct H as [H|[Hc He]]; [left; by eapply gathered_grows|].
  assert (Hold : ∀ i p, ps !! i = Some p → p < length (promises s)).
  { intros i p Hp. by eapply Hps, list_elem_of_lookup_2. }
  assert (Hfr : ∀ s0 (A := λ t, length (promises s) ≤ t),
            collecting cs ps agg s0 →
            (∀ i c p, cs !! i = Some c → ps !! i = Some p → element agg i c p s0) →
            frame0 A s0 s' → gathering cs ps agg s').
  { intros s0 A Hc0 He0 F. apply (gathering_frame0 A _ _ _ s0); try done.
    - unfold A. lia.
    - intros i c p Hci Hpi. apply (element_frame0 A _ _ _ _ s0); auto.
      + unfold A. lia.
      + intros _. specialize (Hold i p Hpi). unfold A. lia. }
  destruct Hstep as [k s|j q s E|c' cd sg s E Hrun|err o s|err s].
  - right. apply (Hfr s); [done..|]. apply frame0_step_block. by intros t ? _.
  - destruct (decide (job_target j = Some agg)) as [Ht|Hn].
    { by apply gathering_resolve_element. }
    right. set (A := λ t, length (promises s) ≤ t ∨ job_target j = Some t).
    assert (F : frame0 A (set_microtasks q s) (run_job j (set_microtasks q s))).
    { apply frame0_step_microtask; [by right|by left]. }
    apply (gathering_frame0 A _ _ _ (set_microtasks q s)); try done.
    + unfold A. intros [?|?]; [lia|done].
    + by eapply collecting_pop.
    + intros i c p Hci Hpi.
      apply (element_frame0 A _ _ _ _ (set_microtasks q s)); try done.
      * unfold A. intros [?|?]; [lia|done].
      * intros Hs [?|Ht]; [specialize (Hold i p Hpi); lia|].
        destruct (element_untargeted _ _ _ _ _ (He i c p Hci Hpi) Hs) as [[Uq _] _].
        eapply Uq; [|done]. rewrite E. by left.
      * eapply element_pop; eauto.
  - right. set (A := λ t, ∃ l, l ∈ listeners_at s c' ∧ listener_target l = t).
    assert (F : frame0 A (close_child c' cd sg s) (emit_close c' cd sg s)).
    { apply frame0_step_close. intros l Hl. by exists l. }
    pose proof Hc as (_ & _ & _ & _ & _ & Hl).
    assert (HA : ¬ A agg) by (intros (l & Hl' & Ht); by eapply Hl).
    apply (gathering_frame0 A _ _ _ (close_child c' cd sg s)); try done.
    + by apply collecting_close_child.
    + intros i c p Hci Hpi. destruct (decide (c = c')) as [->|Hne].
      * apply element_emit_close; eauto.
      * apply (element_frame0 A _ _ _ _ (close_child c' cd sg s)); try done.
        -- rewrite settled_at_close_child. intros Hs (l & Hl' & Ht).
           destruct (element_untargeted _ _ _ _ _ (He i c p Hci Hpi) Hs) as [_ Ho].
           by destruct Hne; symmetry; eapply Ho.
        -- apply element_close_child; auto.
  - right. apply (Hfr s); [done..|]. apply frame_emit_uncaught_exception.
    by intros t ? _.
  - right. apply (Hfr s); [done..|]. apply frame_emit_unhandled_rejection.
    by intros t ? _.
Qed.

Lemma all_state_steps cs ps agg s s' :
  rtc step s s' → all_state cs ps agg s → all_state cs ps agg s'.
Proof. induction 1; eauto using all_state_step. Qed.

(** Once every child has closed and no microtask is left, nothing is
    missing. *)
Lemma all_state_done cs ps agg s :
  all_state cs ps agg s →
  (∀ c, c ∈ cs → is_Some (exited_at s c)) → microtasks s = [] →
  gathered cs agg s.
Proof.
  intros (Hagg & Hlen & Hps & [H|[(Hs & Hvl & Hm & _) He]]) Hx Hq; [done|].
  exfalso. apply mapM_None in Hm. apply Exists_exists in Hm as (x & Hin & Hid).
  simpl in Hid. subst x. apply list_elem_of_lookup_1 in Hin as [i Hi].
  destruct (lookup_lt_is_Some_2 cs i) as [c Hc].
  { rewrite <- Hvl. by eapply lookup_lt_Some. }
  destruct (lookup_lt_is_Some_2 ps i) as [p Hp].
  { rewrite Hlen. by eapply lookup_lt_Some. }
  destruct (He i c p Hc Hp)
    as [(Hx' & _)|(cd & sg & _ & _ & [[Hj _]|Hv])].
  - destruct (Hx c) as [x Hx'']; [by eapply list_elem_of_lookup_2|]. congruence.
  - rewrite Hq in Hj. by apply elem_of_nil in Hj.
  - congruence.
Qed.

(** What [despawn_each] and [all_then] leave behind. *)
Lemma snd_despawn_each cs s :
  (despawn_each cs s).2 = seq (length (promises s)) (length cs).
Proof.
  revert s. induction cs as [|c cs IH]; intros s; [done|].
  rewrite despawn_each_cons. cbn [snd length seq].
  by rewrite IH, len_despawn, snd_despawn.
Qed.

Lemma microtasks_despawn_each cs s : microtasks (despawn_each cs s).1 = microtasks s.
Proof.
  revert s. induction cs as [|c cs IH]; intros s; [done|].
  rewrite despawn_each_cons. cbn [fst]. by rewrite IH, microtasks_despawn.
Qed.

Lemma exited_at_despawn_each cs s c : exited_at (despawn_each cs s).1 c = exited_at s c.
Proof. apply (fr_exited (λ _, True)), frame_despawn_each. by intros t _ _. Qed.

Lemma settled_at_despawn_each cs s p :
  length (promises s) ≤ p → settled_at (despawn_each cs s).1 p = None.
Proof.
  revert s. induction cs as [|c cs IH]; intros s Hp.
  - unfold settled_at. by rewrite lookup_ge_None_2.
  - rewrite despawn_each_cons. cbn [fst].
    destruct (decide (p = length (promises s))) as [->|Hn].
    + assert (F : frame (λ t, t ≠ length (promises s)) (despawn c s).1
                    (despawn_each cs (despawn c s).1).1).
      { apply frame_despawn_each. intros t Ht _. rewrite len_despawn in Ht. lia. }
      destruct (fr_self _ _ _ (proj1 F) (length (promises s))) as [E _];
        [by intros ?|].
      rewrite E. unfold settled_at.
      rewrite promises_despawn, lookup_promises_snoc. by rewrite decide_True.
    + apply IH. rewrite len_despawn. lia.
Qed.

Lemma reactions_at_despawn_each cs s p k :
  k ∈ reactions_at (despawn_each cs s).1 p → k ∈ reactions_at s p.
Proof.
  revert s. induction cs as [|c cs IH]; intros s; [done|].
  rewrite despawn_each_cons. cbn [fst]. intros Hk%IH. revert Hk.
  unfold reactions_at. rewrite promises_despawn, lookup_promises_snoc.
  destruct (decide _); [by intros ?%elem_of_nil|done].
Qed.

Lemma listeners_at_despawn_each cs s c l :
  l ∈ listeners_at (despawn_each cs s).1 c →
  l ∈ listeners_at s c ∨
  ∃ i, cs !! i = Some c ∧ l = on_close_despawn (length (promises s) + i).
Proof.
  revert s. induction cs as [|c0 cs IH]; intros s; [by left|].
  rewrite despawn_each_cons. cbn [fst]. intros [Hl|(i & Hi & ->)]%IH.
  - rewrite listeners_at_despawn in Hl. destruct (decide _) as [[-> _]|_];
      [|by left].
    apply elem_of_app in Hl as [Hl|Hl%list_elem_of_singleton]; [by left|].
    subst l. right. exists 0. by rewrite Nat.add_0_r.
  - right. exists (S i). split; [done|]. rewrite len_despawn. f_equal. lia.
Qed.

Lemma listeners_at_despawn_each_fwd cs s i c :
  cs !! i = Some c → c < length (children s) →
  on_close_despawn (length (promises s) + i) ∈ listeners_at (despawn_each cs s).1 c.
Proof.
  revert s i. induction cs as [|c0 cs IH]; intros s i Hi Hc; [done|].
  rewrite despawn_each_cons. cbn [fst]. destruct i as [|i]; simpl in Hi.
  - injection Hi as ->.
    apply (fr_listeners_fwd (λ _, True) (despawn c s).1);
      [by apply frame_despawn_each|].
    rewrite listeners_at_despawn, decide_True, Nat.add_0_r by done.
    apply elem_of_app. right. by left.
  - replace (length (promises s) + S i)
      with (length (promises (despawn c0 s).1) + i) by (rewrite len_despawn; lia).
    apply IH; [done|].
    assert (F : frame (λ _, True) s (despawn c0 s).1)
      by (by apply frame_despawn).
    pose proof (fr_children _ _ _ (proj1 F)). lia.
Qed.

Lemma all_then_spec agg ps k0 s :
  (∀ p, p ∈ ps → settled_at s p = None ∧ p < length (promises s)) →
  (∀ q, settled_at (all_then agg k0 ps s) q = settled_at s q) ∧
  (∀ q, values_at (all_then agg k0 ps s) q = values_at s q) ∧
  children (all_then agg k0 ps s) = children s ∧
  microtasks (all_then agg k0 ps s) = microtasks s ∧
  (∀ i p, ps !! i = Some p →
     all_resolve_element agg (k0 + i) ∈ reactions_at (all_then agg k0 ps s) p) ∧
  (∀ q k, k ∈ reactions_at (all_then agg k0 ps s) q →
     k ∈ reactions_at s q ∨ ∃ i, ps !! i = Some q ∧ k = all_resolve_element agg (k0 + i)).
Proof.
  revert k0 s. induction ps as [|p ps IH]; intros k0 s Hps.
  { repeat split; try done. by left. }
  cbn [all_then]. destruct (Hps p) as [Hs Hp]; [by left|].
  destruct (perform_then_spec p (all_resolve_element agg k0) s Hp)
    as (Pset & Pval & Pch & Plen & Pcase).
  rewrite Hs in Pcase. destruct Pcase as [Pq Pr].
  set (s1 := perform_then p (all_resolve_element agg k0) s) in *.
  destruct (IH (S k0) s1) as (Is & Iv & Ic & Iq & If & Ib).
  { intros p' Hp'. rewrite Pset, Plen. apply Hps. by right. }
  split; [intros q; by rewrite Is|]. split; [intros q; by rewrite Iv|].
  split; [congruence|]. split; [congruence|]. split.
  - intros [|i] p' Hi; simpl in Hi.
    + injection Hi as <-. rewrite Nat.add_0_r.
      assert (Hk : all_resolve_element agg k0 ∈ reactions_at s1 p).
      { rewrite Pr, decide_True by done. apply elem_of_app. right. by left. }
      assert (F : frame (λ _, True) s1 (all_then agg (S k0) ps s1))
        by (by apply frame_all_then).
      destruct (fr_reactions_fwd _ _ _ (proj1 F) p _ Hk)
        as [[Hk' _]|(v & _ & Hv & _)]; [done|].
      rewrite Is, Pset in Hv. congruence.
    + replace (k0 + S i) with (S k0 + i) by lia. by apply If.
  - intros q k [Hk|(i & Hi & ->)]%Ib.
    + rewrite Pr in Hk. destruct (decide _) as [->|]; [|by left].
      apply elem_of_app in Hk as [Hk|Hk%list_elem_of_singleton]; [by left|].
      right. exists 0. by rewrite Nat.add_0_r.
    + right. exists (S i). split; [done|]. f_equal. lia.
Qed.

Lemma mapM_replicate_None {X} n : 0 < n → mapM id (replicate n (@None X)) = None.
Proof. destruct n; [lia|done]. Qed.

Lemma all_state_despawn_all s :
  wf s →
  all_state (global_spawn s) (despawn_each (global_spawn s) s).2
    (despawn_all s).2 (despawn_all s).1.
Proof.
  intros [(Bq & Br & Bl) [Hreg _]].
  set (cs := global_spawn s). set (n0 := length (promises s)).
  set (sd := (despawn_each cs s).1). set (ps := (despawn_each cs s).2).
  assert (Eps : ps = seq n0 (length cs)) by apply snd_despawn_each.
  assert (Lsd : length (promises sd) = n0 + length cs) by apply len_despawn_each.
  rewrite despawn_all_eq. fold cs sd ps. unfold promise_all, fresh_promise.
  cbn [fst snd]. rewrite Lsd. set (agg := n0 + length cs).
  set (sa := new_promise_with (replicate (length ps) None) sd).
  assert (Lps : length ps = length cs) by apply length_despawn_each.
  assert (Sa : ∀ q, settled_at sa q = settled_at sd q).
  { intros q. unfold settled_at, sa. simpl. rewrite lookup_promises_snoc.
    destruct (decide _) as [->|]; [|done]. by rewrite lookup_ge_None_2. }
  assert (Ra : ∀ q, reactions_at sa q = reactions_at sd q).
  { intros q. unfold reactions_at, sa. simpl. rewrite lookup_promises_snoc.
    destruct (decide _) as [->|]; [|done]. by rewrite lookup_ge_None_2. }
  assert (Va : values_at sa agg = replicate (length cs) None).
  { unfold values_at, sa. simpl. rewrite lookup_promises_snoc, Lsd.
    rewrite decide_True by done. simpl. by rewrite Lps. }
  assert (La : length (promises sa) = S agg).
  { unfold sa. rewrite len_new_promise_with. unfold agg. lia. }
  assert (Hin : ∀ i p, ps !! i = Some p → p = n0 + i ∧ i < length cs).
  { intros i p. rewrite Eps. by intros ?%lookup_seq. }
  destruct (all_then_spec agg ps 0 sa) as (Ts & Tv & Tc & Tq & Tf & Tb).
  { intros p [i Hp]%list_elem_of_lookup_1. destruct (Hin i p Hp) as [-> Hi].
    rewrite Sa, La. split; [|unfold agg; lia].
    apply settled_at_despawn_each. unfold n0. lia. }
  set (st := all_then agg 0 ps sa) in *.
  assert (Lt : length (promises st) = S agg).
  { unfold st. by rewrite len_all_then. }
  assert (Vt : values_at st agg = replicate (length cs) None) by (by rewrite Tv).
  assert (St : settled_at st agg = None).
  { rewrite Ts, Sa. apply settled_at_despawn_each. unfold agg, n0. lia. }
  split; [rewrite len_all_settle; lia|]. split; [done|]. split.
  { intros p [i Hp]%list_elem_of_lookup_1. destruct (Hin i p Hp) as [-> Hi].
    rewrite len_all_settle, Lt. unfold agg. lia. }
  destruct (decide (length cs = 0)) as [Hz|Hnz].
  - left. exists []. rewrite (all_settle_filled _ _ []); [|by rewrite Vt, Hz|lia].
    split; [rewrite settled_at_resolve, decide_True, St by (split; [done|lia]);
            done|].
    destruct cs; [constructor|done].
  - right. rewrite all_settle_unfilled;
      [|rewrite Vt; apply mapM_replicate_None; lia|lia].
    assert (Hq : microtasks st = microtasks s).
    { rewrite Tq. unfold sa, sd. simpl. apply microtasks_despawn_each. }
    assert (Hr : ∀ q k, k ∈ reactions_at st q →
              k ∈ reactions_at s q ∨ ∃ i, ps !! i = Some q ∧ k = all_resolve_element agg i).
    { intros q k [Hk|Hk]%Tb; [left|by right].
      rewrite Ra in Hk. by eapply reactions_at_despawn_each. }
    assert (Hl : ∀ c l, l ∈ listeners_at st c →
              l ∈ listeners_at s c ∨
              ∃ i, cs !! i = Some c ∧ l = on_close_despawn (n0 + i)).
    { intros c l. unfold listeners_at. rewrite Tc.
      apply listeners_at_despawn_each. }
    assert (Hx : ∀ c, exited_at st c = exited_at s c).
    { intros c. unfold exited_at. rewrite Tc. apply exited_at_despawn_each. }
    split; [split; [done|split; [by rewrite Vt, length_replicate|
             split; [rewrite Vt; apply mapM_replicate_None; lia|
             split; [|split]]]]|].
    + rewrite Hq. intros j Hj Ht. specialize (Bq j _ Hj Ht). unfold agg, n0 in *. lia.
    + intros q k [Hk|Hk]%Hr Ht; [|done].
      specialize (Br q k _ Hk Ht). unfold agg, n0 in *. lia.
    + intros c l [Hl'|(i & Hi & ->)]%Hl.
      * specialize (Bl c l Hl'). unfold agg, n0 in *. lia.
      * simpl. apply lookup_lt_Some in Hi. unfold agg. lia.
    + intros i c p Hc Hp. destruct (Hin i p Hp) as [-> Hi]. left.
      assert (Hrun : is_running c s).
      { apply Hreg. by eapply list_elem_of_lookup_2. }
      apply is_running_exited_at in Hrun as [Hcl Hcx].
      rewrite Hx. split; [done|].
      split; [rewrite Ts, Sa; apply settled_at_despawn_each; unfold n0; lia|].
      split; [unfold agg; lia|].
      split; [unfold listeners_at; rewrite Tc;
              by apply listeners_at_despawn_each_fwd|].
      split; [by apply (Tf i)|].
      split; [rewrite Vt; by apply lookup_replicate_2|].
      split; [split|].
      * rewrite Hq. intros j Hj Ht. specialize (Bq j _ Hj Ht). unfold n0 in *. lia.
      * intros q k [Hk|(i' & _ & ->)]%Hr Ht.
        -- specialize (Br q k _ Hk Ht). unfold n0 in *. lia.
        -- simpl in Ht. injection Ht as Ht. unfold agg in Ht. lia.
      * intros c' l [Hl'|(i' & Hi' & ->)]%Hl Ht.
        -- specialize (Bl c' l Hl'). unfold n0 in *. lia.
        -- simpl in Ht. assert (i' = i) as -> by lia. congruence.
Qed.


(** ** What the functions write to the log *)

Lemma log_resolve p v s : log (resolve p v s) = log s.
Proof. unfold resolve. by destruct (promises s !! p) as [[[u|] ks vs]|]. Qed.

Lemma log_perform_then p k s : log (perform_then p k s) = log s.
Proof. unfold perform_then. by destruct (promises s !! p) as [[[u|] ks vs]|]. Qed.

Lemma log_once_close c l s : log (once_close c l s) = log s.
Proof. unfold once_close. by destruct (children s !! c) as [[]|]. Qed.

Lemma log_child_kill c s : log (child_kill c s) = log s.
Proof. unfold child_kill. by destruct (children s !! c) as [[]|]. Qed.

Lemma log_despawn c s : log (despawn c s).1 = log s ++ [despawning c].
Proof. unfold despawn. cbn [fst]. by rewrite log_child_kill, log_once_close. Qed.

Lemma log_despawn_each cs s :
  log (despawn_each cs s).1 = log s ++ (despawning <$> cs).
Proof.
  revert s. induction cs as [|c cs IH]; intros s; [by rewrite app_nil_r|].
  rewrite despawn_each_cons. cbn [fst]. rewrite IH, log_despawn.
  by rewrite <- app_assoc.
Qed.

Lemma log_all_then agg i ps s : log (all_then agg i ps s) = log s.
Proof.
  revert i s. induction ps as [|p ps IH]; intros i s; [done|].
  simpl. by rewrite IH, log_perform_then.
Qed.

Lemma log_promise_all ps s : log (promise_all ps s).1 = log s.
Proof.
  unfold promise_all, all_settle. cbn [fst].
  destruct (promises _ !! _) as [x|]; [destruct (mapM id (values x))|];
    by rewrite ?log_resolve, log_all_then.
Qed.

Lemma log_despawn_all s :
  log (despawn_all s).1 = log s ++ (despawning <$> global_spawn s).
Proof. by rewrite despawn_all_eq, log_promise_all, log_despawn_each. Qed.

Lemma log_handle_fatal_error err lb s :
  log (handle_fatal_error err lb s).1 =
  log s ++ mk_log level_error (default "handle_fatal_error"%string lb)
             [printed_error err] :: (despawning <$> global_spawn s).
Proof.
  rewrite handle_fatal_error_eq. cbn [fst].
  rewrite log_perform_then, log_despawn_all. simpl. by rewrite <- app_assoc.
Qed.

(** ** Runs of the event loop *)

Lemma steps_turn s : rtc step s (turn s).
Proof.
  unfold turn. destruct (microtasks s) as [|j q] eqn:E; [done|].
  apply rtc_once. by constructor.
Qed.

Lemma steps_turns n s : rtc step s (Nat.iter n turn s).
Proof.
  induction n as [|n IH]; [done|]. simpl.
  eapply rtc_trans; [exact IH|apply steps_turn].
Qed.

Lemma reachable_block k s : reachable s → reachable (exec_calls k s).
Proof. intros H. eapply rtc_r; [exact H|]. constructor. Qed.

Lemma reachable_close c cd sg s :
  reachable s → microtasks s = [] → is_running c s →
  reachable (emit_close c cd sg s).
Proof. intros H ??. eapply rtc_r; [exact H|]. by constructor. Qed.

Lemma reachable_turns n s : reachable s → reachable (Nat.iter n turn s).
Proof. intros H. eapply rtc_trans; [exact H|apply steps_turns]. Qed.

(** The runs of a program that leaves the registry alone are runs of
    the open kind. *)
Lemma reachable_open_run s : reachable s → open_run [] s.
Proof.
  unfold reachable. intros H.
  apply (rtc_ind_r (R := step) (open_run []) initial); [constructor| |exact H].
  intros s0 s1 _ Hstep H0. by eapply open_step.
Qed.

Lemma reachable_open s : reachable s → open_reachable s.
Proof. intros H. exists []. by apply reachable_open_run. Qed.

(** A call on the registry changes the registry and the log only. *)
Lemma exec_registry_call_tables r s :
  children (exec_registry_call r s) = children s ∧
  promises (exec_registry_call r s) = promises s ∧
  microtasks (exec_registry_call r s) = microtasks s ∧
  restartables (exec_registry_call r s) = restartables s ∧
  handlers (exec_registry_call r s) = handlers s.
Proof.
  destruct r; simpl; unfold register_global_spawn, unregister;
    by repeat destruct (set_has _ _).
Qed.

(** ** The outcome of a spawned process *)

(** C1, as the code has it: the promise of a [close] listener, of
    [spawn_process] or of [despawn], is fulfilled with a result that
    carries the child, the exit code and the signal, and that is a
    success exactly when the exit code is [null] or zero, whatever the
    signal, and a failure exactly when the exit code is a number other
    than zero. *)
Theorem outcome_follows_exit_code c cd sg l s :
  settled_at s (listener_target l) = None →
  listener_target l < length (promises s) →
  ∃ r, settled_at (run_listener c cd sg l s) (listener_target l) = Some (V_result r) ∧
       child r = c ∧ code r = cd ∧ signal r = sg ∧
       (ok r = true ↔ cd = None ∨ cd = Some 0%Z) ∧
       (ok r = false ↔ ∃ n, cd = Some n ∧ n ≠ 0%Z).
Proof.
  intros Hs Hp. exists (spawn_result c cd sg).
  split; [by rewrite settled_at_run_listener, decide_True, Hs|].
  unfold spawn_result, truthy. destruct cd as [n|]; simpl.
  - destruct (Z.eqb_spec n 0) as [->|Hn]; simpl; repeat split; try done.
    + by right.
    + by intros (m & [= <-] & ?).
    + intros [?|[= ?]]; done.
    + intros _. by exists n.
  - repeat split; try done; [by left|by intros (m & ? & _)].
Qed.

Lemma outcome_follows_exit_code_witness :
  ∃ r, settled_at (run_listener 0 (Some 1%Z) None (on_close_spawn 0) one_spawned) 0
       = Some (V_result r) ∧
       child r = 0 ∧ code r = Some 1%Z ∧ signal r = None ∧
       (ok r = true ↔ Some 1%Z = None ∨ Some 1%Z = Some 0%Z) ∧
       (ok r = false ↔ ∃ n, Some 1%Z = Some n ∧ n ≠ 0%Z).
Proof.
  apply (outcome_follows_exit_code 0 (Some 1%Z) None (on_close_spawn 0) one_spawned).
  - reflexivity.
  - vm_compute. lia.
Defined.

(** C1 as the specification states it fails: a child killed by a signal,
    with a [null] exit code, closes as a success, for the promise of
    [spawn_process] and for the promise of [despawn] alike. *)
Lemma signaled_close_is_a_success :
  let s := emit_close 0 None (Some "SIGTERM"%string) (despawn 0 one_spawned).1 in
  settled_at s 0 = Some (V_result (mk_result true 0 None (Some "SIGTERM"%string))) ∧
  settled_at s 1 = Some (V_result (mk_result true 0 None (Some "SIGTERM"%string))).
Proof. split; reflexivity. Qed.

(** ** The registry *)





(** C8: [despawn] leaves the registry, and the state of every child as
    running or closed, as they were; a registered handle that is
    despawned stays in the registry, in every later state of every run,
    until its [close] event has been emitted, and is out of it from then
    on: it is the listener of [spawn_process] that takes it out. *)
Theorem despawn_leaves_registry c s s' :
  global_spawn (despawn c s).1 = global_spawn s ∧
  (∀ c', exited_at (despawn c s).1 c' = exited_at s c') ∧
  (reachable s → c ∈ global_spawn s → rtc step (despawn c s).1 s' →
   (c ∈ global_spawn s' ↔ exited_at s' c = None)).
Proof.
  split; [apply global_spawn_despawn|]. split; [intros c'; apply exited_at_despawn|].
  intros Hwf%reachable_wf Hc Hsteps.
  pose proof (wf_steps _ _ Hsteps (wf_despawn c s Hwf)) as [_ [Hr _]].
  destruct Hwf as [_ [Hr0 _]]. apply Hr0, is_running_exited_at in Hc as [Hlt _].
  assert (Hd : frame0 (λ _, True) s (despawn c s).1).
  { apply frame_despawn. by intros t _ _. }
  pose proof (fr_children _ _ _ Hd).
  destruct (grows_steps _ _ Hsteps) as (_ & _ & _ & ?).
  rewrite Hr, is_running_exited_at. split; [by intros [_ ?]|]. intros ?. split; [lia|done].
Qed.

Lemma despawn_leaves_registry_witness :
  let s1 := (despawn 0 one_spawned).1 in
  let s2 := emit_close 0 None (Some "SIGTERM"%string) s1 in
  (0 ∈ global_spawn s1 ∧ exited_at s1 0 = None) ∧
  ((0 ∉ global_spawn s2) ∧ exited_at s2 0 = Some (None, Some "SIGTERM"%string)) ∧
  (0 ∈ global_spawn s2 ↔ exited_at s2 0 = None).
Proof.
  split; [split; [by left|reflexivity]|].
  split; [split; [by intros ?%elem_of_nil|reflexivity]|].
  apply (despawn_leaves_registry 0 one_spawned).
  - apply (reachable_block [call_spawn_process "sleep" ["9"%string] (mk_options None)]).
    apply rtc_refl.
  - by left.
  - apply rtc_once, step_close; [reflexivity|].
    eexists. split; reflexivity.
Defined.

(** C5, for a program that leaves the registry to the module: in
    every state reached by calls of [spawn_process], [spawn],
    [despawn], [despawn_all], the fatal-error handlers and the
    restartable processes, by microtasks, by [close] events and by
    faults, the registry holds the children that were spawned (by
    [spawn_process], which alone adds to [children]) and whose [close]
    event has not been emitted. *)
Theorem registry_holds_running_children s c :
  reachable s →
  (c ∈ global_spawn s ↔ c < length (children s) ∧ exited_at s c = None).
Proof.
  intros [_ [Hr _]]%reachable_wf. by rewrite Hr, is_running_exited_at.
Qed.

Lemma reachable_one_spawned : reachable one_spawned.
Proof.
  apply (reachable_block [call_spawn_process "sleep" ["9"%string] (mk_options None)]).
  apply rtc_refl.
Qed.

Lemma registry_holds_running_children_witness :
  0 ∈ global_spawn one_spawned ↔
  0 < length (children one_spawned) ∧ exited_at one_spawned 0 = None.
Proof.
  apply (registry_holds_running_children one_spawned 0), reachable_one_spawned.
Defined.

(** C5 as the specification states it fails, in both directions: the
    registry is exported with [register_global_spawn].  A program that
    registers a running child again and calls the function it got takes
    the child out of the registry while it runs; one that registers a
    child after its [close] event puts it in for good. *)
Lemma registry_is_written_from_outside :
  let s1 := exec_registry_call (call_unregister 0)
              (exec_registry_call (call_register_global_spawn 0) one_spawned) in
  let s2 := exec_registry_call (call_register_global_spawn 0) one_closed in
  (open_reachable s1 ∧ 0 < length (children s1) ∧ exited_at s1 0 = None ∧
   global_spawn s1 = []) ∧
  (open_reachable s2 ∧ exited_at s2 0 = Some (Some 0%Z, None) ∧
   global_spawn s2 = [0]).
Proof.
  split.
  - split; [|by vm_compute]. exists [0].
    apply (open_registry [0] (call_unregister 0)); [|by left].
    apply (open_registry [] (call_register_global_spawn 0)); [|by vm_compute].
    apply reachable_open_run, reachable_one_spawned.
  - split; [|by vm_compute]. exists [0].
    apply (open_registry [] (call_register_global_spawn 0)); [|by vm_compute].
    apply reachable_open_run, reachable_close;
      [apply reachable_one_spawned|reflexivity|].
    eexists. split; reflexivity.
Qed.

(** ** The promise of a handle *)

(** C4: for the handle [spawn_process] returns, at every later state of
    every run: the promise [closed] is pending exactly while the child
    runs; once it is fulfilled the child is out of the registry and the
    value is the result of its [close] event; with exit code 0 the
    result is a success. *)
Theorem closed_resolves_after_unregister cm ar o s s' :
  reachable s → rtc step (spawn_process cm ar o s).1 s' →
  let h := (spawn_process cm ar o s).2 in
  ((settled_at s' (closed h) = None) ↔ is_running (sp_child h) s') ∧
  (∀ v, settled_at s' (closed h) = Some v →
     (sp_child h ∉ global_spawn s') ∧
     ∃ cd sg, exited_at s' (sp_child h) = Some (cd, sg) ∧
              v = V_result (spawn_result (sp_child h) cd sg)) ∧
  (∀ sg, exited_at s' (sp_child h) = Some (Some 0%Z, sg) →
     settled_at s' (closed h) =
       Some (V_result (mk_result true (sp_child h) (Some 0%Z) sg)) ∧
     sp_child h ∉ global_spawn s').
Proof.
  intros Hwf%reachable_wf Hsteps. rewrite snd_spawn_process. cbn [closed sp_child].
  pose proof (closing_steps _ _ _ _ Hsteps
                (closing_spawn_process cm ar o s (proj1 Hwf))) as (Hc & Hp & H).
  pose proof (wf_steps _ _ Hsteps (wf_spawn_process cm ar o s Hwf)) as [_ [Hr _]].
  assert (Hout : is_Some (exited_at s' (length (children s))) →
                 length (children s) ∉ global_spawn s').
  { intros [x Hx]. rewrite Hr, is_running_exited_at. intros [_ ?]. congruence. }
  rewrite is_running_exited_at.
  destruct (exited_at s' (length (children s))) as [[cd sg]|] eqn:Hx.
  - split; [|split].
    + split; [congruence|by intros [_ ?]].
    + intros v Hv. split; [by apply Hout|].
      exists cd, sg. split; [done|congruence].
    + intros sg' [= -> ->]. split; [done|by apply Hout].
  - destruct H as (Hs & _). split; [|split].
    + done.
    + intros v Hv. congruence.
    + intros sg' [=].
Qed.

Lemma closed_resolves_after_unregister_witness :
  let s' := emit_close 0 (Some 0%Z) None one_spawned in
  let h := (spawn_process "sleep" ["9"%string] (mk_options None) initial).2 in
  (((settled_at s' (closed h) = None) ↔ is_running (sp_child h) s') ∧
   (∀ v, settled_at s' (closed h) = Some v →
      (sp_child h ∉ global_spawn s') ∧
      ∃ cd sg, exited_at s' (sp_child h) = Some (cd, sg) ∧
               v = V_result (spawn_result (sp_child h) cd sg)) ∧
   (∀ sg, exited_at s' (sp_child h) = Some (Some 0%Z, sg) →
      settled_at s' (closed h) =
        Some (V_result (mk_result true (sp_child h) (Some 0%Z) sg)) ∧
      sp_child h ∉ global_spawn s')) ∧
  exited_at s' (sp_child h) = Some (Some 0%Z, None) ∧
  settled_at s' (closed h) = Some (V_result (mk_result true 0 (Some 0%Z) None)).
Proof.
  split; [|by vm_compute].
  apply (closed_resolves_after_unregister "sleep" ["9"%string] (mk_options None)
           initial (emit_close 0 (Some 0%Z) None one_spawned)).
  - apply rtc_refl.
  - apply rtc_once, step_close; [reflexivity|].
    eexists. split; reflexivity.
Defined.

(** ** [despawn] after the [close] event *)

(** C10: when the [close] event of a child is past, the promise
    [despawn] returns for it stays pending in every later state of
    every run. *)
Theorem despawn_after_close_never_resolves c s s' :
  reachable s → is_Some (exited_at s c) → rtc step (despawn c s).1 s' →
  settled_at s' (despawn c s).2 = None ∧ (despawn c s).2 < length (promises s').
Proof.
  intros [Hb _]%reachable_wf [x Hx] Hsteps.
  assert (Hst : stranded (despawn c s).2 (despawn c s).1).
  { apply stranded_despawn; [done|congruence]. }
  by destruct (stranded_steps _ _ _ Hsteps Hst) as (? & ? & _).
Qed.

Lemma reachable_one_closed : reachable one_closed.
Proof.
  apply reachable_close; [apply reachable_one_spawned|reflexivity|].
  eexists. split; reflexivity.
Qed.

Lemma despawn_after_close_never_resolves_witness :
  settled_at (Nat.iter 3 turn (despawn 0 one_closed).1) (despawn 0 one_closed).2 = None ∧
  (despawn 0 one_closed).2 < length (promises (Nat.iter 3 turn (despawn 0 one_closed).1)).
Proof.
  apply (despawn_after_close_never_resolves 0 one_closed).
  - apply reachable_one_closed.
  - eexists. reflexivity.
  - apply steps_turns.
Defined.

(** ** [despawn_all] *)

(** C6: the promise of [despawn_all] is fulfilled at once with the empty
    array when the registry is empty; in every later state of every
    run, when it is fulfilled its value is an array with one result for
    each handle that was registered at the call, in their order, each
    the result of the [close] event of that child, which is then past;
    and it is fulfilled as soon as all these children have closed and no
    microtask is left. *)
Theorem despawn_all_gathers_every_result s s' :
  reachable s → rtc step (despawn_all s).1 s' →
  let all := (despawn_all s).2 in
  (global_spawn s = [] → settled_at (despawn_all s).1 all = Some (V_array [])) ∧
  (∀ v, settled_at s' all = Some v →
     ∃ vs, v = V_array vs ∧ length vs = length (global_spawn s) ∧
       Forall2 (λ c r, ∃ cd sg, exited_at s' c = Some (cd, sg) ∧
                                r = V_result (spawn_result c cd sg))
         (global_spawn s) vs) ∧
  ((∀ c, c ∈ global_spawn s → is_Some (exited_at s' c)) → microtasks s' = [] →
   is_Some (settled_at s' all)).
Proof.
  intros Hwf%reachable_wf Hsteps. pose proof (all_state_despawn_all s Hwf) as H0.
  pose proof (all_state_steps _ _ _ _ _ Hsteps H0) as H1. split; [|split].
  - intros Hg. destruct H0 as (_ & _ & _ & [(vs & Hs & Hf)|[(_ & Hl & Hm & _) _]]).
    + rewrite Hg in Hf. apply Forall2_nil_inv_l in Hf. by subst vs.
    + rewrite Hg in Hl. destruct (values_at _ _); [done|done].
  - intros v Hv. destruct H1 as (_ & _ & _ & [(vs & Hs & Hf)|[(Hs & _) _]]);
      [|congruence].
    exists vs. split; [congruence|]. split; [|done].
    symmetry. by eapply Forall2_length.
  - intros Hx Hq. destruct (all_state_done _ _ _ _ H1 Hx Hq) as (vs & Hs & _).
    by exists (V_array vs).
Qed.

Lemma reachable_two_spawned : reachable two_spawned.
Proof. apply reachable_block, rtc_refl. Qed.

Lemma despawn_all_gathers_every_result_witness :
  let s' := Nat.iter 2 turn
              (emit_close 1 (Some 1%Z) None
                 (Nat.iter 2 turn
                    (emit_close 0 None (Some "SIGTERM"%string)
                       (despawn_all two_spawned).1))) in
  let all := (despawn_all two_spawned).2 in
  ((global_spawn two_spawned = [] →
    settled_at (despawn_all two_spawned).1 all = Some (V_array [])) ∧
   (∀ v, settled_at s' all = Some v →
      ∃ vs, v = V_array vs ∧ length vs = length (global_spawn two_spawned) ∧
        Forall2 (λ c r, ∃ cd sg, exited_at s' c = Some (cd, sg) ∧
                                 r = V_result (spawn_result c cd sg))
          (global_spawn two_spawned) vs) ∧
   ((∀ c, c ∈ global_spawn two_spawned → is_Some (exited_at s' c)) →
    microtasks s' = [] → is_Some (settled_at s' all))) ∧
  global_spawn two_spawned = [0; 1] ∧ microtasks s' = [] ∧
  settled_at s' all =
    Some (V_array [V_result (mk_result true 0 None (Some "SIGTERM"%string));
                   V_result (mk_result false 1 (Some 1%Z) None)]).
Proof.
  split; [|by vm_compute].
  apply (despawn_all_gathers_every_result two_spawned).
  - apply reachable_two_spawned.
  - eapply rtc_l; [apply (step_close 0 None (Some "SIGTERM"%string))|].
    + reflexivity.
    + eexists. split; reflexivity.
    + eapply rtc_trans; [apply (steps_turns 2)|].
      eapply rtc_l; [apply (step_close 1 (Some 1%Z) None)|apply steps_turns].
      * reflexivity.
      * eexists. split; reflexivity.
Defined.

(** ** The fatal-error handlers *)

(** C9: the handler of a fatal fault logs the fault, then calls
    [despawn_all], whose log entries follow, and waits for its promise:
    the promise of the handler is pending when the handler returns, is
    fulfilled in no state in which that of [despawn_all] is not, and is
    fulfilled once that one is and no microtask is left.  A rejected
    value reaches the log as an [Error]: itself when it is one, and
    otherwise the [Error] whose message is the text of the value; that
    [Error] is what the entry of the log prints, under the label of the
    rejection.  With the handlers attached once, the two events run
    these two functions. *)
Theorem fatal_fault_is_logged_then_drained err lb f s s' :
  reachable s → rtc step (handle_fatal_error err lb s).1 s' →
  let self := (handle_fatal_error err lb s).2 in
  let all :=
    (despawn_all (log_entry_to level_error (default "handle_fatal_error"%string lb)
                    [printed_error err] (new_promise s))).2 in
  (handlers s = [f] →
   emit_uncaught_exception err lb s = (handle_fatal_error err lb s).1 ∧
   emit_unhandled_rejection err s = (handle_unhandled_rejection f err s).1) ∧
  log (handle_fatal_error err lb s).1 =
    log s ++ mk_log level_error (default "handle_fatal_error"%string lb)
               [printed_error err] :: (despawning <$> global_spawn s) ∧
  (∃ e, instanceof_Error e = true ∧
        match err with
        | js_error _ => e = err
        | js_other printed => e = js_error printed
        end ∧
        handle_unhandled_rejection f err s =
        handle_fatal_error e
          (Some (default "unhandledRejection"%string (f ≫= λ g, g err))) s ∧
        log (handle_unhandled_rejection f err s).1 =
          log s ++ mk_log level_error
                     (default "unhandledRejection"%string (f ≫= λ g, g err))
                     [printed_error e] :: (despawning <$> global_spawn s)) ∧
  settled_at (handle_fatal_error err lb s).1 self = None ∧
  (is_Some (settled_at s' self) → is_Some (settled_at s' all)) ∧
  (is_Some (settled_at s' all) → microtasks s' = [] → is_Some (settled_at s' self)).
Proof.
  intros [Hb _]%reachable_wf Hsteps.
  destruct (awaiting_all_handle_fatal_error err lb s Hb) as [H0 Hs0].
  pose proof (awaiting_all_steps _ _ _ _ Hsteps H0) as (_ & H1).
  split; [|split; [|split; [|split; [|split]]]].
  - intros Hh. unfold emit_uncaught_exception, emit_unhandled_rejection.
    by rewrite Hh.
  - apply log_handle_fatal_error.
  - exists (new_Error err).
    assert (E : handle_unhandled_rejection f err s =
                handle_fatal_error (new_Error err)
                  (Some (default "unhandledRejection"%string (f ≫= λ g, g err))) s).
    { unfold handle_unhandled_rejection. by destruct err. }
    split; [by destruct err|]. split; [by destruct err|]. split; [exact E|].
    rewrite E. apply log_handle_fatal_error.
  - done.
  - intros [v Hv]. destruct H1 as [[_ ?]|(Hn & _)]; [done|congruence].
  - intros [v Hv] Hq. destruct H1 as [[? _]|(_ & [[Hn _]|[w Hj]] & _)]; [done| |].
    + congruence.
    + rewrite Hq in Hj. by apply elem_of_nil in Hj.
Qed.

Lemma fatal_fault_is_logged_then_drained_witness :
  let err := js_other "boom" in
  let s := guarded in
  let s' := Nat.iter 3 turn
              (emit_close 1 (Some 1%Z) None
                 (Nat.iter 1 turn
                    (emit_close 0 None (Some "SIGTERM"%string)
                       (handle_fatal_error err None s).1))) in
  let self := (handle_fatal_error err None s).2 in
  let all :=
    (despawn_all (log_entry_to level_error (default "handle_fatal_error"%string None)
                    [printed_error err] (new_promise s))).2 in
  ((handlers s = [None] →
    emit_uncaught_exception err None s = (handle_fatal_error err None s).1 ∧
    emit_unhandled_rejection err s = (handle_unhandled_rejection None err s).1) ∧
   log (handle_fatal_error err None s).1 =
     log s ++ mk_log level_error (default "handle_fatal_error"%string None)
                [printed_error err] :: (despawning <$> global_spawn s) ∧
   (∃ e, instanceof_Error e = true ∧
         match err with
         | js_error _ => e = err
         | js_other printed => e = js_error printed
         end ∧
         handle_unhandled_rejection None err s =
         handle_fatal_error e
           (Some (default "unhandledRejection"%string (None ≫= λ g, g err))) s ∧
         log (handle_unhandled_rejection None err s).1 =
           log s ++ mk_log level_error
                      (default "unhandledRejection"%string (None ≫= λ g, g err))
                      [printed_error e] :: (despawning <$> global_spawn s)) ∧
   settled_at (handle_fatal_error err None s).1 self = None ∧
   (is_Some (settled_at s' self) → is_Some (settled_at s' all)) ∧
   (is_Some (settled_at s' all) → microtasks s' = [] → is_Some (settled_at s' self))) ∧
  handlers s = [None] ∧ microtasks s' = [] ∧
  settled_at s' self = Some V_undefined.
Proof.
  split; [|by vm_compute].
  apply (fatal_fault_is_logged_then_drained (js_other "boom") None None guarded).
  - apply reachable_block, reachable_two_spawned.
  - eapply rtc_l; [apply (step_close 0 None (Some "SIGTERM"%string))|].
    + reflexivity.
    + eexists. split; reflexivity.
    + eapply rtc_trans; [apply (steps_turns 1)|].
      eapply rtc_l; [apply (step_close 1 (Some 1%Z) None)|apply steps_turns].
      * reflexivity.
      * eexists. split; reflexivity.
Defined.

(** ** The restartable process *)

(** C3 fails on the code: [restart()] then [kill()] in one block, then
    the child closes.  Every block and event of this run starts with no
    microtask left.  When the run is over the promise of [kill] is
    fulfilled, and the child the restart spawned is running and
    registered. *)
Lemma kill_during_restart_leaves_a_child_running :
  let s1 := exec_calls [call_restart 0; call_kill 0] started in
  let s2 := emit_close 0 None (Some "SIGTERM"%string) s1 in
  let s3 := Nat.iter 4 turn s2 in
  microtasks started = [] ∧ microtasks s1 = [] ∧ is_running 0 s1 ∧
  reachable s3 ∧ microtasks s3 = [] ∧
  (kill 0 (restart 0 started).1).2 = 4 ∧
  settled_at s3 4 = Some V_undefined ∧
  is_running 1 s3 ∧ global_spawn s3 = [1] ∧
  get_spawned 0 s3 = Some (mk_spawned 1 6).
Proof.
  assert (Hrun : is_running 0 (exec_calls [call_restart 0; call_kill 0] started)).
  { eexists. split; vm_compute; reflexivity. }
  split; [by vm_compute|]. split; [by vm_compute|]. split; [done|]. split.
  { apply reachable_turns, reachable_close; [|by vm_compute|done].
    apply reachable_block, reachable_block, rtc_refl. }
  split; [by vm_compute|]. split; [by vm_compute|]. split; [by vm_compute|].
  split; [eexists; split; vm_compute; reflexivity|].
  split; by vm_compute.
Qed.

(** C2 fails on the code: the child has ended on its own, then
    [restart()] is called, and once more from a microtask queued in the
    same block.  Every block and event of this run starts with no
    microtask left.  When the run is over both promises are fulfilled
    and two children of the one restartable process are running. *)
Lemma restart_before_respawn_spawns_twice :
  let s1 := emit_close 0 (Some 1%Z) None started in
  let s2 := exec_calls [call_restart 0; call_queue_microtask [call_restart 0]] s1 in
  let s3 := Nat.iter 3 turn s2 in
  microtasks started = [] ∧ is_running 0 started ∧ microtasks s1 = [] ∧
  reachable s3 ∧ microtasks s3 = [] ∧
  (restart 0 s1).2 = 2 ∧ settled_at s3 2 = Some V_undefined ∧
  settled_at s3 4 = Some V_undefined ∧
  is_running 1 s3 ∧ is_running 2 s3 ∧ global_spawn s3 = [1; 2] ∧
  get_spawned 0 s3 = Some (mk_spawned 2 6).
Proof.
  assert (Hrun : is_running 0 started)
    by (eexists; split; vm_compute; reflexivity).
  split; [by vm_compute|]. split; [done|]. split; [by vm_compute|]. split.
  { apply reachable_turns, reachable_block, reachable_close; [|by vm_compute|done].
    apply reachable_block, rtc_refl. }
  split; [by vm_compute|]. split; [by vm_compute|]. split; [by vm_compute|].
  split; [by vm_compute|].
  split; [eexists; split; vm_compute; reflexivity|].
  split; [eexists; split; vm_compute; reflexivity|].
  split; by vm_compute.
Qed.

(** The same with a child that is running: the second [restart()] is
    the reaction to the promise of a [despawn] of that child. *)
Lemma restart_after_despawn_spawns_twice :
  let s1 := exec_calls [call_restart 0;
                        call_then (call_despawn 0) [call_restart 0]] started in
  let s2 := emit_close 0 None (Some "SIGTERM"%string) s1 in
  let s3 := Nat.iter 3 turn s2 in
  microtasks started = [] ∧ microtasks s1 = [] ∧ is_running 0 s1 ∧
  reachable s3 ∧ microtasks s3 = [] ∧
  is_running 1 s3 ∧ is_running 2 s3 ∧ global_spawn s3 = [1; 2].
Proof.
  assert (Hrun : is_running 0
            (exec_calls [call_restart 0;
                         call_then (call_despawn 0) [call_restart 0]] started)).
  { eexists. split; vm_compute; reflexivity. }
  split; [by vm_compute|]. split; [by vm_compute|]. split; [done|]. split.
  { apply reachable_turns, reachable_close; [|by vm_compute|done].
    apply reachable_block, reachable_block, rtc_refl. }
  split; [by vm_compute|].
  split; [eexists; split; vm_compute; reflexivity|].
  split; [eexists; split; vm_compute; reflexivity|].
  by vm_compute.
Qed.

(** What does hold: two calls of [restart()] in one block, while the
    child runs, leave one child running; the promise of the first is
    fulfilled with [undefined] after the respawn, that of the second
    with the result of the old child, one microtask before the
    respawn. *)
Lemma two_restarts_in_one_block :
  let s1 := Nat.iter 1 turn (exec_calls [call_restart 0; call_restart 0] started) in
  let s2 := emit_close 0 None (Some "SIGTERM"%string) s1 in
  let old := V_result (mk_result true 0 None (Some "SIGTERM"%string)) in
  microtasks s1 = [] ∧ reachable (Nat.iter 3 turn s2) ∧
  settled_at (Nat.iter 2 turn s2) 4 = Some old ∧
  global_spawn (Nat.iter 2 turn s2) = [] ∧
  microtasks (Nat.iter 3 turn s2) = [] ∧
  settled_at (Nat.iter 3 turn s2) 2 = Some V_undefined ∧
  settled_at (Nat.iter 3 turn s2) 4 = Some old ∧
  global_spawn (Nat.iter 3 turn s2) = [1] ∧
  get_spawned 0 (Nat.iter 3 turn s2) = Some (mk_spawned 1 5).
Proof.
  split; [by vm_compute|]. split.
  { apply reachable_turns, reachable_close; [|by vm_compute|].
    - apply (reachable_turns 1), reachable_block, reachable_block, rtc_refl.
    - eexists. split; vm_compute; reflexivity. }
  repeat (split; [by vm_compute|]). by vm_compute.
Qed.

(** What does hold: [kill()] right after the constructor leaves no
    child running once its promise is fulfilled. *)
Lemma kill_after_construction :
  let s1 := exec_calls [call_kill 0] started in
  let s2 := Nat.iter 2 turn (emit_close 0 None (Some "SIGTERM"%string) s1) in
  microtasks s1 = [] ∧ reachable s2 ∧ microtasks s2 = [] ∧
  (kill 0 started).2 = 2 ∧ settled_at s2 2 = Some V_undefined ∧
  global_spawn s2 = [] ∧ get_spawned 0 s2 = None ∧ get_restarting 0 s2 = None.
Proof.
  split; [by vm_compute|]. split.
  { apply reachable_turns, reachable_close; [|by vm_compute|].
    - apply reachable_block, reachable_block, rtc_refl.
    - eexists. split; vm_compute; reflexivity. }
  repeat (split; [by vm_compute|]). by vm_compute.
Qed.

(** ** The promise [despawn] returns for a running child *)

Lemma listening_frame0 l c s s' :
  exited_at s c = None → listening l c s →
  frame0 (λ t, t ≠ listener_target l) s s' → listening l c s'.
Proof.
  intros Hx (Hc & Hp & H) F. rewrite Hx in H. destruct H as (Hs & Hu & Hl & Ho).
  split; [pose proof (fr_children _ _ _ F); lia|].
  split; [pose proof (fr_len _ _ _ F); lia|].
  rewrite (fr_exited _ _ _ F), Hx. split; [|split; [|split]].
  - destruct (fr_self _ _ _ F (listener_target l)) as [E _]; [by intros ?|]. by rewrite E.
  - by eapply untargeted_frame0.
  - by eapply fr_listeners_fwd.
  - intros c' l' Hl' Ht.
    destruct (fr_listeners _ _ _ F c' l' Hl') as [Hl''|Hn]; [by eapply Ho|done].
Qed.

Lemma listening_step l c s s' : step s s' → listening l c s → listening l c s'.
Proof.
  intros Hstep Hcl. pose proof Hcl as (Hc & Hp & H).
  destruct (exited_at s c) as [[cd0 sg0]|] eqn:Hx.
  { destruct (grows_step _ _ Hstep) as (L & M & X & C).
    split; [lia|]. split; [lia|]. rewrite (X _ _ Hx). by apply M. }
  destruct H as (Hs & Hu & Hl & Ho).
  destruct Hstep as [k s|j q s E|c' cd sg s E Hc'|err o s|err s].
  - apply (listening_frame0 l c s); [done..|].
    by apply frame0_step_block, fresh_ok_old.
  - apply (listening_frame0 l c (set_microtasks q s)); [done| |].
    + split; [done|]. split; [done|]. change (exited_at (set_microtasks q s) c)
        with (exited_at s c). rewrite Hx.
      split; [done|]. split; [by eapply untargeted_pop|done].
    + apply frame0_step_microtask; [by eapply untargeted_head|by apply fresh_ok_old].
  - destruct (decide (c' = c)) as [->|Hn].
    + split; [|split].
      * unfold emit_close. by rewrite children_listeners, length_children_close_child.
      * pose proof (fr_len _ _ _ (frame0_step_close (λ _, True) c cd sg s
                                   ltac:(done))) as L.
        rewrite promises_close_child in L. lia.
      * rewrite exited_at_emit_close, decide_True by done.
        by apply (settled_at_emit_close c cd sg s l).
    + apply (listening_frame0 l c (close_child c' cd sg s)).
      * by rewrite exited_at_close_child, decide_False.
      * split; [by rewrite length_children_close_child|].
        split; [by rewrite promises_close_child|].
        rewrite exited_at_close_child, decide_False, Hx by done.
        split; [by rewrite settled_at_close_child|].
        split; [by apply untargeted_close_child|].
        rewrite listeners_at_close_child, decide_False by done.
        split; [done|]. intros c'' l'. rewrite listeners_at_close_child.
        destruct (decide _); [by intros ?%elem_of_nil|apply Ho].
      * apply frame0_step_close. intros l' Hl' Ht. by apply Hn, (Ho c' l').
  - apply (listening_frame0 l c s); [done..|].
    by apply frame_emit_uncaught_exception, fresh_ok_old.
  - apply (listening_frame0 l c s); [done..|].
    by apply frame_emit_unhandled_rejection, fresh_ok_old.
Qed.

Lemma listening_steps l c s s' : rtc step s s' → listening l c s → listening l c s'.
Proof. induction 1; eauto using listening_step. Qed.

Lemma listening_despawn c s :
  bounded s → is_running c s →
  listening (on_close_despawn (length (promises s))) c (despawn c s).1.
Proof.
  intros (Bq & Br & Bl) [Hc Hx]%is_running_exited_at. split; [|split].
  - pose proof (fr_children _ _ _ (proj1 (frame_despawn (λ _, True) c s
                                            ltac:(by intros t _ _)))). lia.
  - cbn [listener_target]. rewrite len_despawn. lia.
  - rewrite exited_at_despawn, Hx. cbn [listener_target]. split; [|split; [|split]].
    + unfold settled_at. rewrite promises_despawn, lookup_promises_snoc.
      by rewrite decide_True.
    + split.
      * intros j Hj Ht. rewrite microtasks_despawn in Hj.
        specialize (Bq j _ Hj Ht). lia.
      * intros q k. unfold reactions_at.
        rewrite promises_despawn, lookup_promises_snoc.
        destruct (decide _); [by intros ?%elem_of_nil|].
        intros Hk Ht. specialize (Br q k _ Hk Ht). lia.
    + rewrite listeners_at_despawn, decide_True by done.
      apply elem_of_app. right. by left.
    + intros c' l'. rewrite listeners_at_despawn.
      destruct (decide _) as [[-> _]|_]; [done|].
      intros Hl Ht. specialize (Bl c' l' Hl). lia.
Qed.

(** The promise [despawn] returns for a running child is pending
    exactly while the child runs, and is fulfilled by its [close] event
    with the result of that event, in every run. *)
Theorem despawn_resolves_with_close c s s' :
  reachable s → is_running c s → rtc step (despawn c s).1 s' →
  (settled_at s' (despawn c s).2 = None ↔ exited_at s' c = None) ∧
  (∀ cd sg, exited_at s' c = Some (cd, sg) →
     settled_at s' (despawn c s).2 = Some (V_result (spawn_result c cd sg))).
Proof.
  intros [Hb _]%reachable_wf Hc Hsteps. rewrite snd_despawn.
  pose proof (listening_steps _ _ _ _ Hsteps (listening_despawn c s Hb Hc))
    as (_ & _ & H). simpl in H.
  destruct (exited_at s' c) as [[cd sg]|].
  - split; [split; congruence|]. by intros ?? [= <- <-].
  - destruct H as (Hs & _). split; [done|]. by intros ?? [=].
Qed.

Lemma despawn_resolves_with_close_witness :
  let s' := emit_close 0 (Some 2%Z) None (despawn 0 one_spawned).1 in
  exited_at s' 0 = Some (Some 2%Z, None) ∧
  ((settled_at s' (despawn 0 one_spawned).2 = None ↔ exited_at s' 0 = None) ∧
   (∀ cd sg, exited_at s' 0 = Some (cd, sg) →
      settled_at s' (despawn 0 one_spawned).2 = Some (V_result (spawn_result 0 cd sg)))).
Proof.
  split; [reflexivity|].
  apply (despawn_resolves_with_close 0 one_spawned).
  - apply (reachable_block [call_spawn_process "sleep" ["9"%string] (mk_options None)]).
    apply rtc_refl.
  - eexists. split; reflexivity.
  - apply rtc_once, step_close; [reflexivity|].
    eexists. split; reflexivity.
Defined.

Lemma restartables_resolve p v s : restartables (resolve p v s) = restartables s.
Proof. unfold resolve. by destruct (promises s !! p) as [[[u|] ks vs]|]. Qed.

Lemma restartables_once_close c l s : restartables (once_close c l s) = restartables s.
Proof. unfold once_close. by destruct (children s !! c) as [[]|]. Qed.

Lemma restartables_register_global_spawn c s :
  restartables (register_global_spawn c s) = restartables s.
Proof. unfold register_global_spawn. by destruct (set_has _ _). Qed.

Lemma restartables_spawn_process cm ar o s :
  restartables (spawn_process cm ar o s).1 = restartables s.
Proof.
  unfold spawn_process. cbn [fst].
  by rewrite restartables_once_close, restartables_register_global_spawn.
Qed.

Lemma children_set_spawned rp v s : children (set_spawned rp v s) = children s.
Proof. unfold set_spawned. by destruct (restartables s !! rp) as [[]|]. Qed.

Lemma global_spawn_set_spawned rp v s : global_spawn (set_spawned rp v s) = global_spawn s.
Proof. unfold set_spawned. by destruct (restartables s !! rp) as [[]|]. Qed.

Lemma promises_set_spawned rp v s : promises (set_spawned rp v s) = promises s.
Proof. unfold set_spawned. by destruct (restartables s !! rp) as [[]|]. Qed.

Lemma microtasks_set_spawned rp v s : microtasks (set_spawned rp v s) = microtasks s.
Proof. unfold set_spawned. by destruct (restartables s !! rp) as [[]|]. Qed.

(** ** The restartable process in every run *)

Lemma microtasks_resolve_pending p v s :
  settled_at s p = None →
  microtasks (resolve p v s) =
  microtasks s ++ ((λ k, reaction_job k v) <$> reactions_at s p).
Proof.
  unfold resolve, settled_at, reactions_at.
  destruct (promises s !! p) as [[[u|] ks vs]|] eqn:E; simpl; try done.
  intros _. by rewrite app_nil_r.
Qed.

(** [restart] on a restartable process that holds no child and has no
    close in flight. *)
Lemma restart_idle rp r s :
  restartables s !! rp = Some r → spawned r = None → restarting r = None →
  let s' := (restart rp s).1 in
  let c := length (children s) in
  let p := S (length (promises s)) in
  (restart rp s).2 = length (promises s) ∧
  children s' =
    children s ++ [mk_child (rp_command r :: rp_args r)
                      (Some (default "inherit"%string (stdio (rp_options r))))
                      None [on_close_spawn p] 0] ∧
  global_spawn s' = set_add c (global_spawn s) ∧
  restartables s' =
    <[rp := mk_restartable (rp_command r) (rp_args r) (rp_options r)
              (Some (mk_spawned c p)) None]> (restartables s) ∧
  settled_at s' (length (promises s)) = Some V_undefined ∧
  settled_at s' p = None ∧
  length (promises s') = S p ∧
  microtasks s' = microtasks s.
Proof.
  intros Hr Hs Hg. unfold restart, get_restarting, get_spawned.
  cbn [restartables new_promise new_promise_with set_promises].
  rewrite Hr. simpl. rewrite Hs, Hg. cbn [fst snd].
  unfold respawn. cbn [restartables new_promise new_promise_with set_promises].
  rewrite Hr.
  destruct (spawn_process (rp_command r) (rp_args r) (inherit_stdio (rp_options r))
              (new_promise s)) as [s1 sp] eqn:E.
  assert (E1 : s1 = (spawn_process (rp_command r) (rp_args r)
                       (inherit_stdio (rp_options r)) (new_promise s)).1)
    by (by rewrite E).
  assert (E2 : sp = mk_spawned (length (children s)) (S (length (promises s)))).
  { replace sp with (spawn_process (rp_command r) (rp_args r)
                       (inherit_stdio (rp_options r)) (new_promise s)).2
      by (by rewrite E).
    unfold spawn_process. cbn [snd]. unfold fresh_child, fresh_promise. simpl.
    rewrite length_app. simpl. f_equal. lia. }
  unfold fresh_promise.
  assert (Ln : length (promises (new_promise s)) = S (length (promises s))).
  { simpl. rewrite length_app. simpl. lia. }
  assert (Lp : promises (new_promise s) = promises s ++ [mk_promise None [] []]) by done.
  split; [done|]. split; [|split; [|split; [|split; [|split; [|split]]]]].
  - rewrite children_resolve, children_set_spawned, E1, children_spawn_process.
    simpl. rewrite length_app, Nat.add_1_r. by destruct (stdio (rp_options r)).
  - rewrite global_spawn_resolve, global_spawn_set_spawned, E1, global_spawn_spawn_process.
    done.
  - rewrite restartables_resolve. unfold set_spawned.
    rewrite E1, restartables_spawn_process. simpl. rewrite Hr. destruct r. simpl in *.
    subst. done.
  - rewrite settled_at_resolve, promises_set_spawned, E1, len_spawn_process, Ln.
    rewrite decide_True by (split; [done|lia]).
    unfold settled_at. rewrite promises_set_spawned, promises_spawn_process, Lp.
    rewrite lookup_app_l by (rewrite length_app; simpl; lia).
    by rewrite list_lookup_middle.
  - rewrite settled_at_resolve, promises_set_spawned, E1, len_spawn_process, Ln.
    rewrite decide_False by (intros []; lia).
    unfold settled_at. rewrite promises_set_spawned, promises_spawn_process, Lp.
    rewrite list_lookup_middle; [done|]. rewrite length_app. simpl. lia.
  - rewrite len_resolve, promises_set_spawned, E1, len_spawn_process, Ln. lia.
  - rewrite microtasks_resolve_pending.
    + unfold reactions_at. rewrite promises_set_spawned, E1, promises_spawn_process, Lp.
      rewrite lookup_app_l by (rewrite length_app; simpl; lia).
      rewrite list_lookup_middle by done. simpl. rewrite app_nil_r.
      by rewrite microtasks_set_spawned, microtasks_once_close,
        microtasks_register_global_spawn.
    + unfold settled_at. rewrite promises_set_spawned, E1, promises_spawn_process, Lp.
      rewrite lookup_app_l by (rewrite length_app; simpl; lia).
      by rewrite list_lookup_middle.
Qed.

Lemma spawn_restartable_process_spec cm ar o s :
  let s' := (spawn_restartable_process cm ar o s).1 in
  let rp := (spawn_restartable_process cm ar o s).2 in
  let c := length (children s) in
  children s' =
    children s ++ [mk_child (cm :: ar) (Some (default "inherit"%string (stdio o)))
                      None [on_close_spawn (S (length (promises s)))] 0] ∧
  is_running c s' ∧ c ∈ global_spawn s' ∧
  get_spawned rp s' = Some (mk_spawned c (S (length (promises s)))) ∧
  get_restarting rp s' = None ∧
  settled_at s' (length (promises s)) = Some V_undefined ∧
  microtasks s' = microtasks s.
Proof.
  unfold spawn_restartable_process. cbn [fst snd].
  set (s0 := set_restartables _ s).
  assert (Hr : restartables s0 !! length (restartables s) =
               Some (mk_restartable cm ar o None None)).
  { unfold s0. simpl. by rewrite list_lookup_middle. }
  destruct (restart_idle _ _ s0 Hr eq_refl eq_refl)
    as (_ & Hc & Hg & Hrs & Hs & _ & _ & Hq).
  change (children s0) with (children s) in *.
  change (promises s0) with (promises s) in *.
  change (global_spawn s0) with (global_spawn s) in *.
  change (microtasks s0) with (microtasks s) in *.
  simpl in Hc. split; [done|]. split; [|split; [|split; [|split; [|split]]]].
  - eexists. rewrite Hc. split; [by rewrite list_lookup_middle|done].
  - rewrite Hg. unfold set_add. destruct (set_has _ _) eqn:E.
    + by apply bool_decide_eq_true in E.
    + apply elem_of_app. right. by left.
  - unfold get_spawned. rewrite Hrs. unfold s0. simpl.
    rewrite list_lookup_insert_eq; [done|]. rewrite length_app. simpl. lia.
  - unfold get_restarting. rewrite Hrs. unfold s0. simpl.
    rewrite list_lookup_insert_eq; [done|]. rewrite length_app. simpl. lia.
  - done.
  - done.
Qed.

(** The constructor starts the child before it returns: the child is
    running and registered, the restartable process holds it, and the
    promise of the first [restart] is fulfilled already; no microtask
    is left to wait for. *)
Theorem constructor_starts_the_child cm ar o s :
  let s' := (spawn_restartable_process cm ar o s).1 in
  let rp := (spawn_restartable_process cm ar o s).2 in
  let c := length (children s) in
  children s' =
    children s ++ [mk_child (cm :: ar) (Some (default "inherit"%string (stdio o)))
                      None [on_close_spawn (S (length (promises s)))] 0] ∧
  is_running c s' ∧ c ∈ global_spawn s' ∧
  get_spawned rp s' = Some (mk_spawned c (S (length (promises s)))) ∧
  get_restarting rp s' = None ∧
  settled_at s' (length (promises s)) = Some V_undefined ∧
  microtasks s' = microtasks s.
Proof. apply spawn_restartable_process_spec. Qed.

(** *** Promises that wait for another *)

Lemma resumes_target k self : resumes k self → cont_target k = Some self.
Proof. destruct k; simpl; try done; by intros ->. Qed.

Lemma awaits_frame0 k self on s s' :
  settled_at s self = None →
  awaits k self on s → frame0 (λ t, t ≠ self) s s' → awaits k self on s'.
Proof.
  intros Hs (Hk & Hlen & Hon & H) F. rewrite Hs in H.
  destruct H as (Hw & Hq & Hr & Hl).
  pose proof (fr_len _ _ _ F) as L.
  split; [done|]. split; [lia|]. split; [lia|].
  destruct (fr_self _ _ _ F self) as [E' _]; [by intros ?|]. rewrite E', Hs.
  destruct (fr_queue _ _ _ F) as (new & E & Hnew).
  split; [|split; [|split]].
  - destruct Hw as [[Ha Hk']|(j & Hj & Ht)].
    + destruct (fr_reactions_fwd _ _ _ F on _ Hk') as [[Hk'' Ee]|(v & _ & _ & Hj)].
      * left. split; [congruence|done].
      * right. exists (reaction_job k v). split; [done|]. by apply resumes_target.
    + right. exists j. split; [|done]. rewrite E. apply elem_of_app. by left.
  - intros j Hj Ht. rewrite E in Hj. apply elem_of_app in Hj as [Hj|Hj].
    + destruct (Hq j Hj Ht) as [?|(v & Hv & ->)]; [by left|].
      right. exists v. split; [|done]. by apply (fr_mono _ _ _ F).
    + destruct (Hnew j Hj) as [Ha|(q & k' & v & -> & Hk' & Hn & Hv)];
        [by destruct (Ha _ Ht)|].
      destruct (Hr q k' Hk' Ht) as [-> ->]. right. by exists v.
  - intros q k' Hk' Ht. destruct (fr_reactions _ _ _ F q k' Hk') as [Hk''|Ha];
      [by apply Hr|by destruct (Ha _ Ht)].
  - intros c l Hc. destruct (fr_listeners _ _ _ F c l Hc) as [Hc'|Ha];
      [by eapply Hl|done].
Qed.

Lemma settled_at_set_restarting rp v s p :
  settled_at (set_restarting rp v s) p = settled_at s p.
Proof.
  unfold set_restarting, settled_at. by destruct (restartables s !! rp) as [[]|].
Qed.

Lemma run_cont_resumes k self v s :
  resumes k self → self < length (promises s) → settled_at s self = None →
  settled_at (run_cont k v s) self = Some (resume_value k v).
Proof.
  intros Hk Hlen Hs. destruct k; simpl in Hk; try done; subst; simpl.
  - rewrite settled_at_resolve, len_set_restarting, decide_True by done.
    by rewrite settled_at_set_restarting, Hs.
  - assert (F : frame0 (λ t, t ≠ self) s (respawn rp s)).
    { apply frame_respawn. by apply fresh_ok_old. }
    destruct (fr_self _ _ _ F self) as [E _]; [by intros ?|].
    pose proof (fr_len _ _ _ F).
    rewrite settled_at_resolve, decide_True by (split; [done|lia]).
    by rewrite E, Hs.
  - rewrite settled_at_resolve, decide_True by done. by rewrite Hs.
  - rewrite settled_at_resolve, decide_True by done. by rewrite Hs.
  - rewrite settled_at_resolve, decide_True by done. by rewrite Hs.
Qed.

Lemma awaits_step k self on s s' :
  step s s' → awaits k self on s → awaits k self on s'.
Proof.
  intros Hstep Haw. pose proof Haw as (Hk & Hlen & Hon & H).
  destruct (grows_step _ _ Hstep) as (L & M & _ & _).
  destruct (settled_at s self) as [u|] eqn:Hs.
  { destruct H as (v & Hv & ->). split; [done|]. split; [lia|]. split; [lia|].
    rewrite (M _ _ Hs). exists v. split; [by apply M|done]. }
  destruct H as (Hw & Hq & Hr & Hl).
  destruct Hstep as [b s|j q s E|c cd sg s E Hc|err o s|err s].
  - apply (awaits_frame0 k self on s); [done..|].
    by apply frame0_step_block, fresh_ok_old.
  - destruct (decide (job_target j = Some self)) as [Ht|Hn].
    + destruct (Hq j) as [[-> ->]|(v & Hv & ->)]; [rewrite E; by left|done| |].
      * (* the promise was resolved with [on]: the reaction is registered *)
        simpl. set (s0 := set_microtasks q s).
        destruct (perform_then_spec on (resolve_function self) s0 Hon)
          as (Pset & _ & Pch & Plen & Pcase).
        split; [done|]. split; [by rewrite Plen|]. split; [by rewrite Plen|].
        rewrite !Pset. change (settled_at s0 self) with (settled_at s self).
        rewrite Hs. change (settled_at s0 on) with (settled_at s on) in *.
        assert (Hq0 : ∀ j, j ∈ q → job_target j = Some self →
                  (j = resolve_thenable_job self on ∧
                   resolve_function self = resolve_function self) ∨
                  (∃ v, settled_at s on = Some v ∧
                        j = reaction_job (resolve_function self) v)).
        { intros j' Hj'. apply Hq. rewrite E. by right. }
        destruct (settled_at s on) as [v|] eqn:Ea; destruct Pcase as [Pq Pr].
        -- split; [right; exists (reaction_job (resolve_function self) v);
                   split; [rewrite Pq; apply elem_of_app; right; by left|done]|].
           split; [|split].
           ++ intros j. rewrite Pq.
              intros [Hj|Hj%list_elem_of_singleton]%elem_of_app Ht'.
              ** by apply Hq0.
              ** subst j. right. by exists v.
           ++ intros q' k'. rewrite Pr. apply Hr.
           ++ intros c l. unfold listeners_at. rewrite Pch. apply Hl.
        -- split; [left; split; [done|]; rewrite Pr, decide_True by done;
                   apply elem_of_app; right; by left|].
           split; [|split].
           ++ intros j. rewrite Pq. apply Hq0.
           ++ intros q' k'. rewrite Pr. destruct (decide _) as [->|].
              ** intros [Hk'|Hk'%list_elem_of_singleton]%elem_of_app Ht';
                   [by apply Hr|done].
              ** apply Hr.
           ++ intros c l. unfold listeners_at. rewrite Pch. apply Hl.
      * split; [done|]. split; [lia|]. split; [lia|].
        cbn [run_job].
        rewrite (run_cont_resumes k self v (set_microtasks q s)) by done.
        exists v. split; [by apply M|done].
    + apply (awaits_frame0 k self on (set_microtasks q s)); [done| |].
      * split; [done|]. split; [done|]. split; [done|].
        change (settled_at (set_microtasks q s) self) with (settled_at s self).
        rewrite Hs. split; [|split; [|done]].
        -- destruct Hw as [?|(j' & Hj' & Ht')]; [by left|]. right. exists j'.
           split; [|done]. rewrite E in Hj'.
           apply elem_of_cons in Hj' as [->|Hj']; [by destruct Hn|done].
        -- intros j' Hj'. apply Hq. rewrite E. by right.
      * apply frame0_step_microtask; [|by apply fresh_ok_old].
        intros t Ht ->. by destruct Hn.
  - apply (awaits_frame0 k self on (close_child c cd sg s)).
    + by rewrite settled_at_close_child.
    + split; [done|]. split; [by rewrite promises_close_child|].
      split; [by rewrite promises_close_child|].
      unfold reactions_at. rewrite !settled_at_close_child,
        microtasks_close_child, promises_close_child, Hs.
      split; [done|]. split; [done|]. split; [done|].
      intros c' l. rewrite listeners_at_close_child.
      destruct (decide _); [by intros ?%elem_of_nil|apply Hl].
    + apply frame0_step_close. intros l Hc'. by eapply Hl.
  - apply (awaits_frame0 k self on s); [done..|].
    by apply frame_emit_uncaught_exception, fresh_ok_old.
  - apply (awaits_frame0 k self on s); [done..|].
    by apply frame_emit_unhandled_rejection, fresh_ok_old.
Qed.

Lemma awaits_steps k self on s s' :
  rtc step s s' → awaits k self on s → awaits k self on s'.
Proof. induction 1; eauto using awaits_step. Qed.

(** What [awaits] gives: [self] is not fulfilled before [on], and is
    fulfilled once [on] is and no microtask is left. *)
Lemma awaits_order k self on s :
  awaits k self on s →
  (∀ u, settled_at s self = Some u →
     ∃ v, settled_at s on = Some v ∧ u = resume_value k v) ∧
  (is_Some (settled_at s on) → microtasks s = [] → is_Some (settled_at s self)).
Proof.
  intros (_ & _ & _ & H). destruct (settled_at s self) as [u|].
  - split; [by intros ? [= <-]|done].
  - split; [done|]. intros [v Hv] Hq.
    destruct H as ([[? _]|(j & Hj & _)] & _); [congruence|].
    rewrite Hq in Hj. by apply elem_of_nil in Hj.
Qed.

Lemma fresh_at_new_promise s :
  bounded s → fresh_at (length (promises s)) (new_promise s).
Proof.
  intros (Bq & Br & Bl). split; [|split; [split|]].
  - unfold settled_at, new_promise. simpl. rewrite lookup_promises_snoc.
    by rewrite decide_True.
  - intros j Hj Ht. specialize (Bq j _ Hj Ht). lia.
  - intros q k. unfold reactions_at, new_promise. simpl.
    rewrite lookup_promises_snoc.
    destruct (decide _); [by intros ?%elem_of_nil|].
    intros Hk Ht. specialize (Br q k _ Hk Ht). lia.
  - intros c l Hl Ht. specialize (Bl c l Hl). lia.
Qed.

Lemma fresh_at_frame0 self s s' :
  fresh_at self s → frame0 (λ t, t ≠ self) s s' → fresh_at self s'.
Proof.
  intros (Hs & Hu & Hl) F. split; [|split].
  - destruct (fr_self _ _ _ F self) as [E _]; [by intros ?|]. by rewrite E.
  - by eapply untargeted_frame0.
  - intros c l Hc. destruct (fr_listeners _ _ _ F c l Hc) as [?|?]; [by eapply Hl|done].
Qed.

Lemma bounded_new_promise s : bounded s → bounded (new_promise s).
Proof.
  intros B. apply (bounded_frame0 s); [done|].
  apply frame_new_promise. rewrite len_new_promise. lia.
Qed.

Lemma awaits_perform_then k self on s :
  resumes k self → self < length (promises s) → on < length (promises s) →
  fresh_at self s → awaits k self on (perform_then on k s).
Proof.
  intros Hk Hlen Hon (Hs & [Uq Ur] & Hl).
  destruct (perform_then_spec on k s Hon) as (Pset & _ & Pch & Plen & Pcase).
  split; [done|]. split; [by rewrite Plen|]. split; [by rewrite Plen|].
  rewrite !Pset, Hs.
  destruct (settled_at s on) as [v|] eqn:Ea; destruct Pcase as [Pq Pr].
  - split; [right; exists (reaction_job k v);
            split; [rewrite Pq; apply elem_of_app; right; by left|
                    by apply resumes_target]|].
    split; [|split].
    + intros j. rewrite Pq. intros [Hj|Hj%list_elem_of_singleton]%elem_of_app Ht.
      * by destruct (Uq j Hj).
      * subst j. right. by exists v.
    + intros q k'. rewrite Pr. intros Hk' Ht. by destruct (Ur q k' Hk').
    + intros c l. unfold listeners_at. rewrite Pch. apply Hl.
  - split; [left; split; [done|]; rewrite Pr, decide_True by done;
            apply elem_of_app; right; by left|].
    split; [|split].
    + intros j. rewrite Pq. intros Hj Ht. by destruct (Uq j Hj).
    + intros q k'. rewrite Pr. destruct (decide _) as [->|].
      * intros [Hk'|Hk'%list_elem_of_singleton]%elem_of_app Ht;
          [by destruct (Ur _ k' Hk')|done].
      * intros Hk' Ht. by destruct (Ur q k' Hk').
    + intros c l. unfold listeners_at. rewrite Pch. apply Hl.
Qed.

Lemma awaits_thenable self on s :
  self < length (promises s) → on < length (promises s) → fresh_at self s →
  awaits (resolve_function self) self on (enqueue (resolve_thenable_job self on) s).
Proof.
  intros Hlen Hon (Hs & [Uq Ur] & Hl).
  split; [done|]. split; [done|]. split; [done|].
  change (settled_at (enqueue (resolve_thenable_job self on) s) self)
    with (settled_at s self). rewrite Hs.
  split; [|split; [|split]].
  - right. exists (resolve_thenable_job self on). split; [|done].
    simpl. apply elem_of_app. right. by left.
  - intros j. simpl. intros [Hj|Hj%list_elem_of_singleton]%elem_of_app Ht.
    + by destruct (Uq j Hj).
    + left. by subst.
  - intros q k Hk Ht. by destruct (Ur q k Hk).
  - done.
Qed.

Lemma kills_at_child_kill c s c' :
  kills_at (child_kill c s) c' =
  if decide (c' = c ∧ c < length (children s)) then S (kills_at s c) else kills_at s c'.
Proof.
  unfold child_kill, kills_at. destruct (children s !! c) as [[sa io ex ls n]|] eqn:E.
  - assert (c < length (children s)) by (by eapply lookup_lt_Some). simpl.
    destruct (decide (c' = c)) as [->|].
    + rewrite decide_True by done. by rewrite list_lookup_insert_eq.
    + rewrite decide_False by (by intros []). by rewrite list_lookup_insert_ne.
  - apply lookup_ge_None_1 in E. rewrite decide_False by (intros []; lia). done.
Qed.

Lemma children_set_restarting rp v s : children (set_restarting rp v s) = children s.
Proof. unfold set_restarting. by destruct (restartables s !! rp) as [[]|]. Qed.

Lemma children_perform_then q k s : children (perform_then q k s) = children s.
Proof. unfold perform_then. by destruct (promises s !! q) as [[[u|] ks vs]|]. Qed.

Lemma restartables_perform_then q k s :
  restartables (perform_then q k s) = restartables s.
Proof. unfold perform_then. by destruct (promises s !! q) as [[[u|] ks vs]|]. Qed.

Lemma restartables_child_kill c s : restartables (child_kill c s) = restartables s.
Proof. unfold child_kill. by destruct (children s !! c) as [[]|]. Qed.

Lemma global_spawn_perform_then q k s :
  global_spawn (perform_then q k s) = global_spawn s.
Proof. unfold perform_then. by destruct (promises s !! q) as [[[u|] ks vs]|]. Qed.

Lemma global_spawn_set_restarting rp v s :
  global_spawn (set_restarting rp v s) = global_spawn s.
Proof. unfold set_restarting. by destruct (restartables s !! rp) as [[]|]. Qed.

(** [close] on a restartable process that holds a child. *)
Lemma close_running rp r sp s :
  bounded s → restartables s !! rp = Some r → spawned r = Some sp →
  closed sp < length (promises s) →
  let pc := length (promises s) in
  (close rp s).2 = pc ∧
  awaits (close_resume rp pc) pc (closed sp) (close rp s).1 ∧
  restartables (close rp s).1 =
    <[rp := mk_restartable (rp_command r) (rp_args r) (rp_options r) None
              (Some (closed sp))]> (restartables s) ∧
  children (close rp s).1 = children (child_kill (sp_child sp) s) ∧
  global_spawn (close rp s).1 = global_spawn s ∧
  length (promises (close rp s).1) = S (length (promises s)) ∧
  settled_at (close rp s).1 pc = None.
Proof.
  intros B Hr Hsp Hcl pc. unfold close, get_spawned, fresh_promise.
  change (restartables (new_promise s)) with (restartables s).
  rewrite Hr. simpl. rewrite Hsp. cbn [fst snd].
  set (sA := set_spawned rp None _).
  assert (F : frame0 (λ t, t ≠ pc) (new_promise s) sA).
  { unfold sA. eapply frame0_trans; [|apply frame_set_spawned].
    eapply frame0_trans; [|apply frame_child_kill]. apply frame_set_restarting. }
  assert (LA : length (promises sA) = S (length (promises s))).
  { unfold sA. rewrite len_set_spawned, len_child_kill, len_set_restarting,
      len_new_promise. done. }
  assert (Hfr : fresh_at pc sA).
  { eapply fresh_at_frame0; [|exact F]. by apply fresh_at_new_promise. }
  split; [done|]. split; [|split; [|split; [|split; [|split]]]].
  - apply awaits_perform_then; [done|lia|lia|done].
  - rewrite restartables_perform_then. unfold sA, set_spawned.
    rewrite restartables_child_kill. unfold set_restarting.
    change (restartables (new_promise s)) with (restartables s). rewrite Hr.
    destruct r as [cm ar op sp0 rs]. simpl. rewrite list_lookup_insert_eq
      by (by eapply lookup_lt_Some). simpl. by rewrite list_insert_insert_eq.
  - rewrite children_perform_then. unfold sA.
    rewrite children_set_spawned. unfold child_kill at 1 2.
    rewrite children_set_restarting.
    change (children (new_promise s)) with (children s).
    destruct (children s !! sp_child sp) as [[]|]; simpl;
      by rewrite ?children_set_restarting.
  - rewrite global_spawn_perform_then. unfold sA.
    by rewrite global_spawn_set_spawned, global_spawn_child_kill,
      global_spawn_set_restarting.
  - by rewrite len_perform_then.
  - destruct (perform_then_spec (closed sp) (close_resume rp pc) sA ltac:(lia))
      as (Pset & _). rewrite Pset. apply Hfr.
Qed.

(** ** The handles of a restartable process *)

Lemma restartables_unregister c s : restartables (unregister c s) = restartables s.
Proof. unfold unregister. by destruct (negb _). Qed.

Lemma restartables_despawn c s : restartables (despawn c s).1 = restartables s.
Proof.
  unfold despawn. cbn [fst]. by rewrite restartables_child_kill, restartables_once_close.
Qed.

Lemma restartables_despawn_each cs s :
  restartables (despawn_each cs s).1 = restartables s.
Proof.
  revert s. induction cs as [|c cs IH]; intros s; [done|].
  rewrite despawn_each_cons. cbn [fst]. by rewrite IH, restartables_despawn.
Qed.

Lemma restartables_all_then agg i ps s :
  restartables (all_then agg i ps s) = restartables s.
Proof.
  revert i s. induction ps as [|p ps IH]; intros i s; [done|].
  simpl. by rewrite IH, restartables_perform_then.
Qed.

Lemma restartables_all_settle agg s : restartables (all_settle agg s) = restartables s.
Proof.
  unfold all_settle. destruct (promises s !! agg) as [x|]; [|done].
  destruct (mapM id (values x)); [|done]. apply restartables_resolve.
Qed.

Lemma restartables_set_element agg i v s :
  restartables (set_element agg i v s) = restartables s.
Proof. unfold set_element. by destruct (promises s !! agg) as [[]|]. Qed.

Lemma restartables_promise_all ps s : restartables (promise_all ps s).1 = restartables s.
Proof.
  unfold promise_all. cbn [fst]. by rewrite restartables_all_settle, restartables_all_then.
Qed.

Lemma restartables_despawn_all s : restartables (despawn_all s).1 = restartables s.
Proof.
  by rewrite despawn_all_eq, restartables_promise_all, restartables_despawn_each.
Qed.

Lemma restartables_handle_fatal_error err lb s :
  restartables (handle_fatal_error err lb s).1 = restartables s.
Proof.
  rewrite handle_fatal_error_eq. cbn [fst].
  by rewrite restartables_perform_then, restartables_despawn_all.
Qed.

Lemma restartables_handle_unhandled_rejection f err s :
  restartables (handle_unhandled_rejection f err s).1 = restartables s.
Proof.
  unfold handle_unhandled_rejection.
  destruct (instanceof_Error err); apply restartables_handle_fatal_error.
Qed.

Lemma restartables_foldl {X} (f : state → X → state) xs s :
  (∀ s x, restartables (f s x) = restartables s) →
  restartables (foldl f s xs) = restartables s.
Proof.
  intros Hf. revert s. induction xs as [|x xs IH]; intros s; [done|].
  simpl. by rewrite IH, Hf.
Qed.

Lemma restartables_close_child c cd sg s :
  restartables (close_child c cd sg s) = restartables s.
Proof. unfold close_child. by destruct (children s !! c) as [[]|]. Qed.

Lemma restartables_emit_close c cd sg s :
  restartables (emit_close c cd sg s) = restartables s.
Proof.
  unfold emit_close. rewrite restartables_foldl; [apply restartables_close_child|].
  intros s0 [p|p]; simpl; by rewrite restartables_resolve, ?restartables_unregister.
Qed.

Lemma closing_framed c p s s' :
  closing c p s → frame0 (λ t, t ≠ p) s s' → closing c p s'.
Proof.
  intros Hcl F. destruct (exited_at s c) as [[cd sg]|] eqn:Hx;
    [|by eapply closing_frame0].
  destruct Hcl as (Hc & Hp & H). rewrite Hx in H.
  split; [pose proof (fr_children _ _ _ F); lia|].
  split; [pose proof (fr_len _ _ _ F); lia|].
  rewrite (fr_exited _ _ _ F), Hx. by apply (fr_mono _ _ _ F).
Qed.

Lemma closing_pop c p j q s :
  microtasks s = j :: q → closing c p s → closing c p (set_microtasks q s).
Proof.
  intros E (Hc & Hp & H). split; [done|]. split; [done|].
  change (exited_at (set_microtasks q s) c) with (exited_at s c).
  destruct (exited_at s c) as [[cd sg]|]; [done|].
  destruct H as (Hs & Hu & Hl & Ho). split; [done|].
  split; [by eapply untargeted_pop|done].
Qed.

Lemma rp_ok_intro s s' :
  rp_ok s → (∀ c p, closing c p s → closing c p s') → rp_frame s s' → rp_ok s'.
Proof.
  intros Hok Hcl Hf rp r' Hr'. destruct (Hf rp r' Hr') as [Hs Hg]. split.
  - intros sp Hsp. destruct (Hs sp Hsp) as [(rp0 & r & Hr & Hsp0)|?]; [|done].
    apply Hcl. by apply (Hok rp0 r Hr).
  - intros p Hp. destruct (Hg p Hp) as [(rp0 & r & Hr & [Hp0|(sp & Hsp & <-)])|?];
      [| |done].
    + destruct (proj2 (Hok rp0 r Hr) p Hp0) as [c Hc]. exists c. by apply Hcl.
    + exists (sp_child sp). apply Hcl. by apply (Hok rp0 r Hr).
Qed.

Lemma rp_frame_same s s' : restartables s' = restartables s → rp_frame s s'.
Proof.
  intros E rp r' Hr'. rewrite E in Hr'. split.
  - intros sp Hsp. left. by exists rp, r'.
  - intros p Hp. left. exists rp, r'. split; [done|by left].
Qed.

Lemma rp_frame_trans s1 s2 s3 :
  rp_frame s1 s2 → rp_frame s2 s3 → (∀ c p, closing c p s2 → closing c p s3) →
  rp_frame s1 s3.
Proof.
  intros H12 H23 Hcl rp r3 Hr3. destruct (H23 rp r3 Hr3) as [Hs Hg]. split.
  - intros sp Hsp. destruct (Hs sp Hsp) as [(rp0 & r2 & Hr2 & Hsp2)|?]; [|by right].
    destruct (proj1 (H12 rp0 r2 Hr2) sp Hsp2) as [?|?]; [by left|right; by apply Hcl].
  - intros p Hp. destruct (Hg p Hp) as [(rp0 & r2 & Hr2 & [Hp2|(sp & Hsp2 & <-)])|?];
      [| |by right].
    + destruct (proj2 (H12 rp0 r2 Hr2) p Hp2) as [?|[c ?]]; [by left|].
      right. exists c. by apply Hcl.
    + destruct (proj1 (H12 rp0 r2 Hr2) sp Hsp2) as [(rp1 & r1 & Hr1 & Hsp1)|?].
      * left. exists rp1, r1. split; [done|]. right. by exists sp.
      * right. exists (sp_child sp). by apply Hcl.
Qed.

(** [respawn]: the new handle is right. *)
Lemma respawn_spec rp r s :
  bounded s → restartables s !! rp = Some r →
  let c := length (children s) in
  let p := length (promises s) in
  restartables (respawn rp s) =
    <[rp := mk_restartable (rp_command r) (rp_args r) (rp_options r)
              (Some (mk_spawned c p)) (restarting r)]> (restartables s) ∧
  closing c p (respawn rp s).
Proof.
  intros B Hr c p. unfold respawn. rewrite Hr.
  destruct (spawn_process _ _ _ s) as [s1 sp] eqn:E.
  assert (E1 : s1 = (spawn_process (rp_command r) (rp_args r)
                       (inherit_stdio (rp_options r)) s).1) by (by rewrite E).
  assert (E2 : sp = mk_spawned c p).
  { replace sp with (spawn_process (rp_command r) (rp_args r)
                       (inherit_stdio (rp_options r)) s).2 by (by rewrite E).
    by rewrite snd_spawn_process. }
  subst sp. split.
  - unfold set_spawned. rewrite E1, restartables_spawn_process, Hr. by destruct r.
  - eapply closing_framed; [|apply frame_set_spawned].
    rewrite E1. by apply closing_spawn_process.
Qed.

Lemma rp_old_frame s s' : rp_old s s' → rp_frame s s'.
Proof.
  intros H rp r' Hr'. destruct (H rp r' Hr') as [Hs Hg].
  split; [intros sp Hsp|intros p Hp]; left; auto.
Qed.

Lemma rp_old_eq s s' t t' :
  restartables t = restartables s → restartables t' = restartables s' →
  rp_old s s' → rp_old t t'.
Proof. unfold rp_old. by intros -> ->. Qed.

Lemma rp_old_same s s' : restartables s' = restartables s → rp_old s s'.
Proof.
  intros E rp r' Hr'. rewrite E in Hr'. split.
  - intros sp Hsp. by exists rp, r'.
  - intros p Hp. exists rp, r'. split; [done|by left].
Qed.

Lemma rp_old_insert rp r r' s s' :
  restartables s !! rp = Some r → restartables s' = <[rp := r']> (restartables s) →
  (∀ sp, spawned r' = Some sp → spawned r = Some sp) →
  (∀ p, restarting r' = Some p →
     restarting r = Some p ∨ (∃ sp, spawned r = Some sp ∧ closed sp = p)) →
  rp_old s s'.
Proof.
  intros Hr E Hs Hg rp1 r1. rewrite E. intros H1.
  apply list_lookup_insert_Some in H1 as [(Erp & Er & _)|[Hn H1]].
  - subst rp1 r1. split.
    + intros sp Hsp. exists rp, r. auto.
    + intros p Hp. exists rp, r. split; [done|]. by apply Hg.
  - split.
    + intros sp Hsp. by exists rp1, r1.
    + intros p Hp. exists rp1, r1. split; [done|by left].
Qed.

Lemma rp_frame_insert rp r r' s s' :
  restartables s !! rp = Some r → restartables s' = <[rp := r']> (restartables s) →
  (∀ sp, spawned r' = Some sp → spawned r = Some sp ∨ closing (sp_child sp) (closed sp) s') →
  (∀ p, restarting r' = Some p →
     restarting r = Some p ∨ (∃ sp, spawned r = Some sp ∧ closed sp = p)) →
  rp_frame s s'.
Proof.
  intros Hr E Hs Hg rp1 r1. rewrite E. intros H1.
  apply list_lookup_insert_Some in H1 as [(Erp & Er & _)|[Hn H1]].
  - subst rp1 r1. split.
    + intros sp Hsp. destruct (Hs sp Hsp) as [?|?]; [left; by exists rp, r|by right].
    + intros p Hp. left. exists rp, r. split; [done|]. by apply Hg.
  - split.
    + intros sp Hsp. left. by exists rp1, r1.
    + intros p Hp. left. exists rp1, r1. split; [done|by left].
Qed.

Lemma rp_old_close rp s :
  bounded s → rp_ok s → rp_old s (close rp s).1.
Proof.
  intros B Hok. destruct (restartables s !! rp) as [r|] eqn:Hr.
  - destruct (spawned r) as [sp|] eqn:Hsp.
    + destruct (proj1 (Hok rp r Hr) sp Hsp) as (_ & Hp & _).
      destruct (close_running rp r sp s B Hr Hsp Hp) as (_ & _ & E & _).
      apply (rp_old_insert rp r _ s _ Hr E); simpl; [done|].
      intros p [= <-]. right. by exists sp.
    + apply rp_old_same. unfold close, get_spawned.
      change (restartables (new_promise s)) with (restartables s).
      rewrite Hr. cbn [mbind option_bind]. rewrite Hsp. cbn [fst].
      by rewrite restartables_resolve.
  - apply rp_old_same. unfold close, get_spawned.
    change (restartables (new_promise s)) with (restartables s).
    rewrite Hr. cbn [mbind option_bind fst]. by rewrite restartables_resolve.
Qed.

(** A promise nothing can resolve yet is the [closed] promise of no child. *)
Lemma fresh_at_not_closing self c s : fresh_at self s → ¬ closing c self s.
Proof.
  intros (Hs & _ & Hl) (_ & _ & H). destruct (exited_at s c) as [[cd sg]|].
  - congruence.
  - destruct H as (_ & _ & Hin & _). by apply (Hl c _ Hin).
Qed.

Lemma rp_frame_restart rp s :
  bounded s → rp_ok s → rp_frame s (restart rp s).1.
Proof.
  intros B Hok. unfold restart, get_restarting, get_spawned, fresh_promise.
  change (restartables (new_promise s)) with (restartables s).
  assert (B0 : bounded (new_promise s)) by (by apply bounded_new_promise).
  assert (Hok0 : rp_ok (new_promise s)).
  { eapply rp_ok_intro; [exact Hok| |by apply rp_frame_same].
    intros c p Hcl. eapply closing_framed; [done|]. apply frame_new_promise.
    destruct Hcl as (_ & ? & _). lia. }
  destruct (restartables s !! rp) as [r|] eqn:Hr; cbn [mbind option_bind].
  - destruct (restarting r) as [p|] eqn:Hg; cbn [fst]; [by apply rp_frame_same|].
    destruct (spawned r) as [sp|] eqn:Hsp.
    + destruct (close rp (new_promise s)) as [s1 pc] eqn:E. cbn [fst].
      replace s1 with (close rp (new_promise s)).1 by (by rewrite E).
      apply rp_old_frame.
      apply (rp_old_eq (new_promise s) (close rp (new_promise s)).1); [done| |].
      * by rewrite restartables_perform_then.
      * by apply rp_old_close.
    + cbn [fst]. destruct (respawn_spec rp r (new_promise s) B0 Hr) as [Er Hcl].
      eapply rp_frame_insert; [exact Hr| | |].
      * by rewrite restartables_resolve, Er.
      * simpl. intros sp [= <-]. right. simpl.
        eapply closing_framed; [exact Hcl|]. apply frame_resolve.
        rewrite length_app. simpl. lia.
      * simpl. intros p Hp. by left.
  - cbn [fst]. apply rp_frame_same. rewrite restartables_resolve.
    unfold respawn. change (restartables (new_promise s)) with (restartables s).
    by rewrite Hr.
Qed.

Lemma rp_frame_kill rp s :
  bounded s → rp_ok s → rp_frame s (kill rp s).1.
Proof.
  intros B Hok. unfold kill, get_restarting, fresh_promise.
  change (restartables (new_promise s)) with (restartables s).
  assert (B0 : bounded (new_promise s)) by (by apply bounded_new_promise).
  assert (Hok0 : rp_ok (new_promise s)).
  { eapply rp_ok_intro; [exact Hok| |by apply rp_frame_same].
    intros c p Hcl. eapply closing_framed; [done|]. apply frame_new_promise.
    destruct Hcl as (_ & ? & _). lia. }
  destruct (restartables s !! rp ≫= restarting) as [p|] eqn:Hg; cbn [fst].
  { apply rp_frame_same. by rewrite restartables_perform_then. }
  destruct (close rp (new_promise s)) as [s1 pc] eqn:E. cbn [fst].
  replace s1 with (close rp (new_promise s)).1 by (by rewrite E).
  apply rp_old_frame.
  apply (rp_old_eq (new_promise s) (close rp (new_promise s)).1); [done| |].
  - by rewrite restartables_perform_then.
  - by apply rp_old_close.
Qed.

Lemma rp_frame_spawn_restartable_process cm ar o s :
  bounded s → rp_ok s → rp_frame s (spawn_restartable_process cm ar o s).1.
Proof.
  intros B Hok. unfold spawn_restartable_process. cbn [fst].
  set (s1 := set_restartables _ s).
  assert (B1 : bounded s1) by done.
  assert (Hcl1 : ∀ c p, closing c p s → closing c p s1) by done.
  assert (Hf1 : rp_frame s s1).
  { intros rp1 r1 Hr1. unfold s1 in Hr1. simpl in Hr1.
    apply lookup_app_Some in Hr1 as [Hr1|[_ Hr1]].
    - split; [intros sp Hsp; left; by exists rp1, r1|].
      intros p Hp. left. exists rp1, r1. split; [done|by left].
    - apply list_lookup_singleton_Some in Hr1 as [_ <-]. by split. }
  assert (Hok1 : rp_ok s1) by (by eapply rp_ok_intro).
  eapply rp_frame_trans; [exact Hf1|by apply rp_frame_restart|].
  intros c p. apply closing_step.
  replace (restart (length (restartables s)) s1).1
    with (exec_calls [call_restart (length (restartables s))] s1); [constructor|].
  unfold exec_calls. simpl. by destruct (restart _ s1).
Qed.

Lemma rp_frame_exec_call c s :
  bounded s → rp_ok s → rp_frame s (exec_call c s).1.
Proof.
  revert s. induction c as [cm ar o|cm ar o|c| |f|cm ar o|rp|rp|k|c IH k];
    intros s B Hok; cbn [exec_call].
  - destruct (spawn_process cm ar o s) as [s1 sp] eqn:E. cbn [fst].
    replace s1 with (spawn_process cm ar o s).1 by (by rewrite E).
    apply rp_frame_same, restartables_spawn_process.
  - unfold spawn. destruct (spawn_process cm ar o s) as [s1 sp] eqn:E. cbn [fst].
    replace s1 with (spawn_process cm ar o s).1 by (by rewrite E).
    apply rp_frame_same, restartables_spawn_process.
  - destruct (despawn c s) as [s1 p] eqn:E. cbn [fst].
    replace s1 with (despawn c s).1 by (by rewrite E).
    apply rp_frame_same, restartables_despawn.
  - destruct (despawn_all s) as [s1 p] eqn:E. cbn [fst].
    replace s1 with (despawn_all s).1 by (by rewrite E).
    apply rp_frame_same, restartables_despawn_all.
  - by apply rp_frame_same.
  - by apply rp_frame_spawn_restartable_process.
  - destruct (restart rp s) as [s1 p] eqn:E. cbn [fst].
    replace s1 with (restart rp s).1 by (by rewrite E). by apply rp_frame_restart.
  - destruct (kill rp s) as [s1 p] eqn:E. cbn [fst].
    replace s1 with (kill rp s).1 by (by rewrite E). by apply rp_frame_kill.
  - by apply rp_frame_same.
  - destruct (exec_call c s) as [s1 [p|]] eqn:E; cbn [fst];
      replace s1 with (exec_call c s).1 by (by rewrite E); [|by apply IH].
    eapply rp_frame_trans; [by apply IH| |].
    + apply rp_frame_same, restartables_perform_then.
    + intros c' p' Hcl. eapply closing_framed; [done|]. apply frame_perform_then.
      by intros t.
Qed.

Lemma step_exec_call c s : step s (exec_call c s).1.
Proof.
  replace (exec_call c s).1 with (exec_calls [c] s) by done. constructor.
Qed.

Lemma rp_ok_exec_calls k s : bounded s → rp_ok s → rp_ok (exec_calls k s).
Proof.
  revert s. induction k as [|c k IH]; intros s Hwf Hok; [done|].
  change (exec_calls (c :: k) s) with (exec_calls k (exec_call c s).1).
  apply IH.
  - eapply bounded_step; [apply step_exec_call|done].
  - eapply rp_ok_intro; [exact Hok| |by apply rp_frame_exec_call].
    intros c' p. apply closing_step, step_exec_call.
Qed.

Lemma rp_ok_pop j q s : microtasks s = j :: q → rp_ok s → rp_ok (set_microtasks q s).
Proof.
  intros E Hok. eapply rp_ok_intro; [exact Hok| |by apply rp_frame_same].
  intros c p. by apply (closing_pop c p j).
Qed.

Lemma rp_ok_step s s' : step s s' → bounded s → rp_ok s → rp_ok s'.
Proof.
  intros Hstep Hwf Hok.
  assert (Hcl : ∀ c p, closing c p s → closing c p s')
    by (intros c p; by apply closing_step).
  destruct Hstep as [k s|j q s E|c cd sg s E Hc|err o s|err s].
  - by apply rp_ok_exec_calls.
  - pose proof (bounded_pop _ _ _ E Hwf) as Hwf0.
    pose proof (rp_ok_pop _ _ _ E Hok) as Hok0.
    set (s0 := set_microtasks q s) in *.
    destruct j as [k v|t th|k]; cbn [run_job] in *.
    + destruct k as [rp p|rp p|rp p|p|p|p i|p|k]; cbn [run_cont] in *.
      * eapply rp_ok_intro; [exact Hok|done|].
        destruct (restartables s !! rp) as [r|] eqn:Hr.
        -- apply (rp_frame_insert rp r
              (mk_restartable (rp_command r) (rp_args r) (rp_options r) (spawned r) None)
              s _ Hr).
           ++ rewrite restartables_resolve. unfold set_restarting.
              change (restartables s0) with (restartables s). rewrite Hr. by destruct r.
           ++ simpl. by left.
           ++ done.
        -- apply rp_frame_same. rewrite restartables_resolve. unfold set_restarting.
           change (restartables s0) with (restartables s). by rewrite Hr.
      * eapply rp_ok_intro; [exact Hok|done|].
        destruct (restartables s !! rp) as [r|] eqn:Hr.
        -- destruct (respawn_spec rp r s0 Hwf0 Hr) as [Er Hcl'].
           eapply rp_frame_insert; [exact Hr| | |].
           ++ by rewrite restartables_resolve, Er.
           ++ simpl. intros sp [= <-]. right. simpl.
              eapply closing_framed; [exact Hcl'|]. apply frame_resolve.
              destruct Hwf as (Bq & _).
              specialize (Bq (reaction_job (restart_resume rp p) v) p).
              rewrite E in Bq. change (promises s0) with (promises s).
              specialize (Bq ltac:(by left) eq_refl). lia.
           ++ simpl. intros p' Hp'. by left.
        -- apply rp_frame_same. rewrite restartables_resolve.
           unfold respawn. change (restartables s0) with (restartables s).
           by rewrite Hr.
      * eapply rp_ok_intro; [exact Hok|done|].
        destruct (close rp s0) as [s1 pc] eqn:Ec.
        replace s1 with (close rp s0).1 by (by rewrite Ec).
        apply rp_old_frame.
        apply (rp_old_eq s0 (close rp s0).1); [done| |].
        -- by rewrite restartables_perform_then.
        -- by apply rp_old_close.
      * eapply rp_ok_intro; [exact Hok|done|].
        apply rp_frame_same. by rewrite restartables_resolve.
      * eapply rp_ok_intro; [exact Hok|done|].
        apply rp_frame_same. by rewrite restartables_resolve.
      * eapply rp_ok_intro; [exact Hok|done|].
        apply rp_frame_same. by rewrite restartables_all_settle, restartables_set_element.
      * eapply rp_ok_intro; [exact Hok|done|].
        apply rp_frame_same. by rewrite restartables_resolve.
      * by apply rp_ok_exec_calls.
    + eapply rp_ok_intro; [exact Hok|done|].
      apply rp_frame_same. by rewrite restartables_perform_then.
    + by apply rp_ok_exec_calls.
  - eapply rp_ok_intro; [exact Hok|done|].
    apply rp_frame_same, restartables_emit_close.
  - eapply rp_ok_intro; [exact Hok|done|].
    apply rp_frame_same. unfold emit_uncaught_exception.
    apply restartables_foldl. intros ??. apply restartables_handle_fatal_error.
  - eapply rp_ok_intro; [exact Hok|done|].
    apply rp_frame_same. unfold emit_unhandled_rejection.
    apply restartables_foldl. intros ??. apply restartables_handle_unhandled_rejection.
Qed.

Lemma rp_ok_steps s s' : rtc step s s' → bounded s → rp_ok s → rp_ok s'.
Proof.
  induction 1 as [|s1 s2 s3 H12 _ IH]; [done|]. intros Hwf Hok.
  apply IH; [by eapply bounded_step|by eapply rp_ok_step].
Qed.

Lemma reachable_rp_ok s : reachable s → rp_ok s.
Proof.
  intros H. eapply rp_ok_steps; [exact H|apply wf_initial|].
  intros rp r Hr. simpl in Hr. by rewrite lookup_nil in Hr.
Qed.

Lemma get_spawned_Some rp sp s :
  get_spawned rp s = Some sp ↔ ∃ r, restartables s !! rp = Some r ∧ spawned r = Some sp.
Proof.
  unfold get_spawned. destruct (restartables s !! rp) as [r|]; simpl.
  - split; [by exists r|by intros (? & [= <-] & ?)].
  - split; [done|by intros (? & ? & _)].
Qed.

Lemma get_restarting_None rp r s :
  restartables s !! rp = Some r → get_restarting rp s = None → restarting r = None.
Proof. unfold get_restarting. by intros ->. Qed.

(** The handles stay right in the runs of a program that writes the
    registry itself: a call on the registry touches no promise, no
    child and no restartable process. *)
Lemma open_run_rp_ok held s : open_run held s → bounded s ∧ rp_ok s.
Proof.
  induction 1 as [|held s s' _ [B Hok] Hstep|held r s _ [B Hok] _].
  - split; [apply wf_initial|]. intros rp r Hr. simpl in Hr.
    by rewrite lookup_nil in Hr.
  - split; [by eapply bounded_step|by eapply rp_ok_step].
  - destruct (exec_registry_call_tables r s) as (Hc & Hp & Hq & Hr & _).
    assert (F : ∀ A, frame0 A s (exec_registry_call r s))
      by (intros A; by apply frame0_same).
    split.
    + eapply bounded_frame0; [exact B|apply F].
    + eapply rp_ok_intro; [exact Hok| |by apply rp_frame_same].
      intros c p Hcl. eapply closing_framed; [exact Hcl|apply F].
Qed.

(** In every state of every run, those of a program that writes the
    registry itself included, the handle a restartable process holds is
    one [spawn_process] made: its [closed] promise is pending exactly
    while its child runs, and is fulfilled with the result of the
    child's [close] event afterwards. *)
Theorem restartable_handle_is_live rp sp s :
  open_reachable s → get_spawned rp s = Some sp →
  (settled_at s (closed sp) = None ↔ is_running (sp_child sp) s) ∧
  (∀ cd sg, exited_at s (sp_child sp) = Some (cd, sg) →
     settled_at s (closed sp) = Some (V_result (spawn_result (sp_child sp) cd sg))).
Proof.
  intros [held Hre] (r & Hr & Hsp)%get_spawned_Some.
  destruct (proj1 (proj2 (open_run_rp_ok _ _ Hre) rp r Hr) sp Hsp) as (Hc & Hp & H).
  rewrite is_running_exited_at.
  destruct (exited_at s (sp_child sp)) as [[cd sg]|].
  - split; [split; [congruence|by intros [_ ?]]|]. by intros ?? [= <- <-].
  - destruct H as (Hs & _). split; [done|]. by intros ?? [=].
Qed.

Lemma kill_running rp sp s s' :
  reachable s → get_restarting rp s = None → get_spawned rp s = Some sp →
  rtc step (kill rp s).1 s' →
  (kills_at (kill rp s).1 (sp_child sp) = S (kills_at s (sp_child sp)) ∧
   get_spawned rp (kill rp s).1 = None ∧
   get_restarting rp (kill rp s).1 = Some (closed sp) ∧
   global_spawn (kill rp s).1 = global_spawn s) ∧
  (∀ v, settled_at s' (kill rp s).2 = Some v →
     v = V_undefined ∧ is_Some (exited_at s' (sp_child sp))) ∧
  (is_Some (exited_at s' (sp_child sp)) → microtasks s' = [] →
   settled_at s' (kill rp s).2 = Some V_undefined).
Proof.
  intros Hre Hg (r & Hr & Hsp)%get_spawned_Some Hsteps.
  pose proof (reachable_wf _ Hre) as [B Hreg].
  pose proof (proj1 (reachable_rp_ok _ Hre rp r Hr) sp Hsp) as Hcl.
  assert (Hcl1 : closing (sp_child sp) (closed sp) (kill rp s).1).
  { eapply closing_step; [|exact Hcl].
    replace (kill rp s).1 with (exec_call (call_kill rp) s).1; [apply step_exec_call|].
    simpl. by destruct (kill rp s). }
  pose proof (closing_steps _ _ _ _ Hsteps Hcl1) as (_ & _ & Hcl').
  revert Hsteps Hcl1. unfold kill, fresh_promise.
  change (get_restarting rp (new_promise s)) with (get_restarting rp s). rewrite Hg.
  set (s0 := new_promise s). set (self := length (promises s)).
  assert (B0 : bounded s0) by (by apply bounded_new_promise).
  assert (Hp0 : closed sp < length (promises s0)).
  { destruct Hcl as (_ & ? & _). unfold s0. rewrite len_new_promise. lia. }
  destruct (close_running rp r sp s0 B0 Hr Hsp Hp0)
    as (Epc & Hawc & Er & Ech & Egs & Elen & Hpc).
  destruct (close rp s0) as [s1 pc] eqn:Ec. cbn [fst snd] in *. subst pc.
  assert (L0 : length (promises s0) = S self) by apply len_new_promise.
  assert (Hfr : fresh_at self s1).
  { eapply fresh_at_frame0; [by apply fresh_at_new_promise|].
    replace s1 with (close rp s0).1 by (by rewrite Ec).
    apply frame_close. intros t Ht _. unfold self. lia. }
  set (sF := perform_then (length (promises s0)) (kill_resume_close self) s1).
  assert (Hawk : awaits (kill_resume_close self) self (length (promises s0)) sF).
  { apply awaits_perform_then; [done|lia|lia|done]. }
  assert (Hawc' : awaits (close_resume rp (length (promises s0)))
                    (length (promises s0)) (closed sp) sF).
  { eapply awaits_frame0; [exact Hpc|exact Hawc|].
    apply frame_perform_then. intros t [= <-]. lia. }
  intros Hsteps Hcl1.
  pose proof (awaits_order _ _ _ _ (awaits_steps _ _ _ _ _ Hsteps Hawk)) as [Ok1 Ok2].
  pose proof (awaits_order _ _ _ _ (awaits_steps _ _ _ _ _ Hsteps Hawc')) as [Oc1 Oc2].
  split; [|split].
  - split; [|split; [|split]].
    + unfold kills_at, sF. rewrite children_perform_then, Ech.
      fold (kills_at (child_kill (sp_child sp) s0) (sp_child sp)).
      rewrite kills_at_child_kill, decide_True; [done|].
      split; [done|]. by destruct Hcl as (? & _).
    + unfold get_spawned, sF. rewrite restartables_perform_then, Er.
      rewrite list_lookup_insert_eq by (by eapply lookup_lt_Some). done.
    + unfold get_restarting, sF. rewrite restartables_perform_then, Er.
      rewrite list_lookup_insert_eq by (by eapply lookup_lt_Some). done.
    + unfold sF. by rewrite global_spawn_perform_then, Egs.
  - intros v Hv. destruct (Ok1 v Hv) as (w & Hw & ->). split; [done|].
    destruct (Oc1 w Hw) as (u & Hu & _).
    destruct (exited_at s' (sp_child sp)) as [[cd sg]|]; [done|].
    destruct Hcl' as (Hn & _). congruence.
  - intros [[cd sg] Hx] Hq. rewrite Hx in Hcl'.
    destruct (Oc2 ltac:(by eexists) Hq) as [w Hw].
    destruct (Ok2 ltac:(by eexists) Hq) as [v Hv].
    destruct (Ok1 v Hv) as (? & _ & ->). done.
Qed.

(** [kill] when no close is in flight: the child the restartable
    process holds is killed and let go of at once; the promise of
    [kill] is fulfilled, with [undefined], only after that child has
    closed, and it is fulfilled once the child has closed and no
    microtask is left. *)
Theorem kill_waits_for_close rp sp s s' :
  reachable s → get_restarting rp s = None → get_spawned rp s = Some sp →
  rtc step (kill rp s).1 s' →
  (kills_at (kill rp s).1 (sp_child sp) = S (kills_at s (sp_child sp)) ∧
   get_spawned rp (kill rp s).1 = None ∧
   get_restarting rp (kill rp s).1 = Some (closed sp) ∧
   global_spawn (kill rp s).1 = global_spawn s) ∧
  (∀ v, settled_at s' (kill rp s).2 = Some v →
     v = V_undefined ∧ is_Some (exited_at s' (sp_child sp))) ∧
  (is_Some (exited_at s' (sp_child sp)) → microtasks s' = [] →
   settled_at s' (kill rp s).2 = Some V_undefined).
Proof. apply kill_running. Qed.

(** [restart] when no close is in flight and a child is held: the
    child is killed and let go of at once and no child is spawned yet;
    the promise of [restart] is fulfilled, with [undefined], only after
    that child has closed, and it is fulfilled once the child has closed
    and no microtask is left. *)
Theorem restart_waits_for_close rp sp s s' :
  reachable s → get_restarting rp s = None → get_spawned rp s = Some sp →
  rtc step (restart rp s).1 s' →
  (kills_at (restart rp s).1 (sp_child sp) = S (kills_at s (sp_child sp)) ∧
   get_spawned rp (restart rp s).1 = None ∧
   get_restarting rp (restart rp s).1 = Some (closed sp) ∧
   global_spawn (restart rp s).1 = global_spawn s ∧
   length (children (restart rp s).1) = length (children s)) ∧
  (∀ v, settled_at s' (restart rp s).2 = Some v →
     v = V_undefined ∧ is_Some (exited_at s' (sp_child sp))) ∧
  (is_Some (exited_at s' (sp_child sp)) → microtasks s' = [] →
   settled_at s' (restart rp s).2 = Some V_undefined).
Proof.
  intros Hre Hg Hgs Hsteps. pose proof Hgs as (r & Hr & Hsp)%get_spawned_Some.
  pose proof (reachable_wf _ Hre) as [B Hreg].
  pose proof (proj1 (reachable_rp_ok _ Hre rp r Hr) sp Hsp) as Hcl.
  assert (Hcl1 : closing (sp_child sp) (closed sp) (restart rp s).1).
  { eapply closing_step; [|exact Hcl].
    replace (restart rp s).1 with (exec_call (call_restart rp) s).1;
      [apply step_exec_call|].
    simpl. by destruct (restart rp s). }
  pose proof (closing_steps _ _ _ _ Hsteps Hcl1) as (_ & _ & Hcl').
  revert Hsteps Hcl1. unfold restart, fresh_promise.
  change (get_restarting rp (new_promise s)) with (get_restarting rp s). rewrite Hg.
  change (get_spawned rp (new_promise s)) with (get_spawned rp s). rewrite Hgs.
  set (s0 := new_promise s). set (self := length (promises s)).
  assert (B0 : bounded s0) by (by apply bounded_new_promise).
  assert (Hp0 : closed sp < length (promises s0)).
  { destruct Hcl as (_ & ? & _). unfold s0. rewrite len_new_promise. lia. }
  destruct (close_running rp r sp s0 B0 Hr Hsp Hp0)
    as (Epc & Hawc & Er & Ech & Egs & Elen & Hpc).
  destruct (close rp s0) as [s1 pc] eqn:Ec. cbn [fst snd] in *. subst pc.
  assert (L0 : length (promises s0) = S self) by apply len_new_promise.
  assert (Hfr : fresh_at self s1).
  { eapply fresh_at_frame0; [by apply fresh_at_new_promise|].
    replace s1 with (close rp s0).1 by (by rewrite Ec).
    apply frame_close. intros t Ht _. unfold self. lia. }
  set (sF := perform_then (length (promises s0)) (restart_resume rp self) s1).
  assert (Hawk : awaits (restart_resume rp self) self (length (promises s0)) sF).
  { apply awaits_perform_then; [done|lia|lia|done]. }
  assert (Hawc' : awaits (close_resume rp (length (promises s0)))
                    (length (promises s0)) (closed sp) sF).
  { eapply awaits_frame0; [exact Hpc|exact Hawc|].
    apply frame_perform_then. intros t [= <-]. lia. }
  intros Hsteps Hcl1.
  pose proof (awaits_order _ _ _ _ (awaits_steps _ _ _ _ _ Hsteps Hawk)) as [Ok1 Ok2].
  pose proof (awaits_order _ _ _ _ (awaits_steps _ _ _ _ _ Hsteps Hawc')) as [Oc1 Oc2].
  split; [|split].
  - split; [|split; [|split; [|split]]].
    + unfold kills_at, sF. rewrite children_perform_then, Ech.
      fold (kills_at (child_kill (sp_child sp) s0) (sp_child sp)).
      rewrite kills_at_child_kill, decide_True; [done|].
      split; [done|]. by destruct Hcl as (? & _).
    + unfold get_spawned, sF. rewrite restartables_perform_then, Er.
      rewrite list_lookup_insert_eq by (by eapply lookup_lt_Some). done.
    + unfold get_restarting, sF. rewrite restartables_perform_then, Er.
      rewrite list_lookup_insert_eq by (by eapply lookup_lt_Some). done.
    + unfold sF. by rewrite global_spawn_perform_then, Egs.
    + unfold sF. rewrite children_perform_then, Ech. unfold child_kill.
      destruct (children s0 !! sp_child sp) as [[]|]; [|done].
      simpl. by rewrite length_insert.
  - intros v Hv. destruct (Ok1 v Hv) as (w & Hw & ->). split; [done|].
    destruct (Oc1 w Hw) as (u & Hu & _).
    destruct (exited_at s' (sp_child sp)) as [[cd sg]|]; [done|].
    destruct Hcl' as (Hn & _). congruence.
  - intros [[cd sg] Hx] Hq. rewrite Hx in Hcl'.
    destruct (Oc2 ltac:(by eexists) Hq) as [w Hw].
    destruct (Ok2 ltac:(by eexists) Hq) as [v Hv].
    destruct (Ok1 v Hv) as (? & _ & ->). done.
Qed.

(** [restart] while a close is in flight spawns nothing and kills
    nothing: its promise follows the [closed] promise of the child that
    is closing.  It is fulfilled only after that child has closed, and
    then with the result of that child, not with [undefined]; and it is
    fulfilled once the child has closed and no microtask is left. *)
Theorem restart_joins_the_close rp r s :
  reachable s → get_restarting rp s = Some r →
  (children (restart rp s).1 = children s ∧
   global_spawn (restart rp s).1 = global_spawn s ∧
   restartables (restart rp s).1 = restartables s) ∧
  ∃ c, c < length (children s) ∧ ∀ s', rtc step (restart rp s).1 s' →
    (∀ v, settled_at s' (restart rp s).2 = Some v →
       ∃ cd sg, exited_at s' c = Some (cd, sg) ∧ v = V_result (spawn_result c cd sg)) ∧
    (is_Some (exited_at s' c) → microtasks s' = [] →
     is_Some (settled_at s' (restart rp s).2)).
Proof.
  intros Hre Hg. pose proof (reachable_wf _ Hre) as [B Hreg].
  assert (∃ r0, restartables s !! rp = Some r0 ∧ restarting r0 = Some r)
    as (r0 & Hr & Hg0).
  { unfold get_restarting in Hg. destruct (restartables s !! rp) as [r0|]; [|done].
    by exists r0. }
  destruct (proj2 (reachable_rp_ok _ Hre rp r0 Hr) r Hg0) as [c Hcl].
  assert (Hcl1 : closing c r (restart rp s).1).
  { eapply closing_step; [|exact Hcl].
    replace (restart rp s).1 with (exec_call (call_restart rp) s).1;
      [apply step_exec_call|].
    simpl. by destruct (restart rp s). }
  revert Hcl1. unfold restart, fresh_promise.
  change (get_restarting rp (new_promise s)) with (get_restarting rp s). rewrite Hg.
  cbn [fst snd]. intros Hcl1. split; [done|].
  exists c. split; [by destruct Hcl|]. intros s' Hsteps.
  assert (Haw : awaits (resolve_function (length (promises s))) (length (promises s)) r
                 (enqueue (resolve_thenable_job (length (promises s)) r) (new_promise s))).
  { apply awaits_thenable.
    - rewrite len_new_promise. lia.
    - destruct Hcl as (_ & ? & _). rewrite len_new_promise. lia.
    - by apply fresh_at_new_promise. }
  pose proof (awaits_order _ _ _ _ (awaits_steps _ _ _ _ _ Hsteps Haw)) as [O1 O2].
  pose proof (closing_steps _ _ _ _ Hsteps Hcl1) as (_ & _ & Hcl').
  split.
  - intros v Hv. destruct (O1 v Hv) as (w & Hw & ->). simpl.
    destruct (exited_at s' c) as [[cd sg]|].
    + exists cd, sg. split; [done|congruence].
    + destruct Hcl' as (? & _). congruence.
  - intros [[cd sg] Hx] Hq. rewrite Hx in Hcl'. apply O2; [by eexists|done].
Qed.

(** ** Fault handlers, [print_spawn_result] and [spawn_out] *)

Lemma global_spawn_new_promise s : global_spawn (new_promise s) = global_spawn s.
Proof. done. Qed.








(** Of a result the module makes, [print_spawn_result] prints ["ok"]
    when the exit code is [null] or zero, also for a child a signal
    killed; otherwise the code, and then the signal when there is
    one. *)
Theorem print_spawn_result_of_close pkv c cd sg :
  print_spawn_result pkv (spawn_result c cd sg) =
  match cd with
  | None | Some 0%Z => "ok"%string
  | Some n =>
      match sg with
      | None => pkv "code"%string (inl n)
      | Some g =>
          pkv "code"%string (inl n)
          +:+ ((if truthy_string (pkv "code"%string (inl n)) then " " else "")
               +:+ pkv "signal"%string (inr g))
      end
  end.
Proof.
  unfold print_spawn_result, spawn_result, truthy.
  destruct cd as [n|]; [|done].
  destruct (Z.eqb_spec n 0) as [->|Hn]; [done|]. simpl.
  destruct n; [done|by destruct sg..].
Qed.

(** What [spawn_out] returns for a stream is [null] when the stream
    emitted no data, and otherwise all the chunks in order, the empty
    string included. *)
Theorem spawn_out_buffer chunks :
  foldl on_data None chunks =
  match chunks with
  | [] => None
  | _ => Some (foldr String.append ""%string chunks)
  end.
Proof.
  assert (Hnil : ∀ b : string, b +:+ "" = b).
  { induction b as [|a b IH]; [done|].
    change (String a b +:+ "") with (String a (b +:+ "")). by rewrite IH. }
  assert (Hassoc : ∀ b d r : string, (b +:+ d) +:+ r = b +:+ (d +:+ r)).
  { induction b as [|a b IH]; intros d r; [done|].
    change (String a (b +:+ d) +:+ r = String a (b +:+ (d +:+ r))).
    change (String a ((b +:+ d) +:+ r) = String a (b +:+ (d +:+ r))).
    by rewrite IH. }
  assert (H : ∀ cs b, foldl on_data (Some b) cs =
                      Some (b +:+ foldr String.append ""%string cs)).
  { induction cs as [|d cs IH]; intros b.
    - cbn [foldl foldr]. by rewrite Hnil.
    - cbn [foldl foldr]. change (on_data (Some b) d) with (Some (b +:+ d)).
      by rewrite IH, Hassoc. }
  destruct chunks as [|d cs]; [done|].
  cbn [foldl foldr]. change (on_data None d) with (Some d). by rewrite H.
Qed.

(** ** Strings *)

Lemma js_substring_prefix s (n : Z) :
  (0 ≤ n)%Z → js_substring s 0 n = take (Z.to_nat n) s.
Proof.
  intros Hn. unfold js_substring, clamp_index.
  replace (Z.to_nat (Z.min (Z.max 0 0) (Z.of_nat (length s)))) with 0 by lia.
  rewrite Nat.max_0_l, Nat.min_0_l, Nat.sub_0_r, drop_0.
  destruct (decide (n ≤ Z.of_nat (length s))%Z).
  - f_equal. lia.
  - rewrite !take_ge; [done|lia|lia].
Qed.

Lemma js_substring_from_drop s (n : nat) :
  js_substring_from s (Z.of_nat n) = drop n s.
Proof.
  unfold js_substring_from, js_substring, clamp_index.
  replace (Z.to_nat (Z.min (Z.max (Z.of_nat (length s)) 0) (Z.of_nat (length s))))
    with (length s) by lia.
  destruct (decide (n ≤ length s)).
  - replace (Z.to_nat (Z.min (Z.max (Z.of_nat n) 0) (Z.of_nat (length s))))
      with n by lia.
    rewrite Nat.min_l by lia. apply take_ge. rewrite length_drop. lia.
  - replace (Z.to_nat (Z.min (Z.max (Z.of_nat n) 0) (Z.of_nat (length s))))
      with (length s) by lia.
    rewrite Nat.min_id, Nat.max_id, Nat.sub_diag.
    rewrite drop_ge by lia. by rewrite drop_ge by lia.
Qed.

Lemma js_startsWith_spec s x : js_startsWith s x = true ↔ ∃ t, s = x ++ t.
Proof.
  unfold js_startsWith. rewrite bool_decide_eq_true. split.
  - intros E. exists (drop (length x) s). by rewrite <- E at 1; rewrite take_drop.
  - intros [t ->]. by rewrite take_app_length.
Qed.

Lemma js_endsWith_spec s x : js_endsWith s x = true ↔ ∃ t, s = t ++ x.
Proof.
  unfold js_endsWith. rewrite bool_decide_eq_true. split.
  - intros [Hl E]. exists (take (length s - length x) s).
    rewrite <- E at 2. by rewrite take_drop.
  - intros [t ->]. rewrite length_app. split; [lia|].
    replace (length t + length x - length x) with (length t) by lia.
    by rewrite drop_app_length.
Qed.

Lemma first_index_Some x s i :
  first_index x s = Some i →
  (∃ t, s = take i s ++ x ++ t) ∧ i ≤ length s ∧
  ∀ j, j < i → js_startsWith (drop j s) x = false.
Proof.
  revert i. induction s as [|u s IH]; intros i; simpl.
  - destruct (js_startsWith [] x) eqn:E; [|done]. intros [= <-].
    apply js_startsWith_spec in E as [t E]. split; [by exists t|].
    split; [done|]. intros j ?. lia.
  - destruct (js_startsWith (u :: s) x) eqn:E.
    + intros [= <-]. apply js_startsWith_spec in E as [t E].
      split; [by exists t|]. split; [simpl; lia|]. intros j ?. lia.
    + destruct (first_index x s) as [i'|] eqn:Ei; [|done]. simpl. intros [= <-].
      destruct (IH i' eq_refl) as ((t & Ht) & Hl & Hj).
      split; [exists t; simpl; by rewrite <- Ht|]. split; [simpl; lia|].
      intros [|j] ?; [done|]. simpl. apply Hj. lia.
Qed.

Lemma first_index_None x s i :
  first_index x s = None → i ≤ length s → js_startsWith (drop i s) x = false.
Proof.
  revert i. induction s as [|u s IH]; intros i; simpl.
  - destruct (js_startsWith [] x) eqn:E; [done|]. intros _ ?. by rewrite drop_nil.
  - destruct (js_startsWith (u :: s) x) eqn:E; [done|].
    destruct (first_index x s) eqn:Ei; [done|]. intros _ Hi.
    destruct i as [|i]; [done|]. simpl. apply IH; [done|lia].
Qed.

(** *** [truncate] *)

(** The result is never longer than [maxLength], and is empty when
    [maxLength] is negative. *)
Theorem truncate_length str maxLength suffix :
  (Z.of_nat (length (truncate str maxLength suffix)) ≤ Z.max 0 maxLength)%Z.
Proof.
  unfold truncate.
  destruct (Z.ltb_spec maxLength (Z.of_nat (length (default dots suffix)))); [simpl; lia|].
  destruct (Z.gtb_spec (Z.of_nat (length str)) maxLength); [|lia].
  rewrite js_substring_prefix, length_app, length_take by lia. lia.
Qed.

(** A string that fits is returned as it is, unless [maxLength] is less
    than the length of the suffix: then the result is empty, whatever
    the string; a string that does not fit is cut to exactly
    [maxLength] code units, the last of them the suffix. *)
Theorem truncate_shape str maxLength suffix :
  let sfx := default dots suffix in
  ((maxLength < Z.of_nat (length sfx))%Z → truncate str maxLength suffix = []) ∧
  ((Z.of_nat (length sfx) ≤ maxLength)%Z → (Z.of_nat (length str) ≤ maxLength)%Z →
   truncate str maxLength suffix = str) ∧
  ((Z.of_nat (length sfx) ≤ maxLength)%Z → (maxLength < Z.of_nat (length str))%Z →
   truncate str maxLength suffix =
     take (Z.to_nat maxLength - length sfx) str ++ sfx ∧
   Z.of_nat (length (truncate str maxLength suffix)) = maxLength).
Proof.
  intros sfx. unfold truncate. fold sfx. split; [|split].
  - intros H. by destruct (Z.ltb_spec maxLength (Z.of_nat (length sfx))); [|lia].
  - intros H1 H2. destruct (Z.ltb_spec maxLength (Z.of_nat (length sfx))); [lia|].
    by destruct (Z.gtb_spec (Z.of_nat (length str)) maxLength); [lia|].
  - intros H1 H2. destruct (Z.ltb_spec maxLength (Z.of_nat (length sfx))); [lia|].
    destruct (Z.gtb_spec (Z.of_nat (length str)) maxLength); [|lia].
    rewrite js_substring_prefix by lia.
    replace (Z.to_nat (maxLength - Z.of_nat (length sfx)))
      with (Z.to_nat maxLength - length sfx) by lia.
    split; [done|]. rewrite length_app, length_take. lia.
Qed.

Lemma truncate_shape_witness :
  truncate [104; 101; 108; 108; 111]%N 4 None = [104; 46; 46; 46]%N ∧
  truncate [104; 105]%N 2 None = [].
Proof.
  pose proof (truncate_shape [104; 101; 108; 108; 111]%N 4 None) as (_ & _ & H1).
  pose proof (truncate_shape [104; 105]%N 2 None) as (H2 & _).
  split.
  - apply H1; simpl; lia.
  - apply H2. simpl. lia.
Defined.

(** *** [stripStart], [ensureStart], [stripEnd], [ensureEnd] *)

Lemma stripStart_app x s : stripStart (x ++ s) x = s.
Proof.
  unfold stripStart. destruct x as [|u x]; [done|]. simpl is_empty.
  assert (E : js_startsWith ((u :: x) ++ s) (u :: x) = true).
  { apply js_startsWith_spec. by exists s. }
  rewrite E. simpl orb. rewrite js_substring_from_drop. by rewrite drop_app_length.
Qed.

Lemma stripEnd_app x s : stripEnd (s ++ x) x = s.
Proof.
  unfold stripEnd. destruct x as [|u x]; [by rewrite app_nil_r|]. simpl is_empty.
  assert (E : js_endsWith (s ++ u :: x) (u :: x) = true).
  { apply js_endsWith_spec. by exists s. }
  rewrite E. simpl orb. rewrite js_substring_prefix by (rewrite length_app; lia).
  rewrite length_app.
  replace (Z.to_nat _) with (length s) by lia. by rewrite take_app_length.
Qed.

(** [ensureStart] gives a string that starts with the prefix and
    changes nothing when applied again; [stripStart] takes one copy of
    the prefix off, so it undoes [ensureStart] exactly when the prefix
    was added (or is empty). *)
Theorem ensureStart_stripStart s x :
  js_startsWith (ensureStart s x) x = true ∧
  ensureStart (ensureStart s x) x = ensureStart s x ∧
  stripStart (x ++ s) x = s ∧
  (stripStart (ensureStart s x) x = s ↔ js_startsWith s x = false ∨ x = []).
Proof.
  assert (Hens : js_startsWith (ensureStart s x) x = true).
  { unfold ensureStart. destruct (js_startsWith s x) eqn:E; [done|].
    apply js_startsWith_spec. by exists s. }
  split; [done|]. split; [unfold ensureStart at 1; by rewrite Hens|].
  split; [apply stripStart_app|].
  unfold ensureStart. destruct (js_startsWith s x) eqn:E.
  - split.
    + intros Hs. right. destruct x as [|u x]; [done|]. exfalso.
      apply js_startsWith_spec in E as [t ->]. rewrite stripStart_app in Hs.
      apply (f_equal length) in Hs. rewrite length_app in Hs. simpl in Hs. lia.
    + intros [?| ->]; done.
  - split; [by left|]. intros _. apply stripStart_app.
Qed.

(** [ensureEnd] gives a string that ends with the suffix and changes
    nothing when applied again; [stripEnd] takes one copy of the suffix
    off, so it undoes [ensureEnd] exactly when the suffix was added (or
    is empty). *)
Theorem ensureEnd_stripEnd s x :
  js_endsWith (ensureEnd s x) x = true ∧
  ensureEnd (ensureEnd s x) x = ensureEnd s x ∧
  stripEnd (s ++ x) x = s ∧
  (stripEnd (ensureEnd s x) x = s ↔ js_endsWith s x = false ∨ x = []).
Proof.
  assert (Hens : js_endsWith (ensureEnd s x) x = true).
  { unfold ensureEnd. destruct (js_endsWith s x) eqn:E; [done|].
    apply js_endsWith_spec. by exists s. }
  split; [done|]. split; [unfold ensureEnd at 1; by rewrite Hens|].
  split; [apply stripEnd_app|].
  unfold ensureEnd. destruct (js_endsWith s x) eqn:E.
  - split.
    + intros Hs. right. destruct x as [|u x]; [done|]. exfalso.
      apply js_endsWith_spec in E as [t ->]. rewrite stripEnd_app in Hs.
      apply (f_equal length) in Hs. rewrite length_app in Hs. simpl in Hs. lia.
    + intros [?| ->]; [done|]. unfold stripEnd. done.
  - split; [by left|]. intros _. apply stripEnd_app.
Qed.

(** *** [stripAfter], [stripBefore] *)

Lemma first_index_occurs x s :
  (∃ a b, s = a ++ x ++ b) → is_Some (first_index x s).
Proof.
  intros (a & b & ->). destruct (first_index x (a ++ x ++ b)) eqn:E; [done|].
  pose proof (first_index_None x _ (length a) E) as H.
  rewrite drop_app_length in H.
  assert (js_startsWith (x ++ b) x = true) by (apply js_startsWith_spec; by exists b).
  rewrite length_app in H. rewrite H in H0; [done|lia].
Qed.

(** When [stripped] occurs in [source], the two functions cut [source]
    around its first occurrence; when it does not occur, or is empty,
    both return [source]. *)
Theorem stripAfter_stripBefore s x :
  ((∃ a b, s = a ++ x ++ b) → x ≠ [] →
   s = stripAfter s x ++ x ++ stripBefore s x ∧
   ∀ a b, s = a ++ x ++ b → length (stripAfter s x) ≤ length a) ∧
  ((¬ ∃ a b, s = a ++ x ++ b) ∨ x = [] → stripAfter s x = s ∧ stripBefore s x = s).
Proof.
  unfold stripAfter, stripBefore, js_indexOf. split.
  - intros Hocc Hx. destruct x as [|u x]; [done|]. simpl is_empty. cbv iota.
    destruct (first_index_occurs _ _ Hocc) as [i Hi]. rewrite Hi.
    destruct (Z.eqb_spec (Z.of_nat i) (-1)); [lia|].
    destruct (first_index_Some _ _ _ Hi) as ((t & Ht) & Hl & Hmin).
    rewrite js_substring_prefix, Nat2Z.id by lia.
    rewrite <- Nat2Z.inj_add, js_substring_from_drop.
    split.
    + rewrite Ht at 1. f_equal. f_equal.
      rewrite Ht at 1. rewrite <- drop_drop, drop_app_length'
        by (rewrite length_take; lia).
      by rewrite drop_app_length.
    + intros a b Hab. rewrite length_take.
      destruct (decide (length a < i)); [|lia].
      specialize (Hmin (length a) ltac:(done)). rewrite Hab, drop_app_length in Hmin.
      assert (js_startsWith ((u :: x) ++ b) (u :: x) = true)
        by (apply js_startsWith_spec; by exists b).
      congruence.
  - intros [Hn| ->]; [|done]. destruct (is_empty x); [done|].
    destruct (first_index x s) as [i|] eqn:Hi; [|done]. exfalso. apply Hn.
    destruct (first_index_Some _ _ _ Hi) as ((t & Ht) & _). by exists (take i s), t.
Qed.

(** *** [deindent] *)

Lemma js_split_cons c s : ∃ l ls, js_split c s = l :: ls.
Proof.
  destruct s as [|u s]; simpl; [by eexists _, _|].
  destruct (decide (u = c)); [by eexists _, _|].
  destruct (js_split c s); by eexists _, _.
Qed.

Lemma js_split_no_sep c s l : l ∈ js_split c s → c ∉ l.
Proof.
  revert l. induction s as [|u s IH]; intros l; simpl.
  - intros ->%list_elem_of_singleton. by intros ?%elem_of_nil.
  - destruct (decide (u = c)) as [->|Hn].
    + intros [->|Hl]%elem_of_cons; [by intros ?%elem_of_nil|by apply IH].
    + destruct (js_split c s) as [|l0 ls] eqn:E.
      * intros ->%list_elem_of_singleton. by intros [->|?%elem_of_nil]%elem_of_cons.
      * intros [->|Hl]%elem_of_cons.
        -- intros [->|?]%elem_of_cons; [done|]. apply (IH l0); [by left|done].
        -- apply IH. by right.
Qed.

Lemma js_split_no_sep_id c l : c ∉ l → js_split c l = [l].
Proof.
  induction l as [|u l IH]; [done|]. intros Hc. simpl.
  rewrite decide_False by (intros ->; apply Hc; by left).
  rewrite IH; [done|]. intros ?. apply Hc. by right.
Qed.

Lemma js_split_app c l s : c ∉ l → js_split c (l ++ c :: s) = l :: js_split c s.
Proof.
  induction l as [|u l IH]; intros Hc; simpl.
  - by rewrite decide_True.
  - rewrite decide_False by (intros ->; apply Hc; by left).
    rewrite IH; [done|]. intros ?. apply Hc. by right.
Qed.

(** Splitting what was joined gives the lines back. *)
Lemma js_split_join c ls :
  ls ≠ [] → (∀ l, l ∈ ls → c ∉ l) → js_split c (js_join c ls) = ls.
Proof.
  induction ls as [|l ls IH]; [done|]. intros _ Hc.
  destruct ls as [|l' ls].
  - simpl. apply js_split_no_sep_id, Hc. by left.
  - change (js_join c (l :: l' :: ls)) with (l ++ c :: js_join c (l' :: ls)).
    rewrite js_split_app by (apply Hc; by left).
    f_equal. apply IH; [done|]. intros l0 Hl0. apply Hc. by right.
Qed.

Lemma js_trimStart_suffix s : ∃ w, s = w ++ js_trimStart s ∧ ∀ u, u ∈ w → is_white_space u = true.
Proof.
  induction s as [|u s (w & E & Hw)]; simpl.
  - exists []. split; [done|]. by intros ? ?%elem_of_nil.
  - destruct (is_white_space u) eqn:Eu.
    + exists (u :: w). split; [simpl; by rewrite <- E|].
      intros u' [->|?]%elem_of_cons; auto.
    + exists []. split; [done|]. by intros ? ?%elem_of_nil.
Qed.

Lemma js_trimStart_elem s u : u ∈ js_trimStart s → u ∈ s.
Proof.
  destruct (js_trimStart_suffix s) as (w & E & _). intros H.
  rewrite E. apply elem_of_app. by right.
Qed.

Lemma js_trim_elem s u : u ∈ js_trim s → u ∈ s.
Proof.
  unfold js_trim. rewrite elem_of_reverse. intros H%js_trimStart_elem.
  rewrite elem_of_reverse in H. by apply js_trimStart_elem.
Qed.

Lemma js_trimStart_id s :
  (∀ u, head s = Some u → is_white_space u = false) → js_trimStart s = s.
Proof.
  destruct s as [|u s]; [done|]. intros H. simpl. by rewrite (H u).
Qed.

Lemma js_trimStart_head s u :
  head (js_trimStart s) = Some u → is_white_space u = false.
Proof.
  induction s as [|u' s IH]; simpl; [done|].
  destruct (is_white_space u') eqn:E; [done|]. by intros [= <-].
Qed.

(** A trimmed string has no white space at either end. *)
Lemma js_trim_ends s :
  (∀ u, head (js_trim s) = Some u → is_white_space u = false) ∧
  (∀ u, last (js_trim s) = Some u → is_white_space u = false).
Proof.
  unfold js_trim. split; intros u.
  - rewrite head_reverse. intros Hl.
    destruct (js_trimStart_suffix (reverse (js_trimStart s))) as (w & E & _).
    assert (Hu : last (reverse (js_trimStart s)) = Some u).
    { rewrite E, last_app. by rewrite Hl. }
    rewrite last_reverse in Hu. by apply js_trimStart_head in Hu.
  - rewrite last_reverse. apply js_trimStart_head.
Qed.

Lemma js_trim_id s :
  (∀ u, head s = Some u → is_white_space u = false) →
  (∀ u, last s = Some u → is_white_space u = false) → js_trim s = s.
Proof.
  intros Hh Hl. unfold js_trim. rewrite (js_trimStart_id s Hh).
  rewrite js_trimStart_id; [apply reverse_involutive|].
  intros u. rewrite head_reverse. apply Hl.
Qed.

Lemma js_trim_idemp s : js_trim (js_trim s) = js_trim s.
Proof. destruct (js_trim_ends s). by apply js_trim_id. Qed.

Lemma deindent_lines_no_sep s l : l ∈ deindent_lines s → (10%N) ∉ l.
Proof.
  unfold deindent_lines. intros (l0 & -> & [_ Hl0]%list_elem_of_filter)%list_elem_of_fmap.
  intros H%js_trim_elem. by apply (js_split_no_sep _ _ _ Hl0).
Qed.

Lemma js_split_deindent s :
  js_split 10 (deindent s) =
  match deindent_lines s with [] => [[]] | ls => ls end.
Proof.
  unfold deindent. fold (deindent_lines s).
  destruct (deindent_lines s) as [|l ls] eqn:E; [done|].
  apply js_split_join; [done|]. intros l0 Hl0.
  apply (deindent_lines_no_sep s). by rewrite E.
Qed.

(** The lines of the result are the lines of the input that are not
    empty, each trimmed. *)
Theorem deindent_split s :
  js_split 10 (deindent s) =
  match deindent_lines s with [] => [[]] | ls => ls end.
Proof. apply js_split_deindent. Qed.

(** No line of the result starts or ends with white space; but a line
    of the input that holds only white space is kept, as an empty
    line. *)
Theorem deindent_trimmed s :
  (∀ l, l ∈ js_split 10 (deindent s) →
     js_trim l = l ∧
     (∀ u, head l = Some u → is_white_space u = false) ∧
     (∀ u, last l = Some u → is_white_space u = false)) ∧
  (∀ l, l ∈ js_split 10 s → l ≠ [] → js_trim l = [] →
     [] ∈ js_split 10 (deindent s)).
Proof.
  rewrite js_split_deindent. split.
  - intros l Hl.
    assert (Hl' : l = [] ∨ ∃ l0, l = js_trim l0).
    { destruct (deindent_lines s) as [|l1 ls] eqn:E.
      - left. by apply list_elem_of_singleton in Hl.
      - right. rewrite <- E in Hl. unfold deindent_lines in Hl.
        apply list_elem_of_fmap in Hl as (l0 & -> & _). by exists l0. }
    destruct Hl' as [->|[l0 ->]]; [done|].
    split; [apply js_trim_idemp|apply js_trim_ends].
  - intros l Hl Hn Ht.
    assert (H : [] ∈ deindent_lines s).
    { unfold deindent_lines. apply list_elem_of_fmap. exists l. split; [done|].
      by apply list_elem_of_filter. }
    destruct (deindent_lines s); [by left|done].
Qed.

Lemma deindent_trimmed_witness :
  let s := [97; 10; 32; 32; 10; 98]%N in
  deindent s = [97; 10; 10; 98]%N ∧ [] ∈ js_split 10 (deindent s).
Proof.
  split; [reflexivity|].
  destruct (deindent_trimmed [97; 10; 32; 32; 10; 98]%N) as [_ H].
  apply (H [32; 32]%N).
  - vm_compute. right. by left.
  - done.
  - reflexivity.
Defined.

(** A second pass only takes out the empty lines the first pass left. *)
Theorem deindent_twice s :
  deindent (deindent s) = js_join 10 (filter (λ l, l ≠ []) (deindent_lines s)).
Proof.
  unfold deindent at 1. rewrite js_split_deindent.
  assert (Hid : ∀ ls : list (list N), (∀ l, l ∈ ls → js_trim l = l) →
            js_trim <$> filter (λ l, l ≠ []) ls = filter (λ l, l ≠ []) ls).
  { intros ls Hls. induction ls as [|l ls IH]; [done|].
    rewrite filter_cons. destruct (decide (l ≠ [])).
    - rewrite fmap_cons, Hls by (by left). f_equal. apply IH.
      intros l' ?. apply Hls. by right.
    - apply IH. intros l' ?. apply Hls. by right. }
  destruct (deindent_lines s) as [|l ls] eqn:E; [done|].
  rewrite Hid; [done|]. intros l0 Hl0. rewrite <- E in Hl0.
  unfold deindent_lines in Hl0. apply list_elem_of_fmap in Hl0 as (l1 & -> & _).
  apply js_trim_idemp.
Qed.

(** ** Requests *)

Lemma headers_set_lookup name value h h' k :
  headers_set name value h = Some h' →
  h' !! k = if decide (k = name) then Some (normalize_value value) else h !! k.
Proof.
  unfold headers_set. destruct (valid_value _); [|done]. intros [= <-].
  destruct (decide (k = name)) as [->|]; [by rewrite lookup_insert_eq|].
  by rewrite lookup_insert_ne.
Qed.

Lemma headers_has_false name h : headers_has name h = false ↔ h !! name = None.
Proof.
  unfold headers_has. rewrite bool_decide_eq_false.
  split; [by intros ?%eq_None_not_Some|intros -> [??]; done].
Qed.

(** Setting a header the map does not have keeps all it has. *)
Lemma headers_set_keeps name value h h' :
  headers_has name h = false → headers_set name value h = Some h' →
  ∀ k v, h !! k = Some v → h' !! k = Some v.
Proof.
  intros Hn%headers_has_false Hs k v Hk.
  rewrite (headers_set_lookup _ _ _ _ _ Hs).
  destruct (decide _) as [->|]; [congruence|done].
Qed.

Lemma add_accept_header_keeps hostname h h' :
  add_accept_header hostname h = Some h' →
  ∀ k v, h !! k = Some v → h' !! k = Some v.
Proof.
  unfold add_accept_header. intros H k v Hk.
  apply bind_Some in H as (h1 & H1 & H2).
  assert (K1 : h1 !! k = Some v).
  { destruct (headers_has "accept" h) eqn:E; simpl in H1; [by simplify_eq|].
    destruct (truthy_string _); [|by simplify_eq].
    by eapply headers_set_keeps. }
  destruct (bool_decide _ && negb (headers_has "x-github-api-version" h1)) eqn:E;
    [|by simplify_eq].
  apply andb_true_iff in E as [_ E%negb_true_iff].
  by eapply headers_set_keeps.
Qed.

Lemma request_headers_keeps init hostname token cached h :
  request_headers init hostname token cached = Some h →
  ∀ k v, init !! k = Some v → h !! k = Some v.
Proof.
  unfold request_headers. intros H k v Hk.
  apply bind_Some in H as (h1 & H1 & H).
  apply bind_Some in H as (h2 & H2 & H).
  pose proof (add_accept_header_keeps _ _ _ H1 k v Hk) as K1.
  assert (K2 : h2 !! k = Some v).
  { destruct token as [t|]; [|by simplify_eq].
    destruct (truthy_string t && negb (headers_has "authorization" h1)) eqn:E;
      [|by simplify_eq].
    apply andb_true_iff in E as [_ E%negb_true_iff].
    by eapply headers_set_keeps. }
  assert (Hm : ∀ h', match cached ≫= last_modified with
      | Some m =>
          if truthy_string m && negb (headers_has "if-modified-since" h2)
          then headers_set "if-modified-since" m h2 else Some h2
      | None => Some h2
      end = Some h' → h' !! k = Some v).
  { intros h' H'. destruct (cached ≫= last_modified) as [m|]; [|by simplify_eq].
    destruct (truthy_string m && negb (headers_has "if-modified-since" h2)) eqn:E;
      [|by simplify_eq].
    apply andb_true_iff in E as [_ E%negb_true_iff].
    by eapply headers_set_keeps. }
  destruct (cached ≫= etag) as [e|]; [|by apply Hm].
  destruct (truthy_string e && negb (headers_has "if-none-match" h2)) eqn:E;
    [|by apply Hm].
  apply andb_true_iff in E as [_ E%negb_true_iff].
  by eapply headers_set_keeps.
Qed.

(** The headers of the request take precedence over the computed
    ones: each keeps its value. *)
Theorem request_headers_precedence init hostname token cached h :
  request_headers init hostname token cached = Some h →
  ∀ k v, init !! k = Some v → h !! k = Some v.
Proof. apply request_headers_keeps. Qed.

Lemma headers_has_true name h : headers_has name h = true ↔ is_Some (h !! name).
Proof. unfold headers_has. by rewrite bool_decide_eq_true. Qed.

Lemma add_accept_header_lookup hostname h h' :
  add_accept_header hostname h = Some h' →
  (∀ k, k ≠ "accept"%string → k ≠ "x-github-api-version"%string → h' !! k = h !! k) ∧
  h' !! "accept" =
    Some (default (if String.eqb hostname "api.github.com"
                   then DEFAULT_GITHUB_API_ACCEPT_HEADER
                   else "application/json"%string) (h !! "accept")) ∧
  (h' !! "accept" = Some DEFAULT_GITHUB_API_ACCEPT_HEADER →
   is_Some (h' !! "x-github-api-version")).
Proof.
  unfold add_accept_header. intros H.
  apply bind_Some in H as (h1 & H1 & H2).
  assert (K1 : (∀ k, k ≠ "accept"%string → h1 !! k = h !! k) ∧
    h1 !! "accept" =
      Some (default (if String.eqb hostname "api.github.com"
                     then DEFAULT_GITHUB_API_ACCEPT_HEADER
                     else "application/json"%string) (h !! "accept"))).
  { destruct (headers_has "accept" h) eqn:E; simpl in H1.
    - simplify_eq. split; [done|].
      apply headers_has_true in E as [a Ea]. by rewrite Ea.
    - apply headers_has_false in E. rewrite E. simpl.
      destruct (String.eqb hostname "api.github.com"); simpl in H1.
      + split; [intros k Hk|]; rewrite (headers_set_lookup _ _ _ _ _ H1);
          [by rewrite decide_False|by rewrite decide_True].
      + split; [intros k Hk|]; rewrite (headers_set_lookup _ _ _ _ _ H1);
          [by rewrite decide_False|by rewrite decide_True]. }
  destruct K1 as [K1 K1a].
  destruct (bool_decide (h1 !! "accept" = Some DEFAULT_GITHUB_API_ACCEPT_HEADER)) eqn:Eg;
    simpl in H2.
  - destruct (headers_has "x-github-api-version" h1) eqn:Ev; simpl in H2.
    + simplify_eq. split; [by intros; apply K1|]. split; [done|].
      intros _. by apply headers_has_true.
    + split; [|split].
      * intros k Hk1 Hk2. rewrite (headers_set_lookup _ _ _ _ _ H2).
        rewrite decide_False by done. by apply K1.
      * rewrite (headers_set_lookup _ _ _ _ _ H2). by rewrite decide_False.
      * intros _. rewrite (headers_set_lookup _ _ _ _ _ H2). by rewrite decide_True.
  - simplify_eq. split; [by intros; apply K1|]. split; [done|].
    intros Ha. by apply bool_decide_eq_false in Eg.
Qed.

(** The request always has an [accept] header: the one of
    [request.headers], or else the GitHub media type for
    [api.github.com] and [application/json] for any other host; with
    the GitHub media type it has a [x-github-api-version] header too. *)
Theorem request_headers_accept init hostname token cached h :
  request_headers init hostname token cached = Some h →
  h !! "accept" =
    Some (default (if String.eqb hostname "api.github.com"
                   then DEFAULT_GITHUB_API_ACCEPT_HEADER
                   else "application/json"%string) (init !! "accept")) ∧
  (h !! "accept" = Some DEFAULT_GITHUB_API_ACCEPT_HEADER →
   is_Some (h !! "x-github-api-version")).
Proof.
  intros H. pose proof (request_headers_keeps _ _ _ _ _ H) as Hkeep.
  unfold request_headers in H. apply bind_Some in H as (h1 & H1 & H).
  apply bind_Some in H as (h2 & H2 & H).
  assert (Hk : ∀ k v, h1 !! k = Some v → h !! k = Some v).
  { intros k v Hk.
    apply (request_headers_keeps h1 hostname token cached).
    unfold request_headers.
    (* the headers are complete after [add_accept_header] *)
    destruct (add_accept_header_lookup _ _ _ H1) as (_ & Ha & Hv).
    assert (E : add_accept_header hostname h1 = Some h1).
    { unfold add_accept_header. rewrite (proj2 (headers_has_true "accept" h1)) by
        (by rewrite Ha). simpl.
      destruct (bool_decide (h1 !! "accept" = Some DEFAULT_GITHUB_API_ACCEPT_HEADER)) eqn:Eg;
        [|done]. simpl.
      apply bool_decide_eq_true in Eg.
      by rewrite (proj2 (headers_has_true "x-github-api-version" h1) (Hv Eg)). }
    rewrite E. simpl. rewrite H2. simpl. done. done. }
  destruct (add_accept_header_lookup _ _ _ H1) as (_ & Ha & Hv).
  split; [by apply Hk|].
  intros Hg. rewrite (Hk _ _ Ha) in Hg. destruct (Hv ltac:(congruence)) as [v' Hv'].
  exists v'. by apply Hk.
Qed.

Lemma request_headers_lookup init hostname token cached h :
  request_headers init hostname token cached = Some h →
  ∃ h2, (∀ k, k ≠ "accept"%string → k ≠ "x-github-api-version"%string →
             k ≠ "authorization"%string → h2 !! k = init !! k) ∧
    (h2 !! "authorization" =
       match init !! "authorization", token with
       | Some v, _ => Some v
       | None, Some t =>
           if truthy_string t then Some (normalize_value ("Bearer " +:+ t)) else None
       | None, None => None
       end) ∧
    match cached ≫= etag with
    | Some e =>
        if truthy_string e && negb (headers_has "if-none-match" h2)
        then headers_set "if-none-match" e h2
        else match cached ≫= last_modified with
             | Some m =>
                 if truthy_string m && negb (headers_has "if-modified-since" h2)
                 then headers_set "if-modified-since" m h2 else Some h2
             | None => Some h2
             end
    | None =>
        match cached ≫= last_modified with
        | Some m =>
            if truthy_string m && negb (headers_has "if-modified-since" h2)
            then headers_set "if-modified-since" m h2 else Some h2
        | None => Some h2
        end
    end = Some h.
Proof.
  unfold request_headers. intros H.
  apply bind_Some in H as (h1 & H1 & H). apply bind_Some in H as (h2 & H2 & H).
  exists h2. split; [|split; [|done]].
  - intros k Ka Kv Kz.
    destruct (add_accept_header_lookup _ _ _ H1) as (K1 & _).
    rewrite <- (K1 k) by done.
    destruct token as [t|]; [|by simplify_eq].
    destruct (truthy_string t && negb (headers_has "authorization" h1)); [|by simplify_eq].
    rewrite (headers_set_lookup _ _ _ _ _ H2). by rewrite decide_False.
  - destruct (add_accept_header_lookup _ _ _ H1) as (K1 & _).
    rewrite <- (K1 "authorization"%string) by done.
    destruct (h1 !! "authorization") as [v|] eqn:Ev.
    + destruct token as [t|]; [|by simplify_eq].
      rewrite (proj2 (headers_has_true "authorization" h1)) in H2 by (by rewrite Ev).
      rewrite andb_false_r in H2. by simplify_eq.
    + destruct token as [t|]; [|by simplify_eq].
      rewrite (proj2 (headers_has_false "authorization" h1)) in H2 by done.
      destruct (truthy_string t); simpl in H2; [|by simplify_eq].
      rewrite (headers_set_lookup _ _ _ _ _ H2). by rewrite decide_True.
Qed.

(** With no validator in [request.headers], the request carries
    [if-none-match] with the cached etag when there is one, and else
    [if-modified-since] with the cached date when there is one; never
    both. *)
Theorem request_headers_validators init hostname token cached h :
  request_headers init hostname token cached = Some h →
  init !! "if-none-match" = None → init !! "if-modified-since" = None →
  match cached ≫= etag with
  | Some (String.String a e) =>
      h !! "if-none-match" = Some (normalize_value (String.String a e)) ∧
      h !! "if-modified-since" = None
  | _ =>
      h !! "if-none-match" = None ∧
      h !! "if-modified-since" =
        match cached ≫= last_modified with
        | Some (String.String a m) => Some (normalize_value (String.String a m))
        | _ => None
        end
  end.
Proof.
  intros H In Im. destruct (request_headers_lookup _ _ _ _ _ H) as (h2 & K & _ & Hh).
  assert (Kn : h2 !! "if-none-match" = None) by (by rewrite K).
  assert (Km : h2 !! "if-modified-since" = None) by (by rewrite K).
  rewrite (proj2 (headers_has_false _ _) Kn), (proj2 (headers_has_false _ _) Km) in Hh.
  assert (Hlm : ∀ h', match cached ≫= last_modified with
      | Some m => if truthy_string m && negb false
                  then headers_set "if-modified-since" m h2 else Some h2
      | None => Some h2
      end = Some h' →
      h' !! "if-none-match" = None ∧
      h' !! "if-modified-since" =
        match cached ≫= last_modified with
        | Some (String.String a m) => Some (normalize_value (String.String a m))
        | _ => None
        end).
  { intros h' H'. destruct (cached ≫= last_modified) as [[|a m]|]; simpl in H';
      [by simplify_eq| |by simplify_eq].
    rewrite !(headers_set_lookup _ _ _ _ _ H'). by rewrite decide_False, decide_True. }
  destruct (cached ≫= etag) as [[|a e]|]; simpl in Hh; [by apply Hlm| |by apply Hlm].
  rewrite !(headers_set_lookup _ _ _ _ _ Hh). by rewrite decide_True, decide_False.
Qed.

(** A response with status 304 is not "ok", so it is returned as a
    failure: the branch that returns the cached data for a 304 is never
    taken, nor the one that throws for a 304 without cached data. *)
Theorem not_modified_is_a_failure res cached :
  after_response res cached ≠ return_cached_data ∧
  after_response res cached ≠ throw_unexpected_304 ∧
  (status res = 304%Z →
   after_response res cached = return_failure 304 (statusText res)) ∧
  (after_response res cached = read_body ↔ (200 ≤ status res ≤ 299)%Z).
Proof.
  unfold after_response, response_ok.
  destruct (Z.eqb_spec (status res) 429), (Z.leb_spec 200 (status res)),
    (Z.leb_spec (status res) 299), (Z.eqb_spec (status res) 304);
    simpl; repeat split; try done; try lia; try (intros; lia); try congruence.
Qed.

Lemma print_headers_lookup h :
  (∀ k, k ≠ "authorization"%string → print_headers h !! k = h !! k) ∧
  print_headers h !! "authorization" =
    ((λ v, if truthy_string v then "[REDACTED]"%string else ""%string)
       <$> h !! "authorization").
Proof.
  unfold print_headers. destruct (h !! "authorization") as [v|] eqn:E.
  - destruct v as [|a v]; simpl.
    + split; [done|]. by rewrite E.
    + split; [intros k Hk; by rewrite lookup_insert_ne|by rewrite lookup_insert_eq].
  - split; [done|]. by rewrite E.
Qed.

(** [print_headers] shows every header but [authorization] as it is,
    and of [authorization] only whether it is there: the token of the
    request is never in what is logged. *)
Theorem print_headers_redacts h :
  (∀ k, k ≠ "authorization"%string → print_headers h !! k = h !! k) ∧
  print_headers h !! "authorization" =
    ((λ v, if truthy_string v then "[REDACTED]"%string else ""%string)
       <$> h !! "authorization").
Proof. apply print_headers_lookup. Qed.

Lemma strip_start_snoc l b : http_whitespace b = false → strip_start (l ++ [b]) ≠ [].
Proof.
  intros Hb. induction l as [|a l IH]; simpl; [by rewrite Hb|].
  by destruct (http_whitespace a).
Qed.

Lemma normalize_value_truthy b v :
  http_whitespace b = false → truthy_string (normalize_value (String.String b v)) = true.
Proof.
  intros Hb. unfold normalize_value. simpl. rewrite Hb, reverse_cons.
  pose proof (strip_start_snoc (reverse (String.list_ascii_of_string v)) b Hb) as H.
  destruct (strip_start _) as [|a l] using rev_ind; [done|].
  rewrite reverse_snoc. done.
Qed.

(** The token reaches the request as [Bearer] and the token, unless
    [request.headers] has an [authorization] of its own. *)
Theorem request_headers_token init hostname t cached h :
  request_headers init hostname (Some t) cached = Some h →
  init !! "authorization" = None → t ≠ ""%string →
  h !! "authorization" = Some (normalize_value ("Bearer " +:+ t)) ∧
  print_headers h !! "authorization" = Some "[REDACTED]"%string.
Proof.
  intros H Hi Ht. destruct (request_headers_lookup _ _ _ _ _ H) as (h2 & _ & Ha & Hh).
  rewrite Hi in Ha. destruct t as [|a t]; [done|]. simpl in Ha.
  assert (Hk : h !! "authorization" = h2 !! "authorization").
  { destruct (cached ≫= etag) as [e|];
      [destruct (truthy_string e && negb (headers_has "if-none-match" h2))|];
      try (rewrite (headers_set_lookup _ _ _ _ _ Hh); by rewrite decide_False);
      (destruct (cached ≫= last_modified) as [m|]; [|by simplify_eq]);
      (destruct (truthy_string m && negb (headers_has "if-modified-since" h2));
         [|by simplify_eq]);
      rewrite (headers_set_lookup _ _ _ _ _ Hh); by rewrite decide_False. }
  rewrite Hk, Ha. split; [done|].
  destruct (print_headers_lookup h) as [_ ->]. rewrite Hk, Ha. simpl.
  change ("Bearer " +:+ String.String a t)
    with (String.String (Ascii.ascii_of_nat 66) ("earer " +:+ String.String a t)).
  by rewrite normalize_value_truthy.
Qed.

(** ** Runs that show the properties at work *)

Lemma reachable_started : reachable started.
Proof. apply reachable_block, rtc_refl. Qed.

Lemma restartable_handle_is_live_witness :
  let s := exec_registry_call (call_unregister 0)
             (exec_registry_call (call_register_global_spawn 0) started) in
  (global_spawn s = [] ∧ get_spawned 0 s = Some (mk_spawned 0 1)) ∧
  (settled_at s 1 = None ↔ is_running 0 s) ∧
  (∀ cd sg, exited_at s 0 = Some (cd, sg) →
     settled_at s 1 = Some (V_result (spawn_result 0 cd sg))).
Proof.
  split; [by vm_compute|].
  apply (restartable_handle_is_live 0 (mk_spawned 0 1)).
  - exists [0].
    apply (open_registry [0] (call_unregister 0)); [|by left].
    apply (open_registry [] (call_register_global_spawn 0)); [|by vm_compute].
    apply reachable_open_run, reachable_block, rtc_refl.
  - reflexivity.
Defined.

Lemma kill_waits_for_close_witness :
  let s' := Nat.iter 2 turn (emit_close 0 None (Some "SIGTERM"%string) (kill 0 started).1) in
  (exited_at s' 0 = Some (None, Some "SIGTERM"%string) ∧ microtasks s' = [] ∧
   settled_at s' (kill 0 started).2 = Some V_undefined) ∧
  (kills_at (kill 0 started).1 0 = S (kills_at started 0) ∧
   get_spawned 0 (kill 0 started).1 = None ∧
   get_restarting 0 (kill 0 started).1 = Some 1 ∧
   global_spawn (kill 0 started).1 = global_spawn started) ∧
  (∀ v, settled_at s' (kill 0 started).2 = Some v →
     v = V_undefined ∧ is_Some (exited_at s' 0)) ∧
  (is_Some (exited_at s' 0) → microtasks s' = [] →
   settled_at s' (kill 0 started).2 = Some V_undefined).
Proof.
  split; [by vm_compute|].
  apply (kill_waits_for_close 0 (mk_spawned 0 1) started).
  - apply reachable_block, rtc_refl.
  - reflexivity.
  - reflexivity.
  - eapply rtc_l; [apply (step_close 0 None (Some "SIGTERM"%string))|apply steps_turns].
    + reflexivity.
    + eexists. split; reflexivity.
Defined.

(** [kill] right after the constructor, in any reachable state and
    whatever runs afterwards: the child the constructor started is
    killed and let go of at once, and the promise of [kill] is
    fulfilled only after that child has closed, and once it has closed
    and no microtask is left. *)
Theorem kill_right_after_construction cm ar o s s' :
  reachable s →
  rtc step (kill (spawn_restartable_process cm ar o s).2
              (spawn_restartable_process cm ar o s).1).1 s' →
  let s1 := (spawn_restartable_process cm ar o s).1 in
  let rp := (spawn_restartable_process cm ar o s).2 in
  let c := length (children s) in
  is_running c s1 ∧ kills_at (kill rp s1).1 c = 1 ∧
  get_spawned rp (kill rp s1).1 = None ∧
  (∀ v, settled_at s' (kill rp s1).2 = Some v →
     v = V_undefined ∧ is_Some (exited_at s' c)) ∧
  (is_Some (exited_at s' c) → microtasks s' = [] →
   settled_at s' (kill rp s1).2 = Some V_undefined).
Proof.
  intros Hre Hsteps s1 rp c.
  destruct (spawn_restartable_process_spec cm ar o s)
    as (Hch & Hrun & _ & Hsp & Hg & _).
  fold s1 rp c in Hch, Hrun, Hsp, Hg.
  assert (Hre1 : reachable s1).
  { eapply rtc_r; [exact Hre|].
    replace s1 with (exec_calls [call_spawn_restartable_process cm ar o] s) by done.
    constructor. }
  destruct (kill_running rp _ s1 s' Hre1 Hg Hsp Hsteps) as ((Hk & Hs & _) & Hsafe & Hlive).
  cbn [sp_child] in *.
  split; [done|]. split; [|done].
  rewrite Hk. unfold kills_at. rewrite Hch. unfold c.
  by rewrite list_lookup_middle.
Qed.

Lemma kill_right_after_construction_witness :
  let s1 := (spawn_restartable_process "server" [] (mk_options None) initial).1 in
  let s' := Nat.iter 2 turn (emit_close 0 (Some 0%Z) None (kill 0 s1).1) in
  (microtasks s' = [] ∧ global_spawn s' = []) ∧
  is_running 0 s1 ∧ kills_at (kill 0 s1).1 0 = 1 ∧
  get_spawned 0 (kill 0 s1).1 = None ∧
  (∀ v, settled_at s' (kill 0 s1).2 = Some v →
     v = V_undefined ∧ is_Some (exited_at s' 0)) ∧
  (is_Some (exited_at s' 0) → microtasks s' = [] →
   settled_at s' (kill 0 s1).2 = Some V_undefined).
Proof.
  split; [by vm_compute|].
  apply (kill_right_after_construction "server" [] (mk_options None) initial).
  - apply rtc_refl.
  - eapply rtc_l; [apply (step_close 0 (Some 0%Z) None)|apply steps_turns].
    + reflexivity.
    + eexists. split; reflexivity.
Defined.

Lemma restart_waits_for_close_witness :
  let s' := Nat.iter 3 turn
              (emit_close 0 None (Some "SIGTERM"%string) (restart 0 started).1) in
  (exited_at s' 0 = Some (None, Some "SIGTERM"%string) ∧ microtasks s' = [] ∧
   settled_at s' (restart 0 started).2 = Some V_undefined ∧ global_spawn s' = [1]) ∧
  (kills_at (restart 0 started).1 0 = S (kills_at started 0) ∧
   get_spawned 0 (restart 0 started).1 = None ∧
   get_restarting 0 (restart 0 started).1 = Some 1 ∧
   global_spawn (restart 0 started).1 = global_spawn started ∧
   length (children (restart 0 started).1) = length (children started)) ∧
  (∀ v, settled_at s' (restart 0 started).2 = Some v →
     v = V_undefined ∧ is_Some (exited_at s' 0)) ∧
  (is_Some (exited_at s' 0) → microtasks s' = [] →
   settled_at s' (restart 0 started).2 = Some V_undefined).
Proof.
  split; [by vm_compute|].
  apply (restart_waits_for_close 0 (mk_spawned 0 1) started).
  - apply reachable_block, rtc_refl.
  - reflexivity.
  - reflexivity.
  - eapply rtc_l; [apply (step_close 0 None (Some "SIGTERM"%string))|apply steps_turns].
    + reflexivity.
    + eexists. split; reflexivity.
Defined.

Lemma restart_joins_the_close_witness :
  let s := exec_calls [call_restart 0] started in
  get_restarting 0 s = Some 1 ∧
  (children (restart 0 s).1 = children s ∧
   global_spawn (restart 0 s).1 = global_spawn s ∧
   restartables (restart 0 s).1 = restartables s) ∧
  ∃ c, c < length (children s) ∧ ∀ s', rtc step (restart 0 s).1 s' →
    (∀ v, settled_at s' (restart 0 s).2 = Some v →
       ∃ cd sg, exited_at s' c = Some (cd, sg) ∧ v = V_result (spawn_result c cd sg)) ∧
    (is_Some (exited_at s' c) → microtasks s' = [] →
     is_Some (settled_at s' (restart 0 s).2)).
Proof.
  split; [reflexivity|].
  apply (restart_joins_the_close 0 1 (exec_calls [call_restart 0] started)).
  - apply reachable_block, reachable_block, rtc_refl.
  - reflexivity.
Defined.

Lemma stripAfter_stripBefore_witness :
  let s := [97; 61; 98; 61; 99]%N in
  (stripAfter s [61]%N = [97]%N ∧ stripBefore s [61]%N = [98; 61; 99]%N) ∧
  s = stripAfter s [61]%N ++ [61]%N ++ stripBefore s [61]%N ∧
  (∀ a b, s = a ++ [61]%N ++ b → length (stripAfter s [61]%N) ≤ length a).
Proof.
  split; [by vm_compute|].
  destruct (stripAfter_stripBefore [97; 61; 98; 61; 99]%N [61]%N) as [H _].
  apply H; [|done]. by exists [97]%N, [98; 61; 99]%N.
Defined.

(** Requests whose headers need no computing of maps. *)
Lemma request_headers_plain init hostname a :
  init !! "accept" = Some a → a ≠ DEFAULT_GITHUB_API_ACCEPT_HEADER →
  request_headers init hostname None None = Some init.
Proof.
  intros Ha Hn. unfold request_headers, add_accept_header.
  rewrite (proj2 (headers_has_true "accept" init)) by (by rewrite Ha). simpl.
  rewrite bool_decide_eq_false_2 by (rewrite Ha; congruence). done.
Qed.

Lemma request_headers_bearer init hostname a t :
  init !! "accept" = Some a → a ≠ DEFAULT_GITHUB_API_ACCEPT_HEADER →
  init !! "authorization" = None → truthy_string t = true →
  valid_value (normalize_value ("Bearer " +:+ t)) = true →
  request_headers init hostname (Some t) None =
  Some (<["authorization" := normalize_value ("Bearer " +:+ t)]> init).
Proof.
  intros Ha Hn Hz Ht Hv. unfold request_headers, add_accept_header.
  rewrite (proj2 (headers_has_true "accept" init)) by (by rewrite Ha). simpl.
  rewrite bool_decide_eq_false_2 by (rewrite Ha; congruence). simpl.
  rewrite Ht, (proj2 (headers_has_false "authorization" init)) by done. simpl.
  unfold headers_set. by rewrite Hv.
Qed.

Lemma request_headers_etag init hostname a e m :
  init !! "accept" = Some a → a ≠ DEFAULT_GITHUB_API_ACCEPT_HEADER →
  init !! "if-none-match" = None → truthy_string e = true →
  valid_value (normalize_value e) = true →
  request_headers init hostname None (Some (mk_item (Some e) m)) =
  Some (<["if-none-match" := normalize_value e]> init).
Proof.
  intros Ha Hn Hz Ht Hv. unfold request_headers, add_accept_header.
  rewrite (proj2 (headers_has_true "accept" init)) by (by rewrite Ha). simpl.
  rewrite bool_decide_eq_false_2 by (rewrite Ha; congruence). simpl.
  rewrite Ht, (proj2 (headers_has_false "if-none-match" init)) by done. simpl.
  unfold headers_set. by rewrite Hv.
Qed.

Lemma request_headers_precedence_witness :
  let init : gmap string string := {[ "accept"%string := "text/html"%string ]} in
  request_headers init "example.com" (Some "t0ken"%string) None =
    Some (<["authorization" := normalize_value ("Bearer " +:+ "t0ken")]> init) ∧
  (<["authorization" := normalize_value ("Bearer " +:+ "t0ken")]> init) !! "accept"
    = Some "text/html"%string.
Proof.
  assert (E : request_headers {[ "accept"%string := "text/html"%string ]} "example.com"
                (Some "t0ken"%string) None =
              Some (<["authorization" := normalize_value ("Bearer " +:+ "t0ken")]>
                      {[ "accept"%string := "text/html"%string ]})).
  { apply (request_headers_bearer _ _ "text/html"); [by rewrite lookup_singleton_eq|done| |done|].
    - by rewrite lookup_singleton_ne.
    - vm_compute. reflexivity. }
  split; [exact E|].
  apply (request_headers_precedence _ _ _ _ _ E). by rewrite lookup_singleton_eq.
Defined.

Lemma request_headers_accept_witness :
  let init : gmap string string := {[ "accept"%string := "text/html"%string ]} in
  request_headers init "api.github.com" None None = Some init ∧
  init !! "accept" =
    Some (default (if String.eqb "api.github.com" "api.github.com"
                   then DEFAULT_GITHUB_API_ACCEPT_HEADER
                   else "application/json"%string) (init !! "accept")) ∧
  (init !! "accept" = Some DEFAULT_GITHUB_API_ACCEPT_HEADER →
   is_Some (init !! "x-github-api-version")).
Proof.
  assert (E : request_headers {[ "accept"%string := "text/html"%string ]} "api.github.com"
                None None = Some {[ "accept"%string := "text/html"%string ]}).
  { apply (request_headers_plain _ _ "text/html"); [by rewrite lookup_singleton_eq|done]. }
  split; [exact E|]. apply (request_headers_accept _ _ _ _ _ E).
Defined.

Lemma request_headers_validators_witness :
  let init : gmap string string := {[ "accept"%string := "text/html"%string ]} in
  let h := <["if-none-match" := normalize_value "W/1"]> init in
  request_headers init "example.com" None
    (Some (mk_item (Some "W/1"%string) (Some "Tue"%string))) = Some h ∧
  h !! "if-none-match" = Some (normalize_value "W/1") ∧
  h !! "if-modified-since" = None.
Proof.
  assert (E : request_headers {[ "accept"%string := "text/html"%string ]} "example.com"
                None (Some (mk_item (Some "W/1"%string) (Some "Tue"%string))) =
              Some (<["if-none-match" := normalize_value "W/1"]>
                      {[ "accept"%string := "text/html"%string ]})).
  { apply (request_headers_etag _ _ "text/html"); [by rewrite lookup_singleton_eq|done| |done|].
    - by rewrite lookup_singleton_ne.
    - vm_compute. reflexivity. }
  split; [exact E|].
  apply (request_headers_validators _ _ _ _ _ E); by rewrite lookup_singleton_ne.
Defined.

Lemma request_headers_token_witness :
  let init : gmap string string := {[ "accept"%string := "text/html"%string ]} in
  let h := <["authorization" := normalize_value ("Bearer " +:+ "t0ken")]> init in
  request_headers init "example.com" (Some "t0ken"%string) None = Some h ∧
  h !! "authorization" = Some (normalize_value ("Bearer " +:+ "t0ken")) ∧
  print_headers h !! "authorization" = Some "[REDACTED]"%string.
Proof.
  assert (E : request_headers {[ "accept"%string := "text/html"%string ]} "example.com"
                (Some "t0ken"%string) None =
              Some (<["authorization" := normalize_value ("Bearer " +:+ "t0ken")]>
                      {[ "accept"%string := "text/html"%string ]})).
  { apply (request_headers_bearer _ _ "text/html"); [by rewrite lookup_singleton_eq|done| |done|].
    - by rewrite lookup_singleton_ne.
    - vm_compute. reflexivity. }
  split; [exact E|].
  apply (request_headers_token _ _ _ _ _ E); [by rewrite lookup_singleton_ne|done].
Defined.
